(** * pydupe: the duplicate lookup table, the keep/delete partition and the
      validating executor

    A shallow embedding of
      - [pydupe/lutable.py]   (class [LuTable]),
      - [pydupe/dupetable.py] ([check_and_autoselect], [dd3],
        [Dupetable.validate], [Dupetable.delete], [move_file_to_trash]),
      - [pydupe/data.py]      ([checkHash]),
    together with the properties of the partition that the specification
    states.

    Conventions.
      - A Python [dict] keeps its keys in insertion order, and a bucket is a
        [deque]; a table is therefore an association list whose order is the
        insertion order.
      - A [pathlib.Path] is an absolute POSIX path, held as the list of its
        components below the root.
      - A Python exception is the [Raise] branch of [result]; what the program
        had mutated before raising is dropped with it, except in
        [Dupetable.delete], whose state (disk and index) outlives the call. *)

From Stdlib Require Import List String Ascii Bool Arith NArith Lia Permutation.
From Stdlib Require Import DecimalString DecimalNat FinFun.
Import ListNotations.
Local Open Scope string_scope.
Local Open Scope list_scope.

(** ** Exceptions and results *)

Inductive exn : Type :=
| KeyError
| ValueError
| AssertionError
| OSError
| DupeFileNotFound
| DupeIsSymLink
| DupeIsDirectory
| DupeNotValidated.

Inductive result (A : Type) : Type :=
| Ok (a : A)
| Raise (e : exn).

Arguments Ok {A} a.
Arguments Raise {A} e.

Definition bind {A B : Type} (r : result A) (k : A -> result B) : result B :=
  match r with
  | Ok a => k a
  | Raise e => Raise e
  end.

Notation "x <- r ;; k" := (bind r (fun x => k))
  (at level 61, r at next level, right associativity).

(** [for x in xs: body], where the body may raise. *)
Fixpoint for_each {A S : Type} (body : S -> A -> result S) (xs : list A) (s : S)
  : result S :=
  match xs with
  | [] => Ok s
  | x :: xs' => s' <- body s x ;; for_each body xs' s'
  end.

(** ** [sorted] *)

Section Sorted.
Context {A : Type} (leb : A -> A -> bool).

Fixpoint insert_sorted (x : A) (l : list A) : list A :=
  match l with
  | [] => [x]
  | y :: l' => if leb x y then x :: l else y :: insert_sorted x l'
  end.

(** Python's [sorted]: on the total orders used here (strings, paths) two
    elements that compare equal are equal, so every sorting algorithm
    returns the same list. *)
Definition sorted (l : list A) : list A := fold_right insert_sorted [] l.

End Sorted.

(** ** Hashes and paths *)

Definition hash : Type := string.
Definition path : Type := list string.

Definition path_eq_dec : forall p q : path, {p = q} + {p <> q} :=
  list_eq_dec string_dec.

Definition path_eqb (p q : path) : bool :=
  if path_eq_dec p q then true else false.

(** [Path.name]: the last component, the empty string for the root. *)
Definition name (f : path) : string := last f "".

(** [Path.is_relative_to(parent)]: [parent] is the path itself or one of its
    ancestors. *)
Fixpoint is_relative_to (f parent : path) : bool :=
  match parent, f with
  | [], _ => true
  | _ :: _, [] => false
  | c :: parent', d :: f' => String.eqb c d && is_relative_to f' parent'
  end.

(** The order of [PurePath]: the lists of components, compared
    lexicographically, each component as a string. *)
Definition path_leb (p q : path) : bool :=
  match list_compare String.compare p q with
  | Gt => false
  | _ => true
  end.

(** ** lutable.py *)

Module lutable.

(** [self._hashlu]: hash -> deque of paths. *)
Definition LuTable : Type := list (hash * list path).

Definition empty : LuTable := [].

(** [self._hashlu.get(h)] *)
Fixpoint get (t : LuTable) (h : hash) : option (list path) :=
  match t with
  | [] => None
  | (k, b) :: t' => if String.eqb k h then Some b else get t' h
  end.

(** [self._hashlu[h] = b]: in place for a present key, at the end for a
    new one. *)
Fixpoint set (t : LuTable) (h : hash) (b : list path) : LuTable :=
  match t with
  | [] => [(h, b)]
  | (k, c) :: t' =>
      if String.eqb k h then (k, b) :: t' else (k, c) :: set t' h b
  end.

(** [self._hashlu.pop(h)] / [del self._hashlu[h]] for a present key. *)
Definition pop (t : LuTable) (h : hash) : LuTable :=
  filter (fun e => negb (String.eqb (fst e) h)) t.

(** [h in self._hashlu] *)
Definition has_key (t : LuTable) (h : hash) : bool :=
  match get t h with
  | Some _ => true
  | None => false
  end.

(** [keys()] *)
Definition keys (t : LuTable) : list hash := map fst t.

(** [values()] *)
Definition values (t : LuTable) : list (list path) := map snd t.

(** The bucket of a hash, empty when the hash is no key. *)
Definition bucket (t : LuTable) (h : hash) : list path :=
  match get t h with
  | Some b => b
  | None => []
  end.

(** [__contains__] *)
Definition contains (t : LuTable) (x : hash * path) : bool :=
  if has_key t (fst x)
  then existsb (path_eqb (snd x)) (bucket t (fst x))
  else false.

(** [__iter__]: the pairs, key by key, each bucket in its order. *)
Definition items (t : LuTable) : list (hash * path) :=
  flat_map (fun e => map (pair (fst e)) (snd e)) t.

(** [__len__] *)
Definition len (t : LuTable) : nat :=
  list_sum (map (@List.length path) (values t)).

(** [add] *)
Definition add (t : LuTable) (item : hash * path) : LuTable :=
  let t1 := if negb (has_key t (fst item)) then set t (fst item) [] else t in
  set t1 (fst item) (bucket t1 (fst item) ++ [snd item]).

(** [deque.remove(x)]: drops the first occurrence, [ValueError] when there
    is none. *)
Fixpoint deque_remove (x : path) (b : list path) : option (list path) :=
  match b with
  | [] => None
  | y :: b' =>
      if path_eqb y x then Some b'
      else option_map (cons y) (deque_remove x b')
  end.

(** [discard] *)
Definition discard (t : LuTable) (x : hash * path) : result LuTable :=
  match get t (fst x) with
  | None => Raise KeyError
  | Some b =>
      match deque_remove (snd x) b with
      | None => Raise ValueError
      | Some [] => Ok (pop t (fst x))
      | Some b' => Ok (set t (fst x) b')
      end
  end.

(** [lor] *)
Definition lor (t other : LuTable) : LuTable :=
  fold_left
    (fun s kv =>
       if has_key s (fst kv)
       then if existsb (path_eqb (snd kv)) (bucket s (fst kv))
            then s
            else set s (fst kv) (bucket s (fst kv) ++ [snd kv])
       else s)
    (items other) t.

(** [ldel] *)
Definition ldel (t : LuTable) (iterable : list hash) : LuTable :=
  fold_left (fun s k => if has_key s k then pop s k else s) iterable t.

(** [__getitem__] *)
Definition getitem (t : LuTable) (key : hash) : result (list path) :=
  match get t key with
  | Some b => Ok b
  | None => Raise KeyError
  end.

(** [__setitem__] *)
Definition setitem (t : LuTable) (key : hash) (value : list path) : LuTable :=
  let t1 := if negb (has_key t key) then set t key [] else t in
  set t1 key value.

(** [__delitem__] *)
Definition delitem (t : LuTable) (key : hash) : result LuTable :=
  if has_key t key then Ok (pop t key) else Raise KeyError.

(** [lextend] *)
Definition lextend (t other : LuTable) (key : hash) : result LuTable :=
  let t1 := if negb (has_key t key) then set t key [] else t in
  b <- getitem other key ;;
  Ok (set t1 key (bucket t1 key ++ b)).

(** [MutableSet.__ior__], the mixin behind [self |= other]: every pair of
    [other] goes through [add]. *)
Definition ior (t other : LuTable) : LuTable :=
  fold_left add (items other) t.

(** [LuTable(iterable)] *)
Definition of_items (iterable : list (hash * path)) : LuTable :=
  fold_left add iterable empty.

(** Modelled from the spec: [LuTable.chain_values], which
    [Dupetable.validate] and [Dupetable.delete] call and the available
    [lutable.py] does not define; the iteration over all paths, bucket
    after bucket. *)
Definition chain_values (t : LuTable) : list path := List.concat (values t).

(** The paths that a sequence of pairs lists under one hash, in order. *)
Definition paths_of (l : list (hash * path)) (h : hash) : list path :=
  map snd (filter (fun x => String.eqb (fst x) h) l).

(** A table built by [add] alone has no empty bucket: its entry for a hash
    is the list of that hash's paths, and absent when the list is empty. *)
Definition entry (b : list path) : option (list path) :=
  match b with
  | [] => None
  | _ :: _ => Some b
  end.

(** The body of the loop of [lor]. *)
Definition lor_step (s : LuTable) (kv : hash * path) : LuTable :=
  if has_key s (fst kv)
  then if existsb (path_eqb (snd kv)) (bucket s (fst kv))
       then s
       else set s (fst kv) (bucket s (fst kv) ++ [snd kv])
  else s.

(** A table none of whose buckets is empty. *)
Definition full (t : LuTable) : Prop := Forall (fun e => snd e <> []) t.

End lutable.

(** ** dupetable.py: the partition *)

Module dupetable.
Import lutable.

(** [set(a) - set(b)] over hashes; the members are listed in the order of
    [a] (what is done with the set below does not depend on the order). *)
Definition set_diff (a b : list hash) : list hash :=
  nodup string_dec (filter (fun k => negb (existsb (String.eqb k) b)) a).

Section Partition.

(** [re.compile(pattern).search(text)], for a pattern that [re.compile]
    accepts: the regular-expression engine is a library, taken as a
    parameter. On a pattern that it rejects, [re.compile] raises [re.error]
    and neither [dd3] nor [check_and_autoselect] goes further; what follows
    is the code past the compilation of the pattern. *)
Variable re_search : string -> string -> bool.

(** The inner loop of [check_and_autoselect]:
    [for f in values: if search(f.name): discard; assert; add; break]. *)
Fixpoint autoselect_first (autoselect_pattern : string) (hsh : hash)
  (values : list path) (st : LuTable * LuTable)
  : result (LuTable * LuTable) :=
  match values with
  | [] => Ok st
  | f :: values' =>
      if re_search autoselect_pattern (name f)
      then
        let deltable := fst st in
        keeptable <- discard (snd st) (hsh, f) ;;
        b <- getitem keeptable hsh ;;
        if Nat.ltb 0 (List.length b)
        then Ok (add deltable (hsh, f), keeptable)
        else Raise AssertionError
      else autoselect_first autoselect_pattern hsh values' st
  end.

(** The path that the inner loop moves back, if any: the first one of
    the sorted values whose file name the pattern finds. *)
Definition autoselected (autoselect_pattern : string) (values : list path)
  : option path :=
  find (fun f => re_search autoselect_pattern (name f))
    (sorted path_leb values).

(** What the pass leaves under a hash [a] that it handles, [b] being the
    bucket of [a] in the delete table on entry: either nothing is moved back
    and the whole bucket is kept, or the selected path alone is in the delete
    table and the others, not none, are kept. *)
Definition outcome (autoselect_pattern : string) (a : hash) (b : list path)
  (d' k' : LuTable) : Prop :=
  match autoselected autoselect_pattern b with
  | None => get d' a = None /\ get k' a = Some b
  | Some f =>
      get d' a = Some [f] /\
      exists c b', deque_remove f b = Some (c :: b') /\
                   get k' a = Some (c :: b')
  end.

(** One run of the loop body on [a]: [outcome] for [a], every other hash
    untouched. *)
Definition handled (autoselect_pattern : string) (a : hash) (b : list path)
  (d k d' k' : LuTable) : Prop :=
  (forall h, String.eqb a h = false ->
             get d' h = get d h /\ get k' h = get k h) /\
  outcome autoselect_pattern a b d' k'.


(** The body of the outer loop of [check_and_autoselect]; the state is
    [(deltable, keeptable)]. *)
Definition autoselect_hash (autoselect_pattern : string)
  (old_deltable : LuTable) (st : LuTable * LuTable) (hsh : hash)
  : result (LuTable * LuTable) :=
  if negb (has_key (snd st) hsh)
  then
    keeptable <- lextend (snd st) (fst st) hsh ;;
    let deltable := ldel (fst st) [hsh] in
    values <- getitem old_deltable hsh ;;
    autoselect_first autoselect_pattern hsh (sorted path_leb values)
      (deltable, keeptable)
  else Ok st.

(** [check_and_autoselect]; [old_deltable] is the deep copy taken on
    entry. *)
Definition check_and_autoselect (deltable keeptable : LuTable)
  (autoselect_pattern : string) : result (LuTable * LuTable) :=
  let old_deltable := deltable in
  for_each (autoselect_hash autoselect_pattern old_deltable)
    (sorted String.leb (keys old_deltable)) (deltable, keeptable).

(** First loop of [dd3]: [(in_deldir_hashlu, outside_deldir_hashlu)]. *)
Definition split_deldir (dupes : LuTable) (deldir : path)
  : LuTable * LuTable :=
  fold_left
    (fun st x =>
       if is_relative_to (snd x) deldir
       then (add (fst st) x, snd st)
       else (fst st, add (snd st) x))
    (items dupes) (empty, empty).

Definition in_deldir_hashlu (dupes : LuTable) (deldir : path) : LuTable :=
  fst (split_deldir dupes deldir).

(** [outside_deldir_hashlu] after the [ldel] of the hashes that have no
    path under [deldir]. *)
Definition outside_deldir_hashlu (dupes : LuTable) (deldir : path)
  : LuTable :=
  let outside := snd (split_deldir dupes deldir) in
  let delitems :=
    set_diff (keys outside) (keys (in_deldir_hashlu dupes deldir)) in
  ldel outside delitems.

(** Second loop of [dd3]:
    [(match_pattern_hashlu, no_match_pattern_hashlu)]. *)
Definition split_pattern (in_deldir : LuTable) (pattern : string)
  : LuTable * LuTable :=
  fold_left
    (fun st x =>
       if re_search pattern (name (snd x))
       then (add (fst st) x, snd st)
       else (fst st, add (snd st) x))
    (items in_deldir) (empty, empty).

Definition match_pattern_hashlu (dupes : LuTable) (deldir : path)
  (pattern : string) : LuTable :=
  fst (split_pattern (in_deldir_hashlu dupes deldir) pattern).

Definition no_match_pattern_hashlu (dupes : LuTable) (deldir : path)
  (pattern : string) : LuTable :=
  snd (split_pattern (in_deldir_hashlu dupes deldir) pattern).

(** The same tables, hash by hash, as lists: the paths that the index lists
    under a hash, those of them under [deldir] and those outside, the latter
    for the hashes that [deldir] shares, and the matches and the non-matches
    among the paths under [deldir]. *)
Definition known (dupes : LuTable) (h : hash) : list path :=
  paths_of (items dupes) h.

Definition inside (dupes : LuTable) (deldir : path) (h : hash) : list path :=
  filter (fun p => is_relative_to p deldir) (known dupes h).

Definition beyond (dupes : LuTable) (deldir : path) (h : hash) : list path :=
  match inside dupes deldir h with
  | [] => []
  | _ :: _ => filter (fun p => negb (is_relative_to p deldir)) (known dupes h)
  end.

Definition hits (dupes : LuTable) (deldir : path) (pattern : string)
  (h : hash) : list path :=
  filter (fun p => re_search pattern (name p)) (inside dupes deldir h).

Definition misses (dupes : LuTable) (deldir : path) (pattern : string)
  (h : hash) : list path :=
  filter (fun p => negb (re_search pattern (name p))) (inside dupes deldir h).

(** What the flags mark for deletion and for keeping under a hash, before
    the lone local copies are dropped and before the safety pass. *)
Definition marked_delete (dupes : LuTable) (deldir : path) (pattern : string)
  (match_deletions dupes_global : bool) (h : hash) : list path :=
  if match_deletions
  then hits dupes deldir pattern h
  else misses dupes deldir pattern h ++
       (if dupes_global then beyond dupes deldir h else []).

Definition marked_keep (dupes : LuTable) (deldir : path) (pattern : string)
  (match_deletions dupes_global : bool) (h : hash) : list path :=
  if match_deletions
  then misses dupes deldir pattern h ++
       (if dupes_global then beyond dupes deldir h else [])
  else hits dupes deldir pattern h.

(** The loop of the local-only branch:
    [for key in keys_only_in_deltable:
       if len(deltable[key]) == 1: del deltable[key]]. *)
Definition drop_single (deltable : LuTable) (key : hash)
  : result LuTable :=
  b <- getitem deltable key ;;
  if Nat.eqb (List.length b) 1 then delitem deltable key else Ok deltable.

(** [(deltable, keeptable)] as [dd3] hands them to
    [check_and_autoselect]. *)
Definition select_tables (dupes : LuTable) (deldir : path)
  (pattern : string) (match_deletions dupes_global : bool)
  : result (LuTable * LuTable) :=
  let matched := match_pattern_hashlu dupes deldir pattern in
  let unmatched := no_match_pattern_hashlu dupes deldir pattern in
  let outside := outside_deldir_hashlu dupes deldir in
  if match_deletions
  then
    let deltable := matched in
    let keeptable := unmatched in
    if dupes_global
    then Ok (deltable, ior keeptable outside)
    else
      let keys_only_in_deltable :=
        set_diff (keys deltable) (keys keeptable) in
      deltable <- for_each drop_single keys_only_in_deltable deltable ;;
      Ok (deltable, keeptable)
  else
    let keeptable := matched in
    let deltable := unmatched in
    if dupes_global
    then Ok (ior deltable outside, keeptable)
    else Ok (deltable, keeptable).

(** What holds of the tables [(d0, k0)] that [dd3] hands to the safety pass,
    in each of the four modes: they are dictionaries without empty bucket,
    they share no pair, and a bucket repeats a path only if the index does. *)
Record selected (dupes d0 k0 : LuTable) : Prop := {
  sel_keys_d : NoDup (keys d0);
  sel_keys_k : NoDup (keys k0);
  sel_full_d : forall h, get d0 h <> Some [];
  sel_full_k : forall h, get k0 h <> Some [];
  sel_apart : forall h p, In p (bucket d0 h) -> In p (bucket k0 h) -> False;
  sel_nodup : forall h, NoDup (known dupes h) -> NoDup (bucket d0 h)
}.

(** [dd3]; it returns [(deltable, keeptable)]. *)
Definition dd3 (dupes : LuTable) (deldir : path) (pattern : string)
  (match_deletions dupes_global autoselect : bool)
  : result (LuTable * LuTable) :=
  st <- select_tables dupes deldir pattern match_deletions dupes_global ;;
  let autoselect_pattern := if autoselect then "." else "a^" in
  check_and_autoselect (fst st) (snd st) autoselect_pattern.

End Partition.

(** An instance of the engine on the patterns that the proofs run: ["."]
    finds any character but a newline, ["a^"] finds nothing, and a pattern
    of plain characters is found where it occurs. *)
Definition newline : ascii := "010"%char.

Definition plain_search (pattern text : string) : bool :=
  if String.eqb pattern "." then
    existsb (fun c => negb (Ascii.eqb c newline)) (list_ascii_of_string text)
  else if String.eqb pattern "a^" then false
  else match index 0 pattern text with
       | Some _ => true
       | None => false
       end.

End dupetable.


(** ** dupetable.py: validation and deletion *)

Module executor.
Import lutable.

(** The disk, as far as the program looks at it. An entry is a regular
    file, a directory, or a symbolic link, which records what following it
    reaches. The root is a directory. A path is listed as it is spelled:
    a path that goes through a link to a directory is not resolved, so the
    list is the disk exactly where no path is such a link. *)
Inductive reached : Type :=
| Nothing
| AFile
| ADirectory.

Inductive node : Type :=
| Regular
| Directory
| SymLink (to : reached).

Definition disk : Type := list (path * node).

(** [os.lstat]: the entry itself. *)
Fixpoint entry_at (fs : disk) (p : path) : option node :=
  match fs with
  | [] => None
  | (q, n) :: fs' => if path_eqb q p then Some n else entry_at fs' p
  end.

Definition lstat (fs : disk) (p : path) : option node :=
  match p with
  | [] => Some Directory
  | _ :: _ => entry_at fs p
  end.

(** [Path.exists()], [Path.is_dir()]: both follow symbolic links;
    [Path.is_symlink()] does not. *)
Definition path_exists (fs : disk) (p : path) : bool :=
  match lstat fs p with
  | Some Regular | Some Directory => true
  | Some (SymLink AFile) | Some (SymLink ADirectory) => true
  | Some (SymLink Nothing) | None => false
  end.

Definition is_dir (fs : disk) (p : path) : bool :=
  match lstat fs p with
  | Some Directory | Some (SymLink ADirectory) => true
  | _ => false
  end.

Definition is_symlink (fs : disk) (p : path) : bool :=
  match lstat fs p with
  | Some (SymLink _) => true
  | _ => false
  end.

Definition remove_entry (fs : disk) (p : path) : disk :=
  filter (fun e => negb (path_eqb (fst e) p)) fs.

Definition put_entry (fs : disk) (p : path) (n : node) : disk :=
  (p, n) :: remove_entry fs p.

(** The state that outlives an exception: the disk and the file names of the
    lookup table of the data base. *)
Record world : Type := {
  files : disk;
  lookup_rows : list path
}.

(** Computations on the world that may raise. *)
Definition io (A : Type) : Type := world -> result A * world.

Definition ret {A : Type} (a : A) : io A := fun w => (Ok a, w).

Definition raise {A : Type} (e : exn) : io A := fun w => (Raise e, w).

Definition io_bind {A B : Type} (m : io A) (k : A -> io B) : io B :=
  fun w =>
    match m w with
    | (Ok a, w') => k a w'
    | (Raise e, w') => (Raise e, w')
    end.

Notation "x <~ m ;; k" := (io_bind m (fun x => k))
  (at level 61, m at next level, right associativity).

(** A pure computation that reads the disk. *)
Definition reading {A : Type} (f : disk -> result A) : io A :=
  fun w => (f (files w), w).

Definition writing (f : disk -> disk) : io unit :=
  fun w => (Ok tt, {| files := f (files w); lookup_rows := lookup_rows w |}).

Fixpoint io_for_each {A : Type} (body : A -> io unit) (xs : list A) : io unit :=
  match xs with
  | [] => ret tt
  | x :: xs' => _ <~ body x ;; io_for_each body xs'
  end.

(** [name.rfind('.')] *)
Fixpoint rfind_dot (s : string) : option nat :=
  match s with
  | EmptyString => None
  | String c s' =>
      match rfind_dot s' with
      | Some i => Some (S i)
      | None => if Ascii.eqb c "."%char then Some 0 else None
      end
  end.

(** [(PurePath.stem, PurePath.suffix)] of a file name: the name is cut at
    its last dot, unless that dot is first or last. *)
Definition stem_suffix (nm : string) : string * string :=
  match rfind_dot nm with
  | Some i =>
      if (Nat.ltb 0 i && Nat.ltb i (String.length nm - 1))%bool
      then (substring 0 i nm, substring i (String.length nm - i) nm)
      else (nm, "")
  | None => (nm, "")
  end.

(** [Path.parent] and [Path.with_name]; the latter raises [ValueError] on a
    path without name. *)
Definition parent (p : path) : path := removelast p.

Definition with_name (p : path) (nm : string) : result path :=
  match p with
  | [] => Raise ValueError
  | _ :: _ => Ok (removelast p ++ [nm])
  end.

(** [str(numb)] *)
Definition str (numb : nat) : string :=
  NilEmpty.string_of_uint (Nat.to_uint numb).

(** The name that [rename_if_exists] tries for a number. *)
Definition candidate (file : path) (file_stem suffix : string) (numb : nat)
  : path :=
  removelast file ++
  [String.append file_stem
     (String.append "_" (String.append (str numb) suffix))].

(** The [while True] of [rename_if_exists]. The fuel counts the rounds; a
    disk of [n] entries leaves one of the first [n + 1] numbers free, so
    that [n + 1] rounds are enough ([rename_if_exists_returns] below). *)
Fixpoint rename_loop (fs : disk) (file : path) (file_stem suffix : string)
  (numb fuel : nat) : result path :=
  match fuel with
  | O => Raise OSError
  | S fuel' =>
      newPath <-
        with_name file
          (String.append file_stem
             (String.append "_" (String.append (str numb) suffix))) ;;
      if path_exists fs newPath
      then rename_loop fs file file_stem suffix (S numb) fuel'
      else Ok newPath
  end.

(** [rename_if_exists] *)
Definition rename_if_exists (fs : disk) (file : path) : result path :=
  if path_exists fs file
  then
    let numb := 1 in
    let file_stem := fst (stem_suffix (name file)) in
    rename_loop fs file file_stem (snd (stem_suffix (name file))) numb
      (S (List.length fs))
  else Ok file.

(** [Path.unlink()]: removes a file or a link; a missing path and a
    directory are errors of the system. The system may also refuse for
    reasons that the disk does not show (permissions); those refusals, of
    [unlink] as of [mkdir] and [move], are left out. *)
Definition unlink (file : path) : io unit :=
  fun w =>
    match lstat (files w) file with
    | None | Some Directory => (Raise OSError, w)
    | Some _ => writing (fun fs => remove_entry fs file) w
    end.

(** The prefixes of a path, the shortest first, the path itself last. *)
Fixpoint prefixes (p : path) : list path :=
  match p with
  | [] => []
  | c :: p' => [c] :: map (cons c) (prefixes p')
  end.

(** [Path.mkdir(parents=True)], called on a path that is no directory:
    every missing ancestor is created; an ancestor that is no directory is
    an error of the system. *)
Definition mkdir_one (dir : path) : io unit :=
  fun w =>
    if is_dir (files w) dir then (Ok tt, w)
    else
      match lstat (files w) dir with
      | Some _ => (Raise OSError, w)
      | None => writing (fun fs => put_entry fs dir Directory) w
      end.

Definition mkdir_parents (dir : path) : io unit :=
  io_for_each mkdir_one (prefixes dir).

(** [shutil.move(src, dst)] to a destination that is no directory: a
    rename. *)
Definition move (src dst : path) : io unit :=
  fun w =>
    match lstat (files w) src with
    | None => (Raise OSError, w)
    | Some n =>
        writing (fun fs => put_entry (remove_entry fs src) dst n) w
    end.

(** [move_file_to_trash]; the target is [p(str(trash) + str(file))]. *)
Definition move_file_to_trash (file trash : path) (delete : bool) : io path :=
  let target := trash ++ file in
  target <~ reading (fun fs => rename_if_exists fs target) ;;
  _ <~ (if delete
        then unlink file
        else
          _ <~ (fun w => if negb (is_dir (files w) (parent target))
                         then mkdir_parents (parent target) w
                         else (Ok tt, w)) ;;
          move file target) ;;
  ret file.

(** Modelled from the spec: [PydupeDB], whose source is not available. The
    lookup table holds one row per path; [delete_file_lookup] retires the
    row of a path, and the rows retired inside a [with PydupeDB(...) as db]
    block are written by [commit] all at once or, when the block raises, not
    at all. *)
Definition delete_file_lookup (filename : path) : io unit :=
  fun w =>
    (Ok tt,
     {| files := files w;
        lookup_rows :=
          filter (fun r => negb (path_eqb r filename)) (lookup_rows w) |}).

Definition with_db (block : io unit) : io unit :=
  fun w =>
    match block w with
    | (Ok tt, w') => (Ok tt, w')
    | (Raise e, w') =>
        (Raise e, {| files := files w'; lookup_rows := lookup_rows w |})
    end.

(** [more_itertools.chunked(iterable, n)], as a list of lists. *)
Fixpoint chunked_fuel {A : Type} (n : nat) (l : list A) (fuel : nat)
  : list (list A) :=
  match fuel with
  | O => []
  | S fuel' =>
      match l with
      | [] => []
      | _ :: _ => firstn n l :: chunked_fuel n (skipn n l) fuel'
      end
  end.

Definition chunked {A : Type} (l : list A) (n : nat) : list (list A) :=
  chunked_fuel n l (List.length l).

(** The fields of a [Dupetable] that [validate] and [delete] read. *)
Record Dupetable : Type := {
  _keeptable : LuTable;
  _deltable : LuTable;
  _deduped : bool
}.

(** The body of the second loop of [validate]. *)
Definition check_file (fs : disk) (file : path) : result unit :=
  if negb (path_exists fs file) then Raise DupeFileNotFound
  else if is_dir fs file then Raise DupeIsDirectory
  else if is_symlink fs file then Raise DupeIsSymLink
  else Ok tt.

(** The body of the first loop of [validate]. *)
Definition check_common (self : Dupetable) (key : hash) : result unit :=
  set_keep <- getitem (_keeptable self) key ;;
  set_delete <- getitem (_deltable self) key ;;
  if existsb (fun f => existsb (path_eqb f) set_delete) set_keep
  then Raise DupeNotValidated
  else Ok tt.

(** [Dupetable.validate] *)
Definition validate (self : Dupetable) (fs : disk) : result unit :=
  let common :=
    filter (has_key (_deltable self)) (keys (_keeptable self)) in
  _ <- for_each (fun _ key => check_common self key) common tt ;;
  for_each (fun _ file => check_file fs file)
    (chain_values (_keeptable self) ++ chain_values (_deltable self)) tt.

(** [Dupetable.delete]; what it prints is left out. *)
Definition delete (self : Dupetable) (trash : path) (delete : bool) : io unit :=
  if negb (Nat.ltb 0 (len (_deltable self)) || _deduped self)
  then ret tt
  else
    _ <~ reading (validate self) ;;
    let filelist_chunked := chunked (chain_values (_deltable self)) 20 in
    io_for_each
      (fun chunk =>
         with_db
           (io_for_each
              (fun delfile =>
                 _ <~ move_file_to_trash delfile trash delete ;;
                 delete_file_lookup delfile)
              chunk))
      filelist_chunked.

(** A path that one of the three tests of [validate] turns down. *)
Definition turned_down (fs : disk) (p : path) : bool :=
  (negb (path_exists fs p) || is_dir fs p || is_symlink fs p)%bool.

(** The two tables share a pair: some path is under one hash in both. *)
Definition share_pair (self : Dupetable) : Prop :=
  exists h f, In f (bucket (_keeptable self) h) /\
              In f (bucket (_deltable self) h).

(** What [validate] raises, and on which account: [DupeNotValidated]
    whenever the tables share a pair; and when they share none, the error
    of the first path, keep table first, that fails one of the three tests,
    the tests being taken in the order of the [if]/[elif] chain. *)
Definition raised_for (self : Dupetable) (fs : disk) (e : exn) : Prop :=
  (share_pair self -> e = DupeNotValidated) /\
  (~ share_pair self ->
   exists before q after,
      chain_values (_keeptable self) ++ chain_values (_deltable self)
      = before ++ q :: after /\
      (forall y, In y before -> check_file fs y = Ok tt) /\
      check_file fs q = Raise e /\
      ((e = DupeFileNotFound /\ path_exists fs q = false) \/
       (e = DupeIsDirectory /\ path_exists fs q = true /\ is_dir fs q = true) \/
       (e = DupeIsSymLink /\ path_exists fs q = true /\ is_dir fs q = false /\
        is_symlink fs q = true))).

End executor.

(** ** dupetable.py: the helper [is_relative_to], [Dupes], [Dupetable] *)

Module dupetable_rest.
Import lutable dupetable executor.

(** [PurePath.parents]: the ancestors of a path, the nearest first, the root
    last; the root has none. *)
Definition parents (p : path) : list path :=
  match p with
  | [] => []
  | _ :: _ => rev (removelast (prefixes p)) ++ [[]]
  end.

(** The function [is_relative_to(parent, testfile)] of dupetable.py (the
    name [is_relative_to] is the method of [Path] above); [major] and
    [minor] are [sys.version_info.major] and [.minor]. *)
Definition is_relative_to_compat (major minor : nat) (parent testfile : path)
  : bool :=
  if (Nat.leb 3 major && Nat.leb 9 minor)%bool
  then is_relative_to testfile parent
  else
    let cmp := map (fun x => path_eqb x parent) (parents testfile) in
    existsb (fun b => b) cmp.

(** [str(path)] *)
Definition str_path (p : path) : string :=
  match p with
  | [] => "/"
  | _ :: _ =>
      fold_right (fun c s => String.append "/" (String.append c s)) "" p
  end.

(** [collections.Counter]: a missing key counts for zero, and
    [update({key: n})] adds [n] to the count of [key]. *)
Definition Counter : Type := list (string * nat).

Fixpoint counter_get (c : Counter) (key : string) : nat :=
  match c with
  | [] => 0
  | (k, n) :: c' => if String.eqb k key then n else counter_get c' key
  end.

Fixpoint counter_update (c : Counter) (key : string) (n : nat) : Counter :=
  match c with
  | [] => [(key, n)]
  | (k, m) :: c' =>
      if String.eqb k key then (k, m + n) :: c'
      else (k, m) :: counter_update c' key n
  end.

(** [Dupes.get_dir_counter] *)
Definition get_dir_counter (dupes : LuTable) : Counter :=
  fold_left (fun dir_counter x => counter_update dir_counter
                                    (str_path (parent x)) 1)
    (chain_values dupes) [].

Section Object.
Variable re_search : string -> string -> bool.

(** [Dupetable.dedupe], on the fields that it sets. *)
Definition dedupe (dupes : LuTable) (deldir : path) (pattern : string)
  (match_deletions dupes_global autoselect : bool) : result Dupetable :=
  st <- dd3 re_search dupes deldir pattern match_deletions dupes_global
          autoselect ;;
  Ok {| _keeptable := snd st; _deltable := fst st; _deduped := true |}.

(** [Dupetable.__init__], [dupes] being what [get_dupes] has read. *)
Definition new_Dupetable (dupes : LuTable) (deldir : path) (pattern : string)
  (match_deletions dupes_global autoselect dedupe_now : bool)
  : result Dupetable :=
  if dedupe_now
  then dedupe dupes deldir pattern match_deletions dupes_global autoselect
  else Ok {| _keeptable := empty; _deltable := empty; _deduped := false |}.

End Object.

(** A regular file: what [validate] asks of every path of both tables. *)
Definition regular (fs : disk) (p : path) : Prop := lstat fs p = Some Regular.

(** What [os.lstat] tells of a path without following it: whether there is
    an entry, and of which kind. What a link reaches is left out, since it
    changes when the file that it points to goes. *)
Inductive kind : Type :=
| NoEntry
| AFileEntry
| ADirEntry
| ALinkEntry.

Definition entry_of (fs : disk) (p : path) : kind :=
  match lstat fs p with
  | None => NoEntry
  | Some Regular => AFileEntry
  | Some Directory => ADirEntry
  | Some (SymLink _) => ALinkEntry
  end.

(** A disk on which no path is a symbolic link to a directory. A path is
    listed in a [disk] as it is spelled; on such a disk no file is reached
    by a second path through a link, and the list is the disk exactly. *)
Definition linked_dir (n : node) : bool :=
  match n with
  | SymLink ADirectory => true
  | _ => false
  end.

Definition no_linked_dir (fs : disk) : bool :=
  forallb (fun e => negb (linked_dir (snd e))) fs.

(** The world once a file of the delete table is unlinked and its row
    retired. *)
Definition retired (w : world) (delfile : path) : world :=
  {| files := remove_entry (files w) delfile;
     lookup_rows :=
       filter (fun r => negb (path_eqb r delfile)) (lookup_rows w) |}.

(** A step that leaves alone every entry of the disk outside a set. *)
Definition spares (S : path -> Prop) (w w' : world) : Prop :=
  forall q, lstat (files w) q <> None -> ~ S q ->
            lstat (files w') q = lstat (files w) q.

End dupetable_rest.

(** ** data.py *)

Module data.

(** [fparms]; the type of the time stamps (Python floats) is a parameter. *)
Record fparms (float : Type) : Type := {
  filename : option string;
  hash : option string;
  size : option N;
  inode : option N;
  mtime : option float;
  ctime : option float
}.

Arguments filename {float} _.
Arguments hash {float} _.

Definition newline : ascii := "010"%char.

Definition is_digit (c : ascii) : bool :=
  (N.leb 48 (N_of_ascii c) && N.leb (N_of_ascii c) 57)%bool.

Definition is_lower_af (c : ascii) : bool :=
  (N.leb 97 (N_of_ascii c) && N.leb (N_of_ascii c) 102)%bool.

Definition is_upper_af (c : ascii) : bool :=
  (N.leb 65 (N_of_ascii c) && N.leb (N_of_ascii c) 70)%bool.

(** [[a-f0-9]] under [re.IGNORECASE]. *)
Definition is_hex (c : ascii) : bool :=
  (is_digit c || is_lower_af c || is_upper_af c)%bool.

(** [[a-f0-9]{n}] at the head of the text: what follows it. *)
Fixpoint take_hex (n : nat) (s : string) : option string :=
  match n with
  | O => Some s
  | S n' =>
      match s with
      | EmptyString => None
      | String c s' => if is_hex c then take_hex n' s' else None
      end
  end.

(** [$] without [re.MULTILINE]: at the end of the text, or before a newline
    that ends the text. *)
Definition at_end (s : string) : bool :=
  match s with
  | EmptyString => true
  | String c EmptyString => Ascii.eqb c newline
  | _ => false
  end.

(** [.+$]: one character or more, none a newline, up to a place where [$]
    holds. *)
Fixpoint dot_plus_end (s : string) : bool :=
  match s with
  | EmptyString => false
  | String c s' =>
      if Ascii.eqb c newline then false else (at_end s' || dot_plus_end s')%bool
  end.

(** [(:.+)?$] *)
Definition suffix_end (s : string) : bool :=
  (at_end s ||
   match s with
   | String c s' => Ascii.eqb c ":"%char && dot_plus_end s'
   | EmptyString => false
   end)%bool.

(** [valid_sha256.match(text)], for
    [valid_sha256 = re.compile(r"^[a-f0-9]{64}(:.+)?$", re.IGNORECASE)]:
    whether there is a match. *)
Definition valid_sha256_match (text : string) : bool :=
  match take_hex 64 text with
  | Some rest => suffix_end rest
  | None => false
  end.

(** The truth value of [fp.hash]: [None] and the empty string are false. *)
Definition truthy (h : option string) : bool :=
  match h with
  | None => false
  | Some EmptyString => false
  | Some _ => true
  end.

(** [checkHash] *)
Definition checkHash {float : Type} (fp : fparms float) : result unit :=
  if (truthy (hash fp) &&
      negb (match hash fp with
            | Some h => valid_sha256_match h
            | None => false
            end))%bool
  then Raise ValueError
  else Ok tt.

(** The specification's wording of a digest: 64 characters, each a digit or
    a lower-case letter from a to f. *)
Definition spec_lowercase_hex_digest (s : string) : bool :=
  (Nat.eqb (String.length s) 64 &&
   forallb (fun c => is_digit c || is_lower_af c) (list_ascii_of_string s))%bool.

(** A digest in upper case. *)
Definition upper_digest : string :=
  "AAAAAAAAAAAAAAAAAAAAAAAAAAAAAAAAAAAAAAAAAAAAAAAAAAAAAAAAAAAAAAAA".

(** What [checkHash] lets through, spelled out: no hash, the empty hash, or
    64 hexadecimal digits of either case followed by nothing, or by a colon
    and a non-empty text without newline, and then possibly one newline. *)
Definition no_newline (s : string) : Prop :=
  Forall (fun c => c <> newline) (list_ascii_of_string s).

Definition accepted_suffix (s : string) : Prop :=
  s = "" \/ s = String newline "" \/
  exists u, u <> "" /\ no_newline u /\
            (s = String ":" u \/
             s = String ":" (String.append u (String newline ""))).

Definition accepted (h : option string) : Prop :=
  h = None \/ h = Some "" \/
  exists digest suffix,
    h = Some (String.append digest suffix) /\
    String.length digest = 64 /\
    Forall (fun c => is_hex c = true) (list_ascii_of_string digest) /\
    accepted_suffix suffix.

End data.

(** * Properties *)

(** ** Results *)

Lemma bind_Ok_inv {A B : Type} (r : result A) (k : A -> result B) (b : B) :
  bind r k = Ok b -> exists a, r = Ok a /\ k a = Ok b.
Proof.
  destruct r as [a | e]; simpl; intros Hb; [eauto | discriminate].
Qed.

(** ** Sorting *)

Section SortedFacts.
Context {A : Type} (leb : A -> A -> bool).

Lemma insert_sorted_perm (x : A) (l : list A) :
  Permutation (insert_sorted leb x l) (x :: l).
Proof.
  induction l as [| y l IH]; simpl.
  - apply Permutation_refl.
  - destruct (leb x y).
    + apply Permutation_refl.
    + eapply perm_trans; [apply perm_skip, IH | apply perm_swap].
Qed.

Lemma sorted_perm (l : list A) : Permutation (sorted leb l) l.
Proof.
  induction l as [| x l IH]; simpl.
  - constructor.
  - eapply perm_trans; [apply insert_sorted_perm | apply perm_skip, IH].
Qed.

Lemma sorted_In (l : list A) (x : A) : In x (sorted leb l) <-> In x l.
Proof.
  split; apply Permutation_in;
    [apply sorted_perm | apply Permutation_sym, sorted_perm].
Qed.

Lemma sorted_NoDup (l : list A) : NoDup l -> NoDup (sorted leb l).
Proof.
  intros Hl. eapply Permutation_NoDup; [| exact Hl].
  apply Permutation_sym, sorted_perm.
Qed.


Hypothesis leb_total : forall x y, leb x y = true \/ leb y x = true.


End SortedFacts.

(** ** The order of paths *)

Lemma ascii_compare_Eq (a b : ascii) : Ascii.compare a b = Eq <-> a = b.
Proof.
  split; [apply Ascii.compare_eq_iff |].
  intros ->. unfold Ascii.compare. apply N.compare_refl.
Qed.


Lemma string_compare_chars (s1 s2 : string) :
  String.compare s1 s2 =
  list_compare Ascii.compare (list_ascii_of_string s1) (list_ascii_of_string s2).
Proof.
  revert s2. induction s1 as [| a s1 IH]; intros [| b s2]; simpl; try reflexivity.
  rewrite IH. reflexivity.
Qed.

Lemma string_compare_Eq (s1 s2 : string) : String.compare s1 s2 = Eq <-> s1 = s2.
Proof.
  split; [apply String.compare_eq_iff |].
  intros ->. rewrite string_compare_chars.
  apply (list_compare_refl _ ascii_compare_Eq). reflexivity.
Qed.


Lemma path_compare_antisym (p q : path) :
  list_compare String.compare q p = CompOpp (list_compare String.compare p q).
Proof.
  apply (list_compare_antisym _ string_compare_Eq).
  intros x y. apply String.compare_antisym.
Qed.




Lemma path_leb_antisym (p q : path) :
  path_leb p q = true -> path_leb q p = true -> p = q.
Proof.
  unfold path_leb. rewrite (path_compare_antisym p q).
  destruct (list_compare String.compare p q) eqn:Epq; simpl; try discriminate.
  intros _ _. apply (list_compare_refl _ string_compare_Eq), Epq.
Qed.


(** ** The table as a finite map *)

Module lutable_facts.
Import lutable.

Lemma get_set (t : LuTable) (h h' : hash) (b : list path) :
  get (set t h b) h' = if String.eqb h h' then Some b else get t h'.
Proof.
  induction t as [| [k c] t IH]; simpl.
  - destruct (String.eqb_spec h h'); reflexivity.
  - destruct (String.eqb_spec k h) as [-> | Hkh]; simpl.
    + destruct (String.eqb_spec h h'); reflexivity.
    + rewrite IH. destruct (String.eqb_spec k h') as [-> | Hkh'].
      * destruct (String.eqb_spec h h'); [congruence | reflexivity].
      * reflexivity.
Qed.

Lemma get_pop (t : LuTable) (h h' : hash) :
  get (pop t h) h' = if String.eqb h h' then None else get t h'.
Proof.
  unfold pop. induction t as [| [k c] t IH]; simpl.
  - destruct (String.eqb h h'); reflexivity.
  - destruct (String.eqb_spec k h) as [-> | Hkh]; simpl.
    + rewrite IH. destruct (String.eqb_spec h h'); reflexivity.
    + rewrite IH. destruct (String.eqb_spec k h') as [-> | Hkh'].
      * destruct (String.eqb_spec h h'); [congruence | reflexivity].
      * reflexivity.
Qed.

Lemma has_key_In (t : LuTable) (h : hash) :
  has_key t h = true <-> In h (keys t).
Proof.
  unfold has_key, keys. induction t as [| [k c] t IH]; simpl.
  - split; [discriminate | tauto].
  - destruct (String.eqb_spec k h) as [-> | Hkh].
    + split; auto.
    + rewrite IH. split; [auto | intros [Hk | Hin]; [congruence | exact Hin]].
Qed.

Lemma has_key_false (t : LuTable) (h : hash) :
  has_key t h = false <-> ~ In h (keys t).
Proof.
  rewrite <- has_key_In. destruct (has_key t h); split; congruence.
Qed.

Lemma has_key_get (t : LuTable) (h : hash) :
  has_key t h = false <-> get t h = None.
Proof.
  unfold has_key. destruct (get t h); split; congruence.
Qed.

Lemma bucket_get (t : LuTable) (h : hash) (b : list path) :
  get t h = Some b -> bucket t h = b.
Proof. unfold bucket. intros ->. reflexivity. Qed.

Lemma keys_set (t : LuTable) (h : hash) (b : list path) :
  keys (set t h b) = if has_key t h then keys t else keys t ++ [h].
Proof.
  unfold keys, has_key. induction t as [| [k c] t IH]; simpl.
  - reflexivity.
  - destruct (String.eqb_spec k h) as [-> | Hkh]; simpl.
    + reflexivity.
    + rewrite IH. destruct (get t h); reflexivity.
Qed.

Lemma keys_pop (t : LuTable) (h : hash) :
  keys (pop t h) = filter (fun k => negb (String.eqb k h)) (keys t).
Proof.
  unfold keys, pop. induction t as [| [k c] t IH]; simpl.
  - reflexivity.
  - destruct (String.eqb k h); simpl; rewrite IH; reflexivity.
Qed.

Lemma NoDup_keys_set (t : LuTable) (h : hash) (b : list path) :
  NoDup (keys t) -> NoDup (keys (set t h b)).
Proof.
  intros Ht. rewrite keys_set. destruct (has_key t h) eqn:Hh.
  - exact Ht.
  - apply has_key_false in Hh.
    apply NoDup_app; [exact Ht | repeat constructor; simpl; tauto |].
    intros x Hx [<- | []]. tauto.
Qed.

Lemma NoDup_keys_pop (t : LuTable) (h : hash) :
  NoDup (keys t) -> NoDup (keys (pop t h)).
Proof. intros Ht. rewrite keys_pop. apply NoDup_filter, Ht. Qed.

Lemma bucket_no_key (t : LuTable) (h : hash) :
  has_key t h = false -> bucket t h = [].
Proof.
  intros Hk. apply has_key_get in Hk. unfold bucket. rewrite Hk. reflexivity.
Qed.

Lemma get_add (t : LuTable) (h : hash) (p : path) (h' : hash) :
  get (add t (h, p)) h' =
  if String.eqb h h' then Some (bucket t h ++ [p]) else get t h'.
Proof.
  unfold add; simpl. destruct (has_key t h) eqn:Hk; simpl.
  - rewrite get_set. reflexivity.
  - rewrite !get_set. unfold bucket at 1.
    rewrite get_set, String.eqb_refl, (bucket_no_key _ _ Hk).
    destruct (String.eqb h h'); reflexivity.
Qed.

Lemma NoDup_keys_add (t : LuTable) (x : hash * path) :
  NoDup (keys t) -> NoDup (keys (add t x)).
Proof.
  intros Ht. unfold add. apply NoDup_keys_set.
  destruct (negb (has_key t (fst x))); [apply NoDup_keys_set |]; exact Ht.
Qed.

Lemma paths_of_app (l1 l2 : list (hash * path)) (h : hash) :
  paths_of (l1 ++ l2) h = paths_of l1 h ++ paths_of l2 h.
Proof. unfold paths_of. rewrite filter_app, map_app. reflexivity. Qed.

Lemma paths_of_In (l : list (hash * path)) (h : hash) (p : path) :
  In p (paths_of l h) <-> In (h, p) l.
Proof.
  unfold paths_of. rewrite in_map_iff. split.
  - intros [[k q] [Hq Hin]]. simpl in Hq. subst q.
    apply filter_In in Hin. destruct Hin as [Hin Hk]. simpl in Hk.
    apply String.eqb_eq in Hk. subst k. exact Hin.
  - intros Hin. exists (h, p). split; [reflexivity |].
    apply filter_In. split; [exact Hin | apply String.eqb_refl].
Qed.

(** A filter on the path alone commutes with the selection of a hash. *)
Lemma paths_of_filter (q : path -> bool) (l : list (hash * path)) (h : hash) :
  paths_of (filter (fun x => q (snd x)) l) h = filter q (paths_of l h).
Proof.
  unfold paths_of. induction l as [| [k p] l IH]; simpl.
  - reflexivity.
  - destruct (q p) eqn:Hq; simpl; destruct (String.eqb k h); simpl;
      rewrite ?Hq, IH; reflexivity.
Qed.

Lemma NoDup_paths_of (l : list (hash * path)) (h : hash) :
  NoDup l -> NoDup (paths_of l h).
Proof.
  unfold paths_of. induction l as [| [k p] l IH]; simpl; intros Hl.
  - constructor.
  - apply NoDup_cons_iff in Hl. destruct Hl as [Hn Hl].
    destruct (String.eqb_spec k h) as [-> | Hkh]; simpl; [| auto].
    constructor; [| auto].
    intros Hin. apply Hn. apply (paths_of_In l h p). exact Hin.
Qed.

Lemma paths_of_items (t : LuTable) (h : hash) :
  NoDup (keys t) -> paths_of (items t) h = bucket t h.
Proof.
  unfold items, bucket. induction t as [| [k c] t IH]; simpl; intros Ht.
  - reflexivity.
  - apply NoDup_cons_iff in Ht. destruct Ht as [Hn Ht].
    rewrite paths_of_app, (IH Ht).
    destruct (String.eqb_spec k h) as [-> | Hkh].
    + apply (has_key_false t h) in Hn. apply has_key_get in Hn. rewrite Hn.
      rewrite app_nil_r. unfold paths_of.
      induction c as [| p c IHc]; simpl; [reflexivity |].
      rewrite String.eqb_refl. simpl. f_equal. exact IHc.
    + replace (paths_of (map (pair k) c) h) with (@nil path); [reflexivity |].
      unfold paths_of. induction c as [| p c IHc]; simpl; [reflexivity |].
      apply String.eqb_neq in Hkh. rewrite Hkh. exact IHc.
Qed.

(** What a run of [add] leaves under each hash. *)
Lemma get_fold_add (l : list (hash * path)) (t : LuTable) (h : hash) :
  get (fold_left add l t) h =
  match get t h with
  | Some b => Some (b ++ paths_of l h)
  | None => entry (paths_of l h)
  end.
Proof.
  revert t. induction l as [| [k p] l IH]; intros t; simpl.
  - destruct (get t h); [rewrite app_nil_r |]; reflexivity.
  - rewrite IH, get_add. unfold paths_of; simpl.
    destruct (String.eqb_spec k h) as [-> | Hkh]; simpl.
    + unfold bucket. destruct (get t h); simpl.
      * rewrite <- app_assoc. reflexivity.
      * reflexivity.
    + reflexivity.
Qed.

Lemma NoDup_keys_fold_add (l : list (hash * path)) (t : LuTable) :
  NoDup (keys t) -> NoDup (keys (fold_left add l t)).
Proof.
  revert t. induction l as [| x l IH]; intros t Ht; simpl.
  - exact Ht.
  - apply IH, NoDup_keys_add, Ht.
Qed.

Lemma get_of_items (l : list (hash * path)) (h : hash) :
  get (of_items l) h = entry (paths_of l h).
Proof. unfold of_items. rewrite get_fold_add. reflexivity. Qed.

Lemma get_ldel (ks : list hash) (t : LuTable) (h : hash) :
  get (ldel t ks) h = if existsb (String.eqb h) ks then None else get t h.
Proof.
  unfold ldel. revert t. induction ks as [| k ks IH]; intros t; simpl.
  - reflexivity.
  - rewrite IH. destruct (existsb (String.eqb h) ks).
    + rewrite orb_true_r. reflexivity.
    + rewrite orb_false_r, (String.eqb_sym h k).
      destruct (has_key t k) eqn:Hk.
      * rewrite get_pop. reflexivity.
      * destruct (String.eqb_spec k h) as [-> | Hkh]; [| reflexivity].
        apply has_key_get, Hk.
Qed.

Lemma NoDup_keys_ldel (ks : list hash) (t : LuTable) :
  NoDup (keys t) -> NoDup (keys (ldel t ks)).
Proof.
  unfold ldel. revert t. induction ks as [| k ks IH]; intros t Ht; simpl.
  - exact Ht.
  - apply IH. destruct (has_key t k); [apply NoDup_keys_pop |]; exact Ht.
Qed.

Lemma existsb_path_eqb (p : path) (b : list path) :
  existsb (path_eqb p) b = true <-> In p b.
Proof.
  rewrite existsb_exists. unfold path_eqb. split.
  - intros [q [Hin Hq]]. destruct (path_eq_dec p q); [subst; exact Hin | discriminate].
  - intros Hin. exists p. split; [exact Hin |].
    destruct (path_eq_dec p p); [reflexivity | contradiction].
Qed.

Lemma contains_In (t : LuTable) (h : hash) (p : path) :
  contains t (h, p) = true <-> In p (bucket t h).
Proof.
  unfold contains; simpl. destruct (has_key t h) eqn:Hk.
  - apply existsb_path_eqb.
  - rewrite (bucket_no_key _ _ Hk). simpl. split; [discriminate | tauto].
Qed.

Lemma deque_remove_In (x : path) (b : list path) :
  In x b -> exists b', deque_remove x b = Some b'.
Proof.
  induction b as [| y b IH]; simpl; intros Hin; [contradiction |].
  unfold path_eqb. destruct (path_eq_dec y x) as [-> | Hyx]; [eauto |].
  destruct Hin as [Hy | Hin]; [contradiction |].
  destruct (IH Hin) as [b' ->]. simpl. eauto.
Qed.

Lemma deque_remove_perm (x : path) (b b' : list path) :
  deque_remove x b = Some b' -> Permutation b (x :: b').
Proof.
  revert b'. induction b as [| y b IH]; simpl; intros b' Hb; [discriminate |].
  unfold path_eqb in Hb. destruct (path_eq_dec y x) as [-> | Hyx].
  - injection Hb as <-. apply Permutation_refl.
  - destruct (deque_remove x b) as [c |]; simpl in Hb; [| discriminate].
    injection Hb as <-.
    eapply perm_trans; [apply perm_skip, (IH c eq_refl) | apply perm_swap].
Qed.

Lemma deque_remove_NoDup (x : path) (b b' : list path) :
  NoDup b -> deque_remove x b = Some b' -> ~ In x b'.
Proof.
  intros Hb Hr. apply deque_remove_perm in Hr.
  apply (Permutation_NoDup Hr) in Hb. apply NoDup_cons_iff in Hb. tauto.
Qed.

Lemma deque_remove_length (x : path) (b b' : list path) :
  deque_remove x b = Some b' -> List.length b = S (List.length b').
Proof.
  intros Hr. apply deque_remove_perm in Hr.
  apply Permutation_length in Hr. exact Hr.
Qed.

End lutable_facts.

(** ** The safety pass *)

Module autoselect_facts.
Import lutable lutable_facts dupetable.

Lemma get_discard (t : LuTable) (h : hash) (p : path) (b b' : list path) :
  get t h = Some b ->
  deque_remove p b = Some b' ->
  exists t',
    discard t (h, p) = Ok t' /\
    (forall h', get t' h' = if String.eqb h h' then entry b' else get t h') /\
    (NoDup (keys t) -> NoDup (keys t')).
Proof.
  intros Hg Hr. unfold discard; simpl. rewrite Hg, Hr. destruct b' as [| c b'].
  - exists (pop t h). split; [reflexivity |]. split.
    + intros h'. apply get_pop.
    + apply NoDup_keys_pop.
  - exists (set t h (c :: b')). split; [reflexivity |]. split.
    + intros h'. apply get_set.
    + apply NoDup_keys_set.
Qed.

Section Pass.
Variable re_search : string -> string -> bool.
Variable pat : string.
Variable old : LuTable.

Lemma autoselect_first_find (h : hash) (vs : list path)
  (st : LuTable * LuTable) :
  autoselect_first re_search pat h vs st =
  match find (fun f => re_search pat (name f)) vs with
  | None => Ok st
  | Some f =>
      keeptable <- discard (snd st) (h, f) ;;
      b <- getitem keeptable h ;;
      if Nat.ltb 0 (List.length b)
      then Ok (add (fst st) (h, f), keeptable)
      else Raise AssertionError
  end.
Proof.
  induction vs as [| f vs IH]; simpl.
  - reflexivity.
  - destruct (re_search pat (name f)); [reflexivity | exact IH].
Qed.

Lemma step_skip (d k : LuTable) (a : hash) :
  has_key k a = true -> autoselect_hash re_search pat old (d, k) a = Ok (d, k).
Proof. intros Hk. unfold autoselect_hash; simpl. rewrite Hk. reflexivity. Qed.

Lemma autoselected_In (b : list path) (f : path) :
  autoselected re_search pat b = Some f -> In f b.
Proof.
  unfold autoselected. intros Hf. apply find_some in Hf.
  apply (sorted_In path_leb b f), Hf.
Qed.

Lemma step_handled (d k : LuTable) (a : hash) (b : list path) :
  has_key k a = false ->
  get d a = Some b ->
  get old a = Some b ->
  (forall f, autoselected re_search pat b = Some f ->
             2 <= List.length b) ->
  exists d' k',
    autoselect_hash re_search pat old (d, k) a = Ok (d', k') /\
    handled re_search pat a b d k d' k' /\
    (NoDup (keys d) -> NoDup (keys d')) /\
    (NoDup (keys k) -> NoDup (keys k')).
Proof.
  intros Hk Hd Hold Hlen.
  unfold autoselect_hash, lextend, getitem; simpl.
  rewrite Hk, Hd, Hold; simpl.
  rewrite autoselect_first_find; simpl.
  assert (Hb1 : bucket (set k a []) a = []).
  { unfold bucket. rewrite get_set, String.eqb_refl. reflexivity. }
  rewrite Hb1; simpl.
  assert (Hd1 : has_key d a = true).
  { unfold has_key. rewrite Hd. reflexivity. }
  rewrite Hd1.
  set (k1 := set (set k a []) a b).
  assert (Hk1 : forall h, get k1 h = if String.eqb a h then Some b else get k h).
  { intros h. unfold k1. rewrite !get_set.
    destruct (String.eqb a h); reflexivity. }
  assert (Hk1n : NoDup (keys k) -> NoDup (keys k1)).
  { intros Hn. unfold k1. apply NoDup_keys_set, NoDup_keys_set, Hn. }
  unfold handled, outcome, autoselected in *.
  destruct (find (fun f => re_search pat (name f)) (sorted path_leb b))
    as [f |] eqn:Hfind.
  - assert (Hin : In f b).
    { apply find_some in Hfind. apply (sorted_In path_leb b f), Hfind. }
    destruct (deque_remove_In f b Hin) as [b' Hr].
    pose proof (deque_remove_length _ _ _ Hr) as Hl.
    specialize (Hlen f eq_refl).
    destruct b' as [| c b']; [simpl in Hl; lia |].
    destruct (get_discard k1 a f b (c :: b')) as [k2 [Hdis [Hk2 Hk2n]]];
      [rewrite Hk1, String.eqb_refl; reflexivity | exact Hr |].
    rewrite Hdis; simpl. unfold getitem.
    rewrite Hk2, String.eqb_refl; simpl.
    exists (add (pop d a) (a, f)), k2.
    split; [reflexivity |]. split; [split |].
    + intros h Hah. rewrite get_add, Hah, get_pop, Hah, Hk2, Hah, Hk1, Hah.
      split; reflexivity.
    + split.
      * rewrite get_add, String.eqb_refl. unfold bucket.
        rewrite get_pop, String.eqb_refl. reflexivity.
      * exists c, b'. split; [exact Hr |].
        rewrite Hk2, String.eqb_refl. reflexivity.
    + split.
      * intros Hn. apply NoDup_keys_add, NoDup_keys_pop, Hn.
      * intros Hn. apply Hk2n, Hk1n, Hn.
  - exists (pop d a), k1.
    split; [reflexivity |]. split; [split |].
    + intros h Hah. rewrite get_pop, Hah, Hk1, Hah. split; reflexivity.
    + rewrite get_pop, Hk1, String.eqb_refl. split; reflexivity.
    + split; [apply NoDup_keys_pop | exact Hk1n].
Qed.

(** When the body returns at all, the move did not empty the bucket. *)
Lemma step_Ok_length (d k d' k' : LuTable) (a : hash) (b : list path) :
  has_key k a = false ->
  get d a = Some b ->
  get old a = Some b ->
  autoselect_hash re_search pat old (d, k) a = Ok (d', k') ->
  forall f, autoselected re_search pat b = Some f -> 2 <= List.length b.
Proof.
  intros Hk Hd Hold Hstep f Hf.
  unfold autoselect_hash, lextend, getitem in Hstep; simpl in Hstep.
  rewrite Hk, Hd, Hold in Hstep; simpl in Hstep.
  rewrite autoselect_first_find in Hstep; simpl in Hstep.
  unfold autoselected in Hf. rewrite Hf in Hstep.
  assert (Hb1 : bucket (set k a []) a = []).
  { unfold bucket. rewrite get_set, String.eqb_refl. reflexivity. }
  rewrite Hb1 in Hstep; simpl in Hstep.
  assert (Hin : In f b).
  { apply find_some in Hf. apply (sorted_In path_leb b f), Hf. }
  destruct (deque_remove_In f b Hin) as [b' Hr].
  pose proof (deque_remove_length _ _ _ Hr) as Hl.
  destruct b' as [| c b']; [| simpl in Hl; lia].
  exfalso.
  unfold discard in Hstep; simpl in Hstep.
  rewrite !get_set, String.eqb_refl, Hr in Hstep; simpl in Hstep.
  unfold getitem in Hstep. rewrite get_pop, String.eqb_refl in Hstep.
  simpl in Hstep. discriminate.
Qed.

(** The loop over the sorted keys. [ks] are the hashes still to visit; on
    them the delete table is as it was on entry. *)
Lemma pass_loop_sound (ks : list hash) :
  forall d k d' k',
    NoDup ks ->
    (forall h, In h ks -> get d h = get old h /\ get old h <> None) ->
    for_each (autoselect_hash re_search pat old) ks (d, k) = Ok (d', k') ->
    (forall h,
        (In h ks -> has_key k h = false ->
         outcome re_search pat h (bucket old h) d' k') /\
        (~ (In h ks /\ has_key k h = false) ->
         get d' h = get d h /\ get k' h = get k h)) /\
    (NoDup (keys d) -> NoDup (keys d')) /\
    (NoDup (keys k) -> NoDup (keys k')).
Proof.
  induction ks as [| a ks IH]; intros d k d' k' Hnd Hold Hrun.
  - simpl in Hrun. injection Hrun as <- <-.
    split; [| split; auto].
    intros h. split; [intros [] | auto].
  - simpl in Hrun. apply bind_Ok_inv in Hrun.
    destruct Hrun as [[d1 k1] [Hstep Hrest]].
    apply NoDup_cons_iff in Hnd. destruct Hnd as [Hna Hnd].
    destruct (has_key k a) eqn:Hka.
    + rewrite (step_skip d k a Hka) in Hstep. injection Hstep as <- <-.
      destruct (IH d k d' k' Hnd) as [Hget Hkeys];
        [intros h Hh; apply Hold; right; exact Hh | exact Hrest |].
      split; [| exact Hkeys].
      intros h. destruct (Hget h) as [Hin Hout]. split.
      * intros [<- | Hh] Hkh; [congruence | auto].
      * intros Hno. apply Hout. intros [Hh Hkh]. apply Hno. split; [right |]; auto.
    + destruct (Hold a (or_introl eq_refl)) as [Hda Hsome].
      destruct (get old a) as [b |] eqn:Hb; [| congruence]. clear Hsome.
      pose proof (step_Ok_length d k d1 k1 a b Hka Hda Hb Hstep) as Hlen.
      destruct (step_handled d k a b Hka Hda Hb Hlen)
        as [d1' [k1' [Hstep' [[Hoth Hout] [Hnd1 Hnk1]]]]].
      rewrite Hstep in Hstep'. injection Hstep' as <- <-.
      destruct (IH d1 k1 d' k' Hnd) as [Hget [Hnd' Hnk']];
        [| exact Hrest |].
      { intros h Hh. assert (Hah : String.eqb a h = false).
        { apply String.eqb_neq. intros ->. contradiction. }
        rewrite (proj1 (Hoth h Hah)). apply Hold. right. exact Hh. }
      split; [| split; auto].
      intros h. destruct (Hget h) as [Hin Hrem].
      destruct (String.eqb_spec a h) as [<- | Hah].
      * destruct Hrem as [Hd' Hk']; [tauto |].
        split; [| intros Hno; exfalso; apply Hno; split; [left |]; auto].
        intros _ _. rewrite (bucket_get _ _ _ Hb).
        unfold outcome in *. rewrite Hd', Hk'. exact Hout.
      * apply String.eqb_neq in Hah. destruct (Hoth h Hah) as [Hd1 Hk1].
        assert (Hkk : has_key k1 h = has_key k h).
        { unfold has_key. rewrite Hk1. reflexivity. }
        rewrite Hkk, Hd1, Hk1 in *. apply String.eqb_neq in Hah. split.
        -- intros [-> | Hh] Hkh; [congruence | auto].
        -- intros Hno. apply Hrem. intros [Hh Hkh]. apply Hno.
           split; [right |]; auto.
Qed.

Lemma pass_loop_total (ks : list hash) :
  forall d k,
    NoDup ks ->
    (forall h, In h ks -> get d h = get old h /\ get old h <> None) ->
    (forall h, In h ks -> has_key k h = false ->
               forall f, autoselected re_search pat (bucket old h) = Some f ->
                         2 <= List.length (bucket old h)) ->
    exists d' k',
      for_each (autoselect_hash re_search pat old) ks (d, k) = Ok (d', k').
Proof.
  induction ks as [| a ks IH]; intros d k Hnd Hold Hlen.
  - simpl. eauto.
  - simpl. apply NoDup_cons_iff in Hnd. destruct Hnd as [Hna Hnd].
    destruct (has_key k a) eqn:Hka.
    + rewrite (step_skip d k a Hka); simpl. apply IH; auto.
      * intros h Hh. apply Hold. right. exact Hh.
      * intros h Hh. apply Hlen. right. exact Hh.
    + destruct (Hold a (or_introl eq_refl)) as [Hda Hsome].
      destruct (get old a) as [b |] eqn:Hb; [| congruence]. clear Hsome.
      assert (Hlb : forall f, autoselected re_search pat b = Some f ->
                              2 <= List.length b).
      { pose proof (Hlen a (or_introl eq_refl) Hka) as Hl.
        rewrite (bucket_get _ _ _ Hb) in Hl. exact Hl. }
      destruct (step_handled d k a b Hka Hda Hb Hlb)
        as [d1 [k1 [Hstep [[Hoth _] _]]]].
      rewrite Hstep; simpl. apply IH; [exact Hnd | |].
      * intros h Hh. assert (Hah : String.eqb a h = false).
        { apply String.eqb_neq. intros ->. contradiction. }
        rewrite (proj1 (Hoth h Hah)). apply Hold. right. exact Hh.
      * intros h Hh Hkh. apply Hlen; [right; exact Hh |].
        assert (Hah : String.eqb a h = false).
        { apply String.eqb_neq. intros ->. contradiction. }
        unfold has_key in *. rewrite <- (proj2 (Hoth h Hah)). exact Hkh.
Qed.


End Pass.
End autoselect_facts.

(** ** [check_and_autoselect] and the tables that [dd3] builds *)

Module partition_facts.
Import lutable lutable_facts dupetable autoselect_facts.

Section Engine.
Variable re_search : string -> string -> bool.

Lemma has_key_Some (t : LuTable) (h : hash) :
  has_key t h = true -> get t h = Some (bucket t h) /\ get t h <> None.
Proof.
  unfold has_key, bucket. destruct (get t h); [split; congruence | discriminate].
Qed.

Lemma check_and_autoselect_sound (d k d' k' : LuTable) (pat : string) :
  NoDup (keys d) ->
  check_and_autoselect re_search d k pat = Ok (d', k') ->
  (forall h,
      (has_key d h = true -> has_key k h = false ->
       outcome re_search pat h (bucket d h) d' k') /\
      (~ (has_key d h = true /\ has_key k h = false) ->
       get d' h = get d h /\ get k' h = get k h)) /\
  (NoDup (keys d')) /\
  (NoDup (keys k) -> NoDup (keys k')).
Proof.
  intros Hnd Hrun. unfold check_and_autoselect in Hrun.
  destruct (pass_loop_sound re_search pat d (sorted String.leb (keys d))
              d k d' k') as [Hget [Hd' Hk']].
  - apply sorted_NoDup, Hnd.
  - intros h Hh. split; [reflexivity |].
    apply sorted_In, has_key_In, has_key_Some in Hh. apply Hh.
  - exact Hrun.
  - split; [| auto]. intros h. destruct (Hget h) as [Hin Hout]. split.
    + intros Hdh Hkh. apply Hin; [| exact Hkh].
      apply sorted_In, has_key_In, Hdh.
    + intros Hno. apply Hout. intros [Hh Hkh]. apply Hno. split; [| exact Hkh].
      apply has_key_In. apply (sorted_In String.leb (keys d) h). exact Hh.
Qed.

Lemma check_and_autoselect_total (d k : LuTable) (pat : string) :
  NoDup (keys d) ->
  (forall h, has_key d h = true -> has_key k h = false ->
             forall f, autoselected re_search pat (bucket d h) = Some f ->
                       2 <= List.length (bucket d h)) ->
  exists d' k', check_and_autoselect re_search d k pat = Ok (d', k').
Proof.
  intros Hnd Hlen. unfold check_and_autoselect.
  apply pass_loop_total.
  - apply sorted_NoDup, Hnd.
  - intros h Hh. split; [reflexivity |].
    apply sorted_In, has_key_In, has_key_Some in Hh. apply Hh.
  - intros h Hh. apply Hlen. apply has_key_In.
    apply (sorted_In String.leb (keys d) h). exact Hh.
Qed.

(** The two loops of [dd3] that distribute pairs over two tables. *)
Lemma fold_split (q : hash * path -> bool) (l : list (hash * path))
  (i o : LuTable) :
  fold_left
    (fun st x => if q x then (add (fst st) x, snd st)
                 else (fst st, add (snd st) x))
    l (i, o) =
  (fold_left add (filter q l) i,
   fold_left add (filter (fun x => negb (q x)) l) o).
Proof.
  revert i o. induction l as [| x l IH]; intros i o; simpl.
  - reflexivity.
  - destruct (q x); simpl; apply IH.
Qed.

Lemma In_set_diff (a b : list hash) (h : hash) :
  In h (set_diff a b) <-> In h a /\ ~ In h b.
Proof.
  unfold set_diff. rewrite nodup_In, filter_In, negb_true_iff.
  split; intros [Ha Hb]; (split; [exact Ha |]).
  - intros Hin. assert (Hex : existsb (String.eqb h) b = true).
    { apply existsb_exists. exists h. split; [exact Hin | apply String.eqb_refl]. }
    congruence.
  - destruct (existsb (String.eqb h) b) eqn:Hex; [| reflexivity].
    apply existsb_exists in Hex. destruct Hex as [x [Hx Hhx]].
    apply String.eqb_eq in Hhx. subst x. contradiction.
Qed.

Lemma NoDup_set_diff (a b : list hash) : NoDup (set_diff a b).
Proof. apply NoDup_nodup. Qed.

Lemma existsb_eqb_In (h : hash) (l : list hash) :
  existsb (String.eqb h) l = true <-> In h l.
Proof.
  rewrite existsb_exists. split.
  - intros [x [Hx Hhx]]. apply String.eqb_eq in Hhx. subst. exact Hx.
  - intros Hin. exists h. split; [exact Hin | apply String.eqb_refl].
Qed.

Lemma entry_nonempty (b : list path) : entry b <> Some [].
Proof. destruct b; simpl; congruence. Qed.

Lemma has_key_entry (t : LuTable) (h : hash) (b : list path) :
  get t h = entry b -> bucket t h = b /\ (has_key t h = true <-> b <> []).
Proof.
  intros Hg. unfold bucket, has_key. rewrite Hg.
  destruct b; simpl; split; try reflexivity; split; congruence.
Qed.

Section Tables.
Variable dupes : LuTable.
Variable deldir : path.
Variable pattern : string.

Lemma split_deldir_of_items :
  split_deldir dupes deldir =
  (of_items (filter (fun x => is_relative_to (snd x) deldir) (items dupes)),
   of_items (filter (fun x => negb (is_relative_to (snd x) deldir))
               (items dupes))).
Proof. unfold split_deldir. apply fold_split. Qed.

Lemma get_in_deldir (h : hash) :
  get (in_deldir_hashlu dupes deldir) h = entry (inside dupes deldir h).
Proof.
  unfold in_deldir_hashlu. rewrite split_deldir_of_items; simpl.
  rewrite get_of_items.
  rewrite (paths_of_filter (fun p => is_relative_to p deldir)). reflexivity.
Qed.

Lemma NoDup_keys_of_items (l : list (hash * path)) : NoDup (keys (of_items l)).
Proof. apply NoDup_keys_fold_add. constructor. Qed.

Lemma NoDup_keys_in_deldir : NoDup (keys (in_deldir_hashlu dupes deldir)).
Proof.
  unfold in_deldir_hashlu. rewrite split_deldir_of_items; simpl.
  apply NoDup_keys_of_items.
Qed.

Lemma get_outside (h : hash) :
  get (outside_deldir_hashlu dupes deldir) h = entry (beyond dupes deldir h).
Proof.
  unfold outside_deldir_hashlu, beyond. rewrite get_ldel.
  pose proof (get_in_deldir h) as Hin. apply has_key_entry in Hin.
  destruct Hin as [_ Hin].
  set (out := filter (fun p => negb (is_relative_to p deldir)) (known dupes h)).
  assert (Hout : get (snd (split_deldir dupes deldir)) h = entry out).
  { rewrite split_deldir_of_items; simpl. rewrite get_of_items.
    rewrite (paths_of_filter (fun p => negb (is_relative_to p deldir))).
    reflexivity. }
  rewrite Hout.
  match goal with |- context [existsb ?f ?l] => destruct (existsb f l) eqn:Hex end.
  - apply existsb_eqb_In, In_set_diff in Hex. destruct Hex as [_ Hno].
    apply has_key_false in Hno.
    destruct (inside dupes deldir h); [reflexivity |].
    assert (has_key (in_deldir_hashlu dupes deldir) h = true)
      by (apply Hin; congruence).
    congruence.
  - destruct (inside dupes deldir h) as [| p ps] eqn:Hi; [| reflexivity].
    destruct out as [| q qs] eqn:Hb; [reflexivity |]. exfalso.
    assert (Hd : In h (set_diff (keys (snd (split_deldir dupes deldir)))
                         (keys (in_deldir_hashlu dupes deldir)))).
    { apply In_set_diff. split.
      - apply has_key_In. unfold has_key. rewrite Hout. reflexivity.
      - intros Hk. apply has_key_In, Hin in Hk. congruence. }
    apply existsb_eqb_In in Hd. congruence.
Qed.

Lemma NoDup_keys_outside : NoDup (keys (outside_deldir_hashlu dupes deldir)).
Proof.
  unfold outside_deldir_hashlu. apply NoDup_keys_ldel.
  rewrite split_deldir_of_items; simpl. apply NoDup_keys_of_items.
Qed.

Lemma split_pattern_of_items (t : LuTable) :
  split_pattern re_search t pattern =
  (of_items (filter (fun x => re_search pattern (name (snd x))) (items t)),
   of_items (filter (fun x => negb (re_search pattern (name (snd x))))
               (items t))).
Proof. unfold split_pattern. apply fold_split. Qed.

Lemma paths_of_in_deldir (h : hash) :
  paths_of (items (in_deldir_hashlu dupes deldir)) h = inside dupes deldir h.
Proof.
  rewrite (paths_of_items _ _ NoDup_keys_in_deldir).
  apply has_key_entry, get_in_deldir.
Qed.

Lemma get_match (h : hash) :
  get (match_pattern_hashlu re_search dupes deldir pattern) h =
  entry (hits re_search dupes deldir pattern h).
Proof.
  unfold match_pattern_hashlu. rewrite split_pattern_of_items; simpl.
  rewrite get_of_items.
  rewrite (paths_of_filter (fun p => re_search pattern (name p))).
  rewrite paths_of_in_deldir. reflexivity.
Qed.

Lemma get_no_match (h : hash) :
  get (no_match_pattern_hashlu re_search dupes deldir pattern) h =
  entry (misses re_search dupes deldir pattern h).
Proof.
  unfold no_match_pattern_hashlu. rewrite split_pattern_of_items; simpl.
  rewrite get_of_items.
  rewrite (paths_of_filter (fun p => negb (re_search pattern (name p)))).
  rewrite paths_of_in_deldir. reflexivity.
Qed.

Lemma NoDup_keys_match :
  NoDup (keys (match_pattern_hashlu re_search dupes deldir pattern)).
Proof.
  unfold match_pattern_hashlu. rewrite split_pattern_of_items; simpl.
  apply NoDup_keys_of_items.
Qed.

Lemma NoDup_keys_no_match :
  NoDup (keys (no_match_pattern_hashlu re_search dupes deldir pattern)).
Proof.
  unfold no_match_pattern_hashlu. rewrite split_pattern_of_items; simpl.
  apply NoDup_keys_of_items.
Qed.

Lemma In_hits (h : hash) (p : path) :
  In p (hits re_search dupes deldir pattern h) <->
  In p (known dupes h) /\ is_relative_to p deldir = true /\
  re_search pattern (name p) = true.
Proof. unfold hits, inside. rewrite !filter_In. tauto. Qed.

Lemma In_misses (h : hash) (p : path) :
  In p (misses re_search dupes deldir pattern h) <->
  In p (known dupes h) /\ is_relative_to p deldir = true /\
  re_search pattern (name p) = false.
Proof.
  unfold misses, inside. rewrite !filter_In, negb_true_iff. tauto.
Qed.

Lemma In_beyond (h : hash) (p : path) :
  In p (beyond dupes deldir h) ->
  In p (known dupes h) /\ is_relative_to p deldir = false.
Proof.
  unfold beyond. destruct (inside dupes deldir h); [intros [] |].
  rewrite filter_In, negb_true_iff. tauto.
Qed.

Lemma NoDup_hits (h : hash) :
  NoDup (known dupes h) -> NoDup (hits re_search dupes deldir pattern h).
Proof. intros Hn. unfold hits, inside. apply NoDup_filter, NoDup_filter, Hn. Qed.

Lemma NoDup_misses_beyond (h : hash) :
  NoDup (known dupes h) ->
  NoDup (misses re_search dupes deldir pattern h ++ beyond dupes deldir h).
Proof.
  intros Hn. apply NoDup_app.
  - unfold misses, inside. apply NoDup_filter, NoDup_filter, Hn.
  - unfold beyond. destruct (inside dupes deldir h); [constructor |].
    apply NoDup_filter, Hn.
  - intros p Hm Hb. apply In_misses in Hm. apply In_beyond in Hb.
    destruct Hm as [_ [Hm _]]. destruct Hb as [_ Hb]. congruence.
Qed.

(** [t |= other] on a table without empty bucket. *)
Lemma get_ior (t o : LuTable) (h : hash) (b : list path) :
  NoDup (keys o) ->
  get t h = entry b ->
  get (ior t o) h = entry (b ++ bucket o h).
Proof.
  intros Ho Hb. unfold ior. rewrite get_fold_add, Hb, (paths_of_items _ _ Ho).
  destruct b; reflexivity.
Qed.

Lemma bucket_outside (h : hash) :
  bucket (outside_deldir_hashlu dupes deldir) h = beyond dupes deldir h.
Proof. apply has_key_entry, get_outside. Qed.

(** The loop that drops the hashes with a single local copy. *)
Lemma drop_loop (ks : list hash) :
  forall d,
    NoDup ks ->
    (forall h, In h ks -> has_key d h = true) ->
    exists d',
      for_each drop_single ks d = Ok d' /\
      (forall h,
          get d' h =
          if existsb (String.eqb h) ks && Nat.eqb (List.length (bucket d h)) 1
          then None else get d h) /\
      (NoDup (keys d) -> NoDup (keys d')).
Proof.
  induction ks as [| a ks IH]; intros d Hnd Hk; simpl.
  - exists d. split; [reflexivity |]. split; auto.
  - apply NoDup_cons_iff in Hnd. destruct Hnd as [Hna Hnd].
    pose proof (Hk a (or_introl eq_refl)) as Hka.
    destruct (has_key_Some d a Hka) as [Hga _].
    unfold drop_single at 1, getitem, delitem. rewrite Hga, Hka; simpl.
    set (d1 := if Nat.eqb (List.length (bucket d a)) 1 then pop d a else d).
    assert (Hd1 : forall h, get d1 h =
                  if String.eqb a h && Nat.eqb (List.length (bucket d a)) 1
                  then None else get d h).
    { intros h. unfold d1. destruct (Nat.eqb (List.length (bucket d a)) 1).
      - rewrite get_pop, andb_true_r. reflexivity.
      - rewrite andb_false_r. reflexivity. }
    destruct (IH d1 Hnd) as [d' [Hrun [Hget Hkeys]]].
    { intros h Hh. unfold has_key. rewrite Hd1.
      assert (Hah : String.eqb a h = false).
      { apply String.eqb_neq. intros ->. contradiction. }
      rewrite Hah; simpl. apply (Hk h). right. exact Hh. }
    exists d'. split; [| split].
    + unfold d1 in Hrun.
      destruct (Nat.eqb (List.length (bucket d a)) 1); simpl; exact Hrun.
    + intros h. rewrite Hget. unfold bucket at 1. rewrite Hd1.
      rewrite (String.eqb_sym h a).
      destruct (String.eqb_spec a h) as [<- | Hah]; simpl.
      * assert (Hex : existsb (String.eqb a) ks = false).
        { destruct (existsb (String.eqb a) ks) eqn:Hex; [| reflexivity].
          apply existsb_eqb_In in Hex. contradiction. }
        rewrite Hex; simpl.
        destruct (Nat.eqb (List.length (bucket d a)) 1); reflexivity.
      * reflexivity.
    + intros Hn. apply Hkeys. unfold d1.
      destruct (Nat.eqb (List.length (bucket d a)) 1);
        [apply NoDup_keys_pop |]; exact Hn.
Qed.

Lemma select_local (d0 k0 : LuTable) :
  select_tables re_search dupes deldir pattern true false = Ok (d0, k0) ->
  k0 = no_match_pattern_hashlu re_search dupes deldir pattern /\
  forall h,
    get d0 h =
    if negb (has_key k0 h) &&
       Nat.eqb (List.length (hits re_search dupes deldir pattern h)) 1
    then None else entry (hits re_search dupes deldir pattern h).
Proof.
  unfold select_tables.
  set (m := match_pattern_hashlu re_search dupes deldir pattern).
  set (u := no_match_pattern_hashlu re_search dupes deldir pattern).
  destruct (drop_loop (set_diff (keys m) (keys u)) m) as [d' [Hrun [Hget _]]].
  - apply NoDup_set_diff.
  - intros h Hh. apply In_set_diff in Hh. apply has_key_In, Hh.
  - rewrite Hrun; simpl. intros Heq. injection Heq as <- <-.
    split; [reflexivity |]. intros h. rewrite Hget.
    pose proof (get_match h) as Hm. fold m in Hm.
    destruct (has_key_entry _ _ _ Hm) as [Hbm Hkm]. rewrite Hbm, Hm.
    destruct (Nat.eqb (List.length (hits re_search dupes deldir pattern h)) 1)
      eqn:Hone; [| rewrite !andb_false_r; reflexivity].
    rewrite !andb_true_r.
    destruct (existsb (String.eqb h) (set_diff (keys m) (keys u))) eqn:Hex.
    + apply existsb_eqb_In, In_set_diff in Hex. destruct Hex as [_ Hno].
      apply has_key_false in Hno. rewrite Hno. reflexivity.
    + destruct (has_key u h) eqn:Hku; [reflexivity |]. exfalso.
      assert (Hin : In h (set_diff (keys m) (keys u))).
      { apply In_set_diff. split.
        - apply has_key_In, Hkm. intros Hnil. rewrite Hnil in Hone. discriminate.
        - apply has_key_false, Hku. }
      apply existsb_eqb_In in Hin. congruence.
Qed.

Lemma select_tables_selected (match_deletions dupes_global : bool) :
  exists d0 k0,
    select_tables re_search dupes deldir pattern match_deletions dupes_global
    = Ok (d0, k0) /\ selected dupes d0 k0.
Proof.
  pose proof NoDup_keys_match as Hnm. pose proof NoDup_keys_no_match as Hnu.
  pose proof NoDup_keys_outside as Hno.
  destruct match_deletions, dupes_global.
  - (* matches are deleted, the copies outside are kept *)
    unfold select_tables. eexists _, _. split; [reflexivity |].
    assert (Hk : forall h,
               get (ior (no_match_pattern_hashlu re_search dupes deldir pattern)
                      (outside_deldir_hashlu dupes deldir)) h =
               entry (misses re_search dupes deldir pattern h ++
                      beyond dupes deldir h)).
    { intros h. rewrite <- bucket_outside.
      apply get_ior; [exact Hno | apply get_no_match]. }
    constructor.
    + exact Hnm.
    + apply NoDup_keys_fold_add, Hnu.
    + intros h. rewrite get_match. apply entry_nonempty.
    + intros h. rewrite Hk. apply entry_nonempty.
    + intros h p Hd Hkp.
      rewrite (proj1 (has_key_entry _ _ _ (get_match h))) in Hd.
      rewrite (proj1 (has_key_entry _ _ _ (Hk h))) in Hkp.
      apply In_hits in Hd. destruct Hd as [_ [Hrel Hre]].
      apply in_app_or in Hkp. destruct Hkp as [Hu | Hb].
      * apply In_misses in Hu. destruct Hu as [_ [_ Hu]]. congruence.
      * apply In_beyond in Hb. destruct Hb as [_ Hb]. congruence.
    + intros h Hn. rewrite (proj1 (has_key_entry _ _ _ (get_match h))).
      apply NoDup_hits, Hn.
  - (* matches are deleted, local scope only *)
    destruct (drop_loop
                (set_diff
                   (keys (match_pattern_hashlu re_search dupes deldir pattern))
                   (keys (no_match_pattern_hashlu re_search dupes deldir pattern)))
                (match_pattern_hashlu re_search dupes deldir pattern))
      as [d' [Hrun [Hget Hkeys]]].
    { apply NoDup_set_diff. }
    { intros h Hh. apply In_set_diff in Hh. apply has_key_In, Hh. }
    unfold select_tables. rewrite Hrun; simpl. eexists _, _.
    split; [reflexivity |].
    assert (Hsub : forall h p, In p (bucket d' h) ->
                               In p (hits re_search dupes deldir pattern h)).
    { intros h p. unfold bucket at 1. rewrite Hget.
      match goal with |- context [if ?c then _ else _] => destruct c end;
        [intros [] |].
      rewrite get_match.
      destruct (hits re_search dupes deldir pattern h); simpl; auto. }
    constructor.
    + apply Hkeys, Hnm.
    + exact Hnu.
    + intros h. rewrite Hget.
      match goal with |- context [if ?c then _ else _] => destruct c end;
        [congruence |].
      rewrite get_match. apply entry_nonempty.
    + intros h. rewrite get_no_match. apply entry_nonempty.
    + intros h p Hd Hkp. apply Hsub, In_hits in Hd.
      rewrite (proj1 (has_key_entry _ _ _ (get_no_match h))) in Hkp.
      apply In_misses in Hkp. destruct Hd as [_ [_ Hd]].
      destruct Hkp as [_ [_ Hkp]]. congruence.
    + intros h Hn. unfold bucket. rewrite Hget.
      match goal with |- context [if ?c then _ else _] => destruct c end;
        [constructor |].
      rewrite get_match.
      pose proof (NoDup_hits h Hn) as Hh.
      destruct (hits re_search dupes deldir pattern h); simpl;
        [constructor | exact Hh].
  - (* matches are kept, the copies outside are deleted *)
    unfold select_tables. eexists _, _. split; [reflexivity |].
    assert (Hd : forall h,
               get (ior (no_match_pattern_hashlu re_search dupes deldir pattern)
                      (outside_deldir_hashlu dupes deldir)) h =
               entry (misses re_search dupes deldir pattern h ++
                      beyond dupes deldir h)).
    { intros h. rewrite <- bucket_outside.
      apply get_ior; [exact Hno | apply get_no_match]. }
    constructor.
    + apply NoDup_keys_fold_add, Hnu.
    + exact Hnm.
    + intros h. rewrite Hd. apply entry_nonempty.
    + intros h. rewrite get_match. apply entry_nonempty.
    + intros h p Hdp Hkp.
      rewrite (proj1 (has_key_entry _ _ _ (get_match h))) in Hkp.
      rewrite (proj1 (has_key_entry _ _ _ (Hd h))) in Hdp.
      apply In_hits in Hkp. destruct Hkp as [_ [Hrel Hre]].
      apply in_app_or in Hdp. destruct Hdp as [Hu | Hb].
      * apply In_misses in Hu. destruct Hu as [_ [_ Hu]]. congruence.
      * apply In_beyond in Hb. destruct Hb as [_ Hb]. congruence.
    + intros h Hn. rewrite (proj1 (has_key_entry _ _ _ (Hd h))).
      apply NoDup_misses_beyond, Hn.
  - (* matches are kept, local scope only *)
    unfold select_tables. eexists _, _. split; [reflexivity |].
    constructor.
    + exact Hnu.
    + exact Hnm.
    + intros h. rewrite get_no_match. apply entry_nonempty.
    + intros h. rewrite get_match. apply entry_nonempty.
    + intros h p Hdp Hkp.
      rewrite (proj1 (has_key_entry _ _ _ (get_match h))) in Hkp.
      rewrite (proj1 (has_key_entry _ _ _ (get_no_match h))) in Hdp.
      apply In_hits in Hkp. apply In_misses in Hdp.
      destruct Hkp as [_ [_ Hkp]]. destruct Hdp as [_ [_ Hdp]]. congruence.
    + intros h Hn. rewrite (proj1 (has_key_entry _ _ _ (get_no_match h))).
      unfold misses, inside. apply NoDup_filter, NoDup_filter, Hn.
Qed.

End Tables.
End Engine.
End partition_facts.

(** * The partition: what [dd3] returns *)

Module partition.
Import lutable lutable_facts dupetable autoselect_facts partition_facts.

Lemma dd3_Ok_inv (re_search : string -> string -> bool) (dupes : LuTable)
  (deldir : path) (pattern : string) (match_deletions dupes_global autoselect : bool)
  (d k : LuTable) :
  dd3 re_search dupes deldir pattern match_deletions dupes_global autoselect
  = Ok (d, k) ->
  exists d0 k0,
    select_tables re_search dupes deldir pattern match_deletions dupes_global
    = Ok (d0, k0) /\
    selected dupes d0 k0 /\
    check_and_autoselect re_search d0 k0 (if autoselect then "." else "a^")
    = Ok (d, k).
Proof.
  intros Hrun. unfold dd3 in Hrun.
  destruct (select_tables_selected re_search dupes deldir pattern
              match_deletions dupes_global) as [d0 [k0 [Hsel Hprop]]].
  rewrite Hsel in Hrun; simpl in Hrun. eauto.
Qed.

Lemma NoDup_known (dupes : LuTable) (h : hash) :
  NoDup (items dupes) -> NoDup (known dupes h).
Proof. apply NoDup_paths_of. Qed.

(** C1: on a duplicate index, which by its invariant repeats no
    (hash, path) pair, the delete table and the keep table that [dd3]
    returns share no (hash, path) pair, whatever [deldir], the pattern and
    the three flags. *)
Theorem dd3_tables_disjoint (re_search : string -> string -> bool)
  (dupes : LuTable) (deldir : path) (pattern : string)
  (match_deletions dupes_global autoselect : bool) (d k : LuTable) :
  NoDup (items dupes) ->
  dd3 re_search dupes deldir pattern match_deletions dupes_global autoselect
  = Ok (d, k) ->
  forall h p, ~ (contains d (h, p) = true /\ contains k (h, p) = true).
Proof.
  intros Hnd Hrun h p [Hd Hk].
  apply contains_In in Hd. apply contains_In in Hk.
  destruct (dd3_Ok_inv _ _ _ _ _ _ _ _ _ Hrun) as [d0 [k0 [_ [Hsel Hpass]]]].
  destruct (check_and_autoselect_sound _ _ _ _ _ _ (sel_keys_d _ _ _ Hsel) Hpass)
    as [Hget _].
  destruct (Hget h) as [Hin Hout].
  destruct (has_key d0 h) eqn:Hd0; [destruct (has_key k0 h) eqn:Hk0 |].
  - destruct Hout as [Hgd Hgk]; [intros [_ Hf]; discriminate |].
    unfold bucket in Hd, Hk. rewrite Hgd in Hd. rewrite Hgk in Hk.
    exact (sel_apart _ _ _ Hsel h p Hd Hk).
  - specialize (Hin eq_refl eq_refl). unfold outcome in Hin.
    destruct (autoselected re_search _ (bucket d0 h)) as [f |].
    + destruct Hin as [Hgd [c [b' [Hrem Hgk]]]].
      unfold bucket in Hd, Hk. rewrite Hgd in Hd. rewrite Hgk in Hk.
      destruct Hd as [<- | []].
      apply (deque_remove_NoDup f (bucket d0 h) (c :: b')); auto.
      apply (sel_nodup _ _ _ Hsel), NoDup_known, Hnd.
    + destruct Hin as [Hgd _]. unfold bucket in Hd. rewrite Hgd in Hd.
      destruct Hd.
  - destruct Hout as [Hgd Hgk]; [intros [Hf _]; discriminate |].
    unfold bucket in Hd, Hk. rewrite Hgd in Hd. rewrite Hgk in Hk.
    exact (sel_apart _ _ _ Hsel h p Hd Hk).
Qed.

Lemma dd3_tables_disjoint_witness :
  NoDup (items [("H1", [["a"; "p"]; ["a"; "q"]])]) /\
  dd3 plain_search [("H1", [["a"; "p"]; ["a"; "q"]])] ["a"] "." true false true
  = Ok ([("H1", [["a"; "p"]])], [("H1", [["a"; "q"]])]) /\
  ~ (contains [("H1", [["a"; "p"]])] ("H1", ["a"; "p"]) = true /\
     contains [("H1", [["a"; "q"]])] ("H1", ["a"; "p"]) = true).
Proof.
  assert (Hnd : NoDup (items [("H1", [["a"; "p"]; ["a"; "q"]])])).
  { repeat constructor; simpl; intuition discriminate. }
  split; [exact Hnd |]. split; [reflexivity |].
  apply (dd3_tables_disjoint plain_search
           [("H1", [["a"; "p"]; ["a"; "q"]])] ["a"] "." true false true);
    [exact Hnd | reflexivity].
Defined.

(** The invariant of the index is used: on a table that lists a pair
    twice, which is no duplicate index, the pair comes back in both tables
    with autoselect. *)
Lemma dd3_repeated_pair_overlap :
  exists d k,
    dd3 plain_search [("H1", [["a"; "x"]; ["a"; "x"]])] ["a"] "." true false true
    = Ok (d, k) /\
    contains d ("H1", ["a"; "x"]) = true /\ contains k ("H1", ["a"; "x"]) = true.
Proof.
  exists [("H1", [["a"; "x"]])], [("H1", [["a"; "x"]])].
  repeat split; reflexivity.
Qed.

(** Without autoselect the pattern of the safety pass finds nothing. *)
Lemma autoselected_nothing (re_search : string -> string -> bool)
  (pat : string) (b : list path) :
  (forall s, re_search pat s = false) -> autoselected re_search pat b = None.
Proof.
  intros Hno. unfold autoselected.
  destruct (find _ (sorted path_leb b)) as [f |] eqn:Hf; [| reflexivity].
  apply find_some in Hf. destruct Hf as [_ Hf]. rewrite Hno in Hf. discriminate.
Qed.

(** C3: with autoselect off, [dd3] returns, and every hash of the returned
    delete table is a key of the returned keep table, with a path there; a
    hash that the keep table lacked when the safety pass ran has its whole
    delete bucket kept and is no hash of the delete table. *)
Theorem dd3_no_autoselect_keeps_one (re_search : string -> string -> bool)
  (dupes : LuTable) (deldir : path) (pattern : string)
  (match_deletions dupes_global : bool) :
  (forall s, re_search "a^" s = false) ->
  exists d0 k0 d k,
    select_tables re_search dupes deldir pattern match_deletions dupes_global
    = Ok (d0, k0) /\
    dd3 re_search dupes deldir pattern match_deletions dupes_global false
    = Ok (d, k) /\
    (forall h, has_key d h = true ->
               has_key k h = true /\ exists p, In p (bucket k h)) /\
    (forall h, has_key d0 h = true -> has_key k0 h = false ->
               has_key d h = false /\ get k h = Some (bucket d0 h)).
Proof.
  intros Hno.
  destruct (select_tables_selected re_search dupes deldir pattern
              match_deletions dupes_global) as [d0 [k0 [Hsel Hprop]]].
  destruct (check_and_autoselect_total re_search d0 k0 "a^"
              (sel_keys_d _ _ _ Hprop)) as [d [k Hpass]].
  { intros h _ _ f Hf. rewrite (autoselected_nothing _ _ _ Hno) in Hf.
    discriminate. }
  exists d0, k0, d, k. split; [exact Hsel |]. split.
  { unfold dd3. rewrite Hsel; simpl. exact Hpass. }
  destruct (check_and_autoselect_sound _ _ _ _ _ _ (sel_keys_d _ _ _ Hprop) Hpass)
    as [Hget _].
  assert (Hmoved : forall h, has_key d0 h = true -> has_key k0 h = false ->
                             has_key d h = false /\ get k h = Some (bucket d0 h)).
  { intros h Hd0 Hk0. destruct (Hget h) as [Hin _].
    specialize (Hin Hd0 Hk0). unfold outcome in Hin.
    rewrite (autoselected_nothing _ _ _ Hno) in Hin. destruct Hin as [Hgd Hgk].
    split; [apply has_key_get, Hgd | exact Hgk]. }
  split; [| exact Hmoved].
  intros h Hd. destruct (Hget h) as [_ Hout].
  destruct (has_key d0 h) eqn:Hd0; [destruct (has_key k0 h) eqn:Hk0 |].
  - destruct Hout as [_ Hgk]; [intros [_ Hf]; discriminate |].
    assert (Hk : has_key k h = true) by (unfold has_key in *; rewrite Hgk; exact Hk0).
    split; [exact Hk |].
    pose proof (sel_full_k _ _ _ Hprop h) as Hfull. rewrite <- Hgk in Hfull.
    unfold has_key in Hk. unfold bucket.
    destruct (get k h) as [[| p b] |]; [congruence | | discriminate].
    exists p. left. reflexivity.
  - destruct (Hmoved h Hd0 Hk0) as [Hf _]. congruence.
  - destruct Hout as [Hgd _]; [intros [Hf _]; discriminate |].
    unfold has_key in Hd, Hd0. rewrite Hgd in Hd. congruence.
Qed.

Lemma dd3_no_autoselect_keeps_one_witness :
  (forall s, plain_search "a^" s = false) /\
  exists d0 k0 d k,
    select_tables plain_search [("H1", [["a"; "p"]; ["a"; "q"]])] ["a"] "."
      true false = Ok (d0, k0) /\
    dd3 plain_search [("H1", [["a"; "p"]; ["a"; "q"]])] ["a"] "." true false
      false = Ok (d, k) /\
    (forall h, has_key d h = true ->
               has_key k h = true /\ exists p, In p (bucket k h)) /\
    (forall h, has_key d0 h = true -> has_key k0 h = false ->
               has_key d h = false /\ get k h = Some (bucket d0 h)).
Proof.
  split; [intros s; reflexivity |].
  apply (dd3_no_autoselect_keeps_one plain_search
           [("H1", [["a"; "p"]; ["a"; "q"]])] ["a"] "." true false).
  intros s. reflexivity.
Defined.

(** C7: in local-only mode a hash that the matches list with one path and
    the non-matches do not list is dropped from the delete table before the
    safety pass; [dd3] returns, and the hash is a key of neither table. *)
Theorem dd3_local_single_dropped (re_search : string -> string -> bool)
  (dupes : LuTable) (deldir : path) (pattern : string) (autoselect : bool)
  (h : hash) :
  has_key (match_pattern_hashlu re_search dupes deldir pattern) h = true ->
  has_key (no_match_pattern_hashlu re_search dupes deldir pattern) h = false ->
  List.length (bucket (match_pattern_hashlu re_search dupes deldir pattern) h)
  = 1 ->
  exists d0 k0 d k,
    select_tables re_search dupes deldir pattern true false = Ok (d0, k0) /\
    has_key d0 h = false /\
    dd3 re_search dupes deldir pattern true false autoselect = Ok (d, k) /\
    has_key d h = false /\ has_key k h = false.
Proof.
  intros Hm Hu Hone.
  destruct (select_tables_selected re_search dupes deldir pattern true false)
    as [d0 [k0 [Hsel Hprop]]].
  destruct (select_local _ _ _ _ _ _ Hsel) as [Hk0 Hd0].
  rewrite (proj1 (has_key_entry _ _ _ (get_match re_search dupes deldir pattern h)))
    in Hone.
  assert (Hdh : has_key d0 h = false).
  { apply has_key_get. rewrite Hd0, Hk0, Hu, Hone. reflexivity. }
  assert (Hkh : has_key k0 h = false) by (rewrite Hk0; exact Hu).
  destruct (check_and_autoselect_total re_search d0 k0
              (if autoselect then "." else "a^") (sel_keys_d _ _ _ Hprop))
    as [d [k Hpass]].
  { intros h' Hd' Hk' f _. unfold has_key in Hd'. unfold bucket.
    rewrite Hd0 in *. rewrite Hk' in *; simpl in *.
    destruct (hits re_search dupes deldir pattern h') as [| p [| q l]];
      simpl in *; try discriminate. lia. }
  exists d0, k0, d, k. split; [exact Hsel |]. split; [exact Hdh |]. split.
  { unfold dd3. rewrite Hsel; simpl. exact Hpass. }
  destruct (check_and_autoselect_sound _ _ _ _ _ _ (sel_keys_d _ _ _ Hprop) Hpass)
    as [Hget _].
  destruct (Hget h) as [_ Hout].
  destruct Hout as [Hgd Hgk]; [intros [Hf _]; congruence |].
  unfold has_key in *. rewrite Hgd, Hgk. split; assumption.
Qed.

Lemma dd3_local_single_dropped_witness :
  exists d0 k0 d k,
    select_tables plain_search [("H1", [["a"; "x"]; ["b"; "y"]])] ["a"] "x"
      true false = Ok (d0, k0) /\
    has_key d0 "H1" = false /\
    dd3 plain_search [("H1", [["a"; "x"]; ["b"; "y"]])] ["a"] "x" true false true
    = Ok (d, k) /\
    has_key d "H1" = false /\ has_key k "H1" = false.
Proof.
  apply (dd3_local_single_dropped plain_search
           [("H1", [["a"; "x"]; ["b"; "y"]])] ["a"] "x" true "H1");
    reflexivity.
Defined.

(** When some file name of the bucket is found by the pattern, a path is
    selected; when all are, it is the head of the sorted bucket. *)
Lemma autoselected_some (re_search : string -> string -> bool) (pat : string)
  (b : list path) :
  (exists p, In p b /\ re_search pat (name p) = true) ->
  exists f, autoselected re_search pat b = Some f.
Proof.
  intros [p [Hin Hp]]. unfold autoselected.
  destruct (find _ (sorted path_leb b)) as [f |] eqn:Hf; [eauto |].
  rewrite (find_none _ _ Hf p) in Hp; [discriminate |].
  apply sorted_In, Hin.
Qed.


(** What the safety pass does with autoselect, on every index: a hash that
    the delete table lists and the keep table lacks when the pass runs ends
    with exactly one of its paths in the delete table and all the others,
    at least one, in the keep table. *)
Theorem dd3_autoselect_deletes_one (re_search : string -> string -> bool)
  (dupes : LuTable) (deldir : path) (pattern : string)
  (match_deletions dupes_global : bool) (d0 k0 d k : LuTable) (h : hash) :
  select_tables re_search dupes deldir pattern match_deletions dupes_global
  = Ok (d0, k0) ->
  dd3 re_search dupes deldir pattern match_deletions dupes_global true
  = Ok (d, k) ->
  has_key d0 h = true ->
  has_key k0 h = false ->
  (exists p, In p (bucket d0 h) /\ re_search "." (name p) = true) ->
  exists f,
    bucket d h = [f] /\
    bucket k h <> [] /\
    Permutation (bucket d0 h) (f :: bucket k h).
Proof.
  intros Hsel Hrun Hd0 Hk0 Hname.
  destruct (dd3_Ok_inv _ _ _ _ _ _ _ _ _ Hrun) as [d0' [k0' [Hsel' [Hprop Hpass]]]].
  rewrite Hsel in Hsel'. injection Hsel' as <- <-.
  destruct (check_and_autoselect_sound _ _ _ _ _ _ (sel_keys_d _ _ _ Hprop) Hpass)
    as [Hget _].
  destruct (Hget h) as [Hin _]. specialize (Hin Hd0 Hk0).
  unfold outcome in Hin.
  destruct (autoselected_some re_search "." (bucket d0 h) Hname) as [f Hf].
  rewrite Hf in Hin. destruct Hin as [Hgd [c [b' [Hrem Hgk]]]].
  exists f. rewrite (bucket_get _ _ _ Hgd), (bucket_get _ _ _ Hgk).
  split; [reflexivity |]. split; [discriminate |].
  apply deque_remove_perm, Hrem.
Qed.

Lemma dd3_autoselect_deletes_one_witness :
  exists f,
    bucket [("H1", [["a"; "p"]])] "H1" = [f] /\
    bucket [("H1", [["a"; "q"]; ["a"; "r"]])] "H1" <> [] /\
    Permutation (bucket [("H1", [["a"; "p"]; ["a"; "q"]; ["a"; "r"]])] "H1")
      (f :: bucket [("H1", [["a"; "q"]; ["a"; "r"]])] "H1").
Proof.
  apply (dd3_autoselect_deletes_one plain_search
           [("H1", [["a"; "p"]; ["a"; "q"]; ["a"; "r"]])] ["a"] "." true false
           [("H1", [["a"; "p"]; ["a"; "q"]; ["a"; "r"]])] []
           [("H1", [["a"; "p"]])] [("H1", [["a"; "q"]; ["a"; "r"]])] "H1");
    try reflexivity.
  exists ["a"; "p"]. split; [left |]; reflexivity.
Defined.

(** C4: three copies under [deldir], all matched, local scope, autoselect
    on. The hash is in the delete table with all its paths and not in the
    keep table when the safety pass runs; the claim, like the help of [dd]
    (one of them is deselected), has one path kept and the two others
    deleted. The code returns one path to delete and keeps two. *)
Theorem dd3_autoselect_keeps_two :
  select_tables plain_search [("H1", [["a"; "p"]; ["a"; "q"]; ["a"; "r"]])]
    ["a"] "." true false
  = Ok ([("H1", [["a"; "p"]; ["a"; "q"]; ["a"; "r"]])], []) /\
  dd3 plain_search [("H1", [["a"; "p"]; ["a"; "q"]; ["a"; "r"]])]
    ["a"] "." true false true
  = Ok ([("H1", [["a"; "p"]])], [("H1", [["a"; "q"]; ["a"; "r"]])]) /\
  List.length (bucket [("H1", [["a"; "q"]; ["a"; "r"]])] "H1") <> 1 /\
  List.length (bucket [("H1", [["a"; "p"]])] "H1") <> 2.
Proof. repeat split; try reflexivity; discriminate. Qed.




(** C2: one copy under [deldir], one outside, the pattern matching neither,
    matches kept, local scope, autoselect on. The lone non-match is the
    whole delete bucket; the pass copies it to the keep table, takes it out
    again, which removes the key, and the lookup in the [assert] raises:
    [dd3] does not return. (The local-only branch for deleted matches guards
    against this bucket of one; this branch does not.) *)
Theorem dd3_match_keeps_local_raises (re_search : string -> string -> bool) :
  re_search "a^" "x" = false ->
  re_search "." "x" = true ->
  dd3 re_search [("H1", [["a"; "x"]; ["b"; "y"]])] ["a"] "a^" false false true
  = Raise KeyError.
Proof.
  intros Hno Hdot.
  unfold dd3, select_tables, match_pattern_hashlu, no_match_pattern_hashlu,
    split_pattern, in_deldir_hashlu, split_deldir.
  cbn. rewrite Hno. cbn.
  unfold check_and_autoselect. cbn. rewrite Hdot. reflexivity.
Qed.

Lemma dd3_match_keeps_local_raises_witness :
  dd3 plain_search [("H1", [["a"; "x"]; ["b"; "y"]])] ["a"] "a^" false false
    true = Raise KeyError.
Proof.
  apply (dd3_match_keeps_local_raises plain_search); reflexivity.
Defined.

End partition.

(** * The lookup table *)

Module table.
Import lutable lutable_facts.

Lemma add_appends (t : LuTable) (h : hash) (p : path) :
  bucket (add t (h, p)) h = bucket t h ++ [p].
Proof. unfold bucket at 1. rewrite get_add, String.eqb_refl. reflexivity. Qed.

Lemma add_changes (t : LuTable) (h : hash) (p : path) : add t (h, p) <> t.
Proof.
  intros Heq. pose proof (add_appends t h p) as Hb. rewrite Heq in Hb.
  apply (f_equal (@List.length path)) in Hb. rewrite length_app in Hb.
  simpl in Hb. lia.
Qed.

(** C6: [add] of a pair that the table contains appends the path once more;
    the table changes and lists the pair twice. *)
Theorem add_repeats_present_pair :
  contains [("H1", [["a"; "x"]])] ("H1", ["a"; "x"]) = true /\
  add [("H1", [["a"; "x"]])] ("H1", ["a"; "x"])
  = [("H1", [["a"; "x"]; ["a"; "x"]])] /\
  items (add [("H1", [["a"; "x"]])] ("H1", ["a"; "x"]))
  = [("H1", ["a"; "x"]); ("H1", ["a"; "x"])] /\
  forall t h p, add t (h, p) <> t.
Proof.
  repeat split; try reflexivity. apply add_changes.
Qed.

(** The sibling [lor] does test membership before it appends. *)
Lemma lor_present_pair :
  lor [("H1", [["a"; "x"]])] [("H1", [["a"; "x"]])] = [("H1", [["a"; "x"]])].
Proof. reflexivity. Qed.

Lemma deque_remove_split (p : path) (b b' : list path) :
  deque_remove p b = Some b' ->
  exists pre post, b = pre ++ p :: post /\ ~ In p pre /\ b' = pre ++ post.
Proof.
  revert b'. induction b as [| y b IH]; intros b'; simpl; [discriminate |].
  destruct (path_eqb y p) eqn:Hyp.
  - intros Hb. injection Hb as <-.
    unfold path_eqb in Hyp. destruct (path_eq_dec y p); [| discriminate].
    subst y. exists [], b. split; [reflexivity |]. split; [intros [] |].
    reflexivity.
  - destruct (deque_remove p b) as [b1 |]; [| discriminate].
    simpl. intros Hb. injection Hb as <-.
    destruct (IH b1 eq_refl) as [pre [post [-> [Hno ->]]]].
    exists (y :: pre), post. split; [reflexivity |]. split; [| reflexivity].
    intros [-> | Hin]; [| exact (Hno Hin)].
    unfold path_eqb in Hyp. destruct (path_eq_dec p p); [discriminate |].
    congruence.
Qed.

(** C10: [discard] raises [KeyError] on a hash that is no key and
    [ValueError] on a path that the bucket lacks. On a pair of the table it
    returns, and the path is removed: the bucket was [pre ++ p :: post] with
    no [p] in [pre], and it is [pre ++ post] afterwards, so that the first
    occurrence of the path is gone and every other entry of the bucket
    stays, in its order; the key is dropped when nothing is left; the other
    hashes are untouched. *)
Theorem discard_raises_or_removes (t : LuTable) (h : hash) (p : path) :
  (has_key t h = false -> discard t (h, p) = Raise KeyError) /\
  (has_key t h = true -> ~ In p (bucket t h) ->
   discard t (h, p) = Raise ValueError) /\
  (In p (bucket t h) ->
   exists pre post t',
     bucket t h = pre ++ p :: post /\
     ~ In p pre /\
     discard t (h, p) = Ok t' /\
     bucket t' h = pre ++ post /\
     (has_key t' h = true <-> pre ++ post <> []) /\
     (forall h', h' <> h -> get t' h' = get t h')).
Proof.
  split; [| split].
  - intros Hk. apply has_key_get in Hk. unfold discard; simpl. rewrite Hk.
    reflexivity.
  - intros Hk Hno. unfold discard; simpl. unfold has_key, bucket in *.
    destruct (get t h) as [b |]; [| discriminate].
    destruct (deque_remove p b) as [b' |] eqn:Hr; [| reflexivity].
    exfalso. apply Hno. apply deque_remove_perm in Hr.
    apply (Permutation_in _ (Permutation_sym Hr)). left. reflexivity.
  - intros Hin. destruct (deque_remove_In p _ Hin) as [b' Hr].
    assert (Hg : get t h = Some (bucket t h)).
    { unfold bucket in *. destruct (get t h); [reflexivity | destruct Hin]. }
    destruct (autoselect_facts.get_discard t h p _ b' Hg Hr)
      as [t' [Hdis [Hget _]]].
    destruct (deque_remove_split _ _ _ Hr) as [pre [post [Hb [Hno Hb']]]].
    exists pre, post, t'. split; [exact Hb |]. split; [exact Hno |].
    split; [exact Hdis |]. rewrite <- Hb'.
    assert (Hh : get t' h = match b' with [] => None | _ :: _ => Some b' end).
    { rewrite Hget, String.eqb_refl. reflexivity. }
    split; [| split].
    + unfold bucket. rewrite Hh. destruct b'; reflexivity.
    + unfold has_key. rewrite Hh. destruct b'; split; congruence.
    + intros h' Hh'. rewrite Hget.
      destruct (String.eqb_spec h h'); [congruence | reflexivity].
Qed.

Lemma discard_raises_or_removes_witness :
  discard [("H1", [["a"; "x"]; ["a"; "y"]])] ("H2", ["a"; "x"])
  = Raise KeyError /\
  discard [("H1", [["a"; "x"]; ["a"; "y"]])] ("H1", ["a"; "z"])
  = Raise ValueError /\
  exists pre post t',
    bucket [("H1", [["a"; "x"]; ["a"; "y"]])] "H1" = pre ++ ["a"; "y"] :: post /\
    ~ In ["a"; "y"] pre /\
    discard [("H1", [["a"; "x"]; ["a"; "y"]])] ("H1", ["a"; "y"]) = Ok t' /\
    bucket t' "H1" = pre ++ post /\
    (has_key t' "H1" = true <-> pre ++ post <> []) /\
    (forall h', h' <> "H1" ->
                get t' h' = get [("H1", [["a"; "x"]; ["a"; "y"]])] h').
Proof.
  split; [| split].
  - apply (discard_raises_or_removes [("H1", [["a"; "x"]; ["a"; "y"]])]
             "H2" ["a"; "x"]).
    reflexivity.
  - apply (discard_raises_or_removes [("H1", [["a"; "x"]; ["a"; "y"]])]
             "H1" ["a"; "z"]).
    + reflexivity.
    + simpl. intros [Hf | [Hf | []]]; discriminate.
  - apply (discard_raises_or_removes [("H1", [["a"; "x"]; ["a"; "y"]])]
             "H1" ["a"; "y"]).
    right. left. reflexivity.
Defined.

End table.


(** * The records: [checkHash] *)

Module records.
Import data.

Lemma take_hex_split (n : nat) (s r : string) :
  take_hex n s = Some r <->
  exists d, s = String.append d r /\ String.length d = n /\
            Forall (fun c => is_hex c = true) (list_ascii_of_string d).
Proof.
  revert s. induction n as [| n IH]; intros s; simpl.
  - split.
    + intros Hs. injection Hs as ->. exists "". repeat split. constructor.
    + intros [d [Hs [Hl _]]]. destruct d; [| discriminate]. subst. reflexivity.
  - destruct s as [| c s].
    + split; [discriminate |].
      intros [d [Hs [Hl _]]]. destruct d; discriminate.
    + destruct (is_hex c) eqn:Hc.
      * rewrite IH. split.
        -- intros [d [Hs [Hl Hd]]]. exists (String c d). subst.
           repeat split; simpl; auto.
        -- intros [d [Hs [Hl Hd]]]. destruct d as [| c' d]; [discriminate |].
           simpl in *. injection Hs as <- ->. injection Hl as Hl.
           inversion Hd; subst. exists d. auto.
      * split; [discriminate |].
        intros [d [Hs [Hl Hd]]]. destruct d as [| c' d]; [discriminate |].
        simpl in *. injection Hs as <- ->. inversion Hd; subst. congruence.
Qed.

Lemma at_end_iff (s : string) :
  at_end s = true <-> s = "" \/ s = String newline "".
Proof.
  destruct s as [| c [| c' s]]; simpl.
  - split; auto.
  - rewrite Ascii.eqb_eq. split.
    + intros ->. auto.
    + intros [Hs | Hs]; [discriminate | congruence].
  - split; [discriminate | intros [Hs | Hs]; discriminate].
Qed.

Lemma dot_plus_end_iff (s : string) :
  dot_plus_end s = true <->
  exists u, u <> "" /\ no_newline u /\
            (s = u \/ s = String.append u (String newline "")).
Proof.
  split.
  - induction s as [| c s IH]; simpl; [discriminate |].
    destruct (Ascii.eqb_spec c newline) as [| Hc]; [discriminate |].
    intros Hs. apply orb_true_iff in Hs. destruct Hs as [Hend | Hrest].
    + exists (String c ""). split; [discriminate |]. split.
      * repeat constructor. exact Hc.
      * apply at_end_iff in Hend. destruct Hend as [-> | ->]; auto.
    + destruct (IH Hrest) as [u [_ [Hu Hs]]].
      exists (String c u). split; [discriminate |]. split.
      * constructor; [exact Hc | exact Hu].
      * destruct Hs as [-> | ->]; auto.
  - intros [u [Hne [Hu Hs]]]. revert s Hs.
    induction u as [| c u IH]; intros s Hs; [congruence |].
    inversion Hu as [| c' l Hc Hu']; subst c' l.
    assert (Hcb : Ascii.eqb c newline = false) by (apply Ascii.eqb_neq, Hc).
    destruct u as [| c2 u].
    + destruct Hs as [-> | ->]; simpl; rewrite Hcb; auto.
    + assert (Hrest : forall s', s' = String c2 u \/
                                 s' = String.append (String c2 u)
                                        (String newline "") ->
                                 dot_plus_end s' = true).
      { intros s'. apply IH; [discriminate | exact Hu']. }
      destruct Hs as [-> | ->]; simpl; rewrite Hcb.
      * change (at_end (String c2 u) || dot_plus_end (String c2 u) = true)%bool.
        rewrite (Hrest _ (or_introl eq_refl)). apply orb_true_r.
      * change ((at_end (String.append (String c2 u) (String newline ""))
                 || dot_plus_end (String.append (String c2 u) (String newline "")))%bool
                = true).
        rewrite (Hrest _ (or_intror eq_refl)). apply orb_true_r.
Qed.

Lemma suffix_end_iff (s : string) :
  suffix_end s = true <-> accepted_suffix s.
Proof.
  unfold suffix_end, accepted_suffix. rewrite orb_true_iff, at_end_iff. split.
  - intros [[Hs | Hs] | Hs]; auto.
    destruct s as [| c s]; [discriminate |].
    apply andb_true_iff in Hs. destruct Hs as [Hc Hs].
    apply Ascii.eqb_eq in Hc. subst c.
    apply dot_plus_end_iff in Hs. destruct Hs as [u [Hne [Hu Hs]]].
    right. right. exists u. split; [exact Hne |]. split; [exact Hu |].
    destruct Hs as [-> | ->]; auto.
  - intros [Hs | [Hs | [u [Hne [Hu Hs]]]]]; auto.
    right. assert (Hd : forall s', s' = u \/
                                   s' = String.append u (String newline "") ->
                                   dot_plus_end s' = true).
    { intros s' Hs'. apply dot_plus_end_iff. exists u. auto. }
    destruct Hs as [-> | ->]; rewrite Ascii.eqb_refl; simpl; apply Hd; auto.
Qed.

Lemma valid_sha256_match_iff (text : string) :
  valid_sha256_match text = true <->
  exists digest suffix,
    text = String.append digest suffix /\
    String.length digest = 64 /\
    Forall (fun c => is_hex c = true) (list_ascii_of_string digest) /\
    accepted_suffix suffix.
Proof.
  unfold valid_sha256_match. split.
  - destruct (take_hex 64 text) as [rest |] eqn:Ht; [| discriminate].
    intros Hs. apply take_hex_split in Ht. destruct Ht as [d [Ht [Hl Hd]]].
    exists d, rest. apply suffix_end_iff in Hs. auto.
  - intros [d [r [Ht [Hl [Hd Hs]]]]].
    assert (Htake : take_hex 64 text = Some r).
    { apply take_hex_split. exists d. auto. }
    rewrite Htake. apply suffix_end_iff, Hs.
Qed.

(** C9, as the code has it: [checkHash] returns for a record without hash or
    with the empty hash, and for a hash of 64 hexadecimal digits, of either
    case, that nothing follows, or a colon and a text, and then possibly a
    newline; on every other hash it raises [ValueError]. *)
Theorem checkHash_accepts {float : Type} (fp : fparms float) :
  (checkHash fp = Ok tt <-> accepted (hash fp)) /\
  (checkHash fp = Raise ValueError <-> ~ accepted (hash fp)).
Proof.
  assert (Hiff : checkHash fp = Ok tt <-> accepted (hash fp)).
  { unfold checkHash, accepted. destruct (hash fp) as [[| c h] |]; simpl.
    - split; auto.
    - destruct (valid_sha256_match (String c h)) eqn:Hm; simpl.
      + split; [| reflexivity]. intros _. right. right.
        apply valid_sha256_match_iff in Hm.
        destruct Hm as [d [r [Ht H]]]. exists d, r. rewrite Ht. auto.
      + split; [discriminate |].
        intros [Hn | [He | [d [r [Ht H]]]]]; try discriminate.
        injection Ht as Ht.
        assert (Hv : valid_sha256_match (String c h) = true).
        { apply valid_sha256_match_iff. exists d, r. auto. }
        congruence.
    - split; auto. }
  split; [exact Hiff |].
  rewrite <- Hiff. unfold checkHash.
  destruct (truthy (hash fp) && _)%bool; split; congruence.
Qed.

(** An upper-case digest and the empty hash pass [checkHash]; neither is a
    digest of 64 lower-case hexadecimal characters. *)
Lemma checkHash_upper_case_passes :
  checkHash {| filename := None; hash := Some upper_digest;
               size := None; inode := None;
               mtime := @None unit; ctime := None |} = Ok tt /\
  spec_lowercase_hex_digest upper_digest = false /\
  checkHash {| filename := None; hash := Some "";
               size := None; inode := None;
               mtime := @None unit; ctime := None |} = Ok tt /\
  spec_lowercase_hex_digest "" = false.
Proof. repeat split; reflexivity. Qed.

End records.

(** * Validation before deletion *)

Module execution.
Import lutable lutable_facts executor.

(** A loop whose body only tests: it returns, or it raises what the first
    failing element raises. *)
Lemma for_each_test {A : Type} (f : A -> result unit) (l : list A) :
  (for_each (fun _ x => f x) l tt = Ok tt /\
   forall x, In x l -> f x = Ok tt) \/
  exists before x after e,
    l = before ++ x :: after /\
    (forall y, In y before -> f y = Ok tt) /\
    f x = Raise e /\
    for_each (fun _ x => f x) l tt = Raise e.
Proof.
  induction l as [| a l IH]; simpl.
  - left. split; [reflexivity | intros x []].
  - destruct (f a) as [[] | e] eqn:Hfa; simpl.
    + destruct IH as [[Hrun Hall] | [before [x [after [e [Hl [Hb [Hx Hrun]]]]]]]].
      * left. split; [exact Hrun |]. intros x [<- | Hx]; auto.
      * right. exists (a :: before), x, after, e. subst l.
        repeat split; auto. intros y [<- | Hy]; auto.
    + right. exists [], a, l, e. repeat split; auto. intros y [].
Qed.

Lemma check_file_kind (fs : disk) (q : path) (e : exn) :
  check_file fs q = Raise e ->
  (e = DupeFileNotFound /\ path_exists fs q = false) \/
  (e = DupeIsDirectory /\ path_exists fs q = true /\ is_dir fs q = true) \/
  (e = DupeIsSymLink /\ path_exists fs q = true /\ is_dir fs q = false /\
   is_symlink fs q = true).
Proof.
  unfold check_file.
  destruct (path_exists fs q); simpl.
  - destruct (is_dir fs q).
    + intros He. injection He as <-. auto.
    + destruct (is_symlink fs q); [| discriminate].
      intros He. injection He as <-. right. right. auto.
  - intros He. injection He as <-. auto.
Qed.

Lemma check_file_turned_down (fs : disk) (p : path) :
  turned_down fs p = true -> check_file fs p <> Ok tt.
Proof.
  unfold turned_down, check_file.
  destruct (path_exists fs p), (is_dir fs p), (is_symlink fs p); simpl;
    congruence.
Qed.

Lemma check_common_kind (self : Dupetable) (key : hash) (e : exn) :
  has_key (_keeptable self) key = true ->
  has_key (_deltable self) key = true ->
  check_common self key = Raise e ->
  e = DupeNotValidated /\
  exists f, In f (bucket (_keeptable self) key) /\
            In f (bucket (_deltable self) key).
Proof.
  unfold check_common, getitem, has_key, bucket.
  destruct (get (_keeptable self) key) as [bk |]; [| discriminate].
  destruct (get (_deltable self) key) as [bd |]; [| discriminate].
  intros _ _; simpl.
  destruct (existsb _ bk) eqn:Hex; [| discriminate].
  intros He. injection He as <-. split; [reflexivity |].
  apply existsb_exists in Hex. destruct Hex as [f [Hf Hfd]].
  exists f. split; [exact Hf |].
  apply existsb_exists in Hfd. destruct Hfd as [g [Hg Hfg]].
  unfold path_eqb in Hfg. destruct (path_eq_dec f g); [subst; exact Hg | discriminate].
Qed.

Lemma len_chain_values (t : LuTable) :
  len t = List.length (chain_values t).
Proof.
  unfold len, chain_values. induction (values t) as [| b l IH]; simpl.
  - reflexivity.
  - rewrite length_app, IH. reflexivity.
Qed.

Lemma check_common_Ok (self : Dupetable) (key : hash) :
  has_key (_keeptable self) key = true ->
  has_key (_deltable self) key = true ->
  (check_common self key = Ok tt <->
   forall f, In f (bucket (_keeptable self) key) ->
             In f (bucket (_deltable self) key) -> False).
Proof.
  unfold check_common, getitem, has_key, bucket.
  destruct (get (_keeptable self) key) as [bk |]; [| discriminate].
  destruct (get (_deltable self) key) as [bd |]; [| discriminate].
  intros _ _; simpl.
  destruct (existsb (fun f => existsb (path_eqb f) bd) bk) eqn:Hex.
  - split; [discriminate |]. intros Hno. exfalso.
    apply existsb_exists in Hex. destruct Hex as [f [Hf Hfd]].
    apply (Hno f Hf). apply existsb_path_eqb, Hfd.
  - split; [| reflexivity]. intros _ f Hk Hd.
    assert (Ht : existsb (fun f => existsb (path_eqb f) bd) bk = true).
    { apply existsb_exists. exists f. split; [exact Hk |].
      apply existsb_path_eqb, Hd. }
    congruence.
Qed.

Lemma check_common_shared (self : Dupetable) :
  share_pair self <->
  exists key,
    In key (filter (has_key (_deltable self)) (keys (_keeptable self))) /\
    check_common self key <> Ok tt.
Proof.
  split.
  - intros [h [f [Hk Hd]]].
    assert (Hkk : has_key (_keeptable self) h = true).
    { unfold has_key. unfold bucket in Hk.
      destruct (get (_keeptable self) h); [reflexivity | destruct Hk]. }
    assert (Hdk : has_key (_deltable self) h = true).
    { unfold has_key. unfold bucket in Hd.
      destruct (get (_deltable self) h); [reflexivity | destruct Hd]. }
    exists h. split.
    + apply filter_In. split; [apply has_key_In, Hkk | exact Hdk].
    + intros Hok. exact (proj1 (check_common_Ok self h Hkk Hdk) Hok f Hk Hd).
  - intros [key [Hin Hbad]]. apply filter_In in Hin. destruct Hin as [Hk Hd].
    apply has_key_In in Hk.
    destruct (check_common self key) as [[] | e] eqn:Hrun; [congruence |].
    destruct (check_common_kind self key e Hk Hd Hrun) as [_ [f Hf]].
    exists key, f. exact Hf.
Qed.

Lemma validate_raised_for (self : Dupetable) (fs : disk) (e : exn) :
  validate self fs = Raise e -> raised_for self fs e.
Proof.
  unfold validate, raised_for.
  destruct (for_each_test (check_common self)
              (filter (has_key (_deltable self)) (keys (_keeptable self))))
    as [[Hrun Hall] | [before [key [after [e1 [Hl [_ [Hkey Hrun]]]]]]]];
    rewrite Hrun; simpl.
  - assert (Hnone : ~ share_pair self).
    { intros Hs. apply check_common_shared in Hs.
      destruct Hs as [key [Hin Hbad]]. exact (Hbad (Hall key Hin)). }
    destruct (for_each_test (check_file fs)
                (chain_values (_keeptable self) ++ chain_values (_deltable self)))
      as [[Hrun2 _] | [before [q [after [e2 [Hl [Hb [Hq Hrun2]]]]]]]];
      rewrite Hrun2; [discriminate |].
    intros He. injection He as <-. split; [intros Hs; destruct (Hnone Hs) |].
    intros _. exists before, q, after.
    repeat split; auto. apply check_file_kind, Hq.
  - intros He. injection He as <-.
    assert (Hin : In key (filter (has_key (_deltable self))
                            (keys (_keeptable self)))).
    { rewrite Hl. apply in_elt. }
    assert (Hs : share_pair self).
    { apply check_common_shared. exists key. split; [exact Hin | congruence]. }
    apply filter_In in Hin. destruct Hin as [Hk Hd].
    apply has_key_In in Hk.
    destruct (check_common_kind self key e1 Hk Hd Hkey) as [-> _].
    split; [reflexivity |]. intros Hno. destruct (Hno Hs).
Qed.

(** C8, as the code has it: when a path of the delete table does not exist,
    is a directory or is a symbolic link, [validate] raises, and [delete]
    raises the same error and leaves the disk and the lookup table as they
    were. The error is [DupeNotValidated] when the two tables share a pair;
    otherwise it is the error of the first path, keep table first, that
    fails a test: [DupeFileNotFound] when [exists()] is false,
    [DupeIsDirectory] when the path exists and [is_dir()] holds,
    [DupeIsSymLink] when it exists, is no directory and is a link. *)
Theorem delete_turned_down_aborts (self : Dupetable) (trash : path)
  (flag : bool) (w : world) (p : path) :
  In p (chain_values (_deltable self)) ->
  turned_down (files w) p = true ->
  exists e,
    validate self (files w) = Raise e /\
    delete self trash flag w = (Raise e, w) /\
    raised_for self (files w) e.
Proof.
  intros Hin Hbad.
  assert (Hlen : Nat.ltb 0 (len (_deltable self)) = true).
  { apply Nat.ltb_lt. rewrite len_chain_values.
    destruct (chain_values (_deltable self)); [destruct Hin | simpl; lia]. }
  destruct (validate self (files w)) as [[] | e] eqn:Hval.
  - exfalso. unfold validate in Hval. apply bind_Ok_inv in Hval.
    destruct Hval as [[] [_ Hfiles]].
    destruct (for_each_test (check_file (files w))
                (chain_values (_keeptable self) ++ chain_values (_deltable self)))
      as [[_ Hall] | [before [q [after [e [_ [_ [_ Hrun]]]]]]]].
    + apply (check_file_turned_down _ _ Hbad). apply Hall.
      apply in_or_app. right. exact Hin.
    + rewrite Hrun in Hfiles. discriminate.
  - exists e. split; [reflexivity |]. split.
    + unfold delete. rewrite Hlen; simpl.
      unfold io_bind, reading. rewrite Hval. reflexivity.
    + apply validate_raised_for, Hval.
Qed.

Lemma delete_turned_down_aborts_witness :
  exists e,
    validate
      {| _keeptable := [("H1", [["a"; "y"]])];
         _deltable := [("H1", [["a"; "x"]])]; _deduped := true |}
      [(["a"; "y"], Regular)] = Raise e /\
    delete
      {| _keeptable := [("H1", [["a"; "y"]])];
         _deltable := [("H1", [["a"; "x"]])]; _deduped := true |}
      ["t"] true
      {| files := [(["a"; "y"], Regular)]; lookup_rows := [["a"; "x"]] |}
    = (Raise e,
       {| files := [(["a"; "y"], Regular)]; lookup_rows := [["a"; "x"]] |}) /\
    raised_for
      {| _keeptable := [("H1", [["a"; "y"]])];
         _deltable := [("H1", [["a"; "x"]])]; _deduped := true |}
      [(["a"; "y"], Regular)] e.
Proof.
  apply (delete_turned_down_aborts
           {| _keeptable := [("H1", [["a"; "y"]])];
              _deltable := [("H1", [["a"; "x"]])]; _deduped := true |}
           ["t"] true
           {| files := [(["a"; "y"], Regular)]; lookup_rows := [["a"; "x"]] |}
           ["a"; "x"]).
  - left. reflexivity.
  - reflexivity.
Defined.

(** The error does not always name the case of the path of the delete
    table: a dangling link is reported as not found, a link to a directory
    as a directory, and a directory of the keep table is reported before a
    missing path of the delete table. *)
Lemma validate_error_of_other_case :
  (is_symlink [(["a"; "l"], SymLink Nothing)] ["a"; "l"] = true /\
   validate {| _keeptable := []; _deltable := [("H1", [["a"; "l"]])];
               _deduped := true |}
     [(["a"; "l"], SymLink Nothing)] = Raise DupeFileNotFound) /\
  (is_symlink [(["a"; "l"], SymLink ADirectory)] ["a"; "l"] = true /\
   validate {| _keeptable := []; _deltable := [("H1", [["a"; "l"]])];
               _deduped := true |}
     [(["a"; "l"], SymLink ADirectory)] = Raise DupeIsDirectory) /\
  (path_exists [(["a"; "d"], Directory)] ["a"; "m"] = false /\
   validate {| _keeptable := [("H1", [["a"; "d"]])];
               _deltable := [("H1", [["a"; "m"]])]; _deduped := true |}
     [(["a"; "d"], Directory)] = Raise DupeIsDirectory).
Proof. repeat split; reflexivity. Qed.

(** With sound tables the deletion does take place: the file and its row
    are gone. *)
Example delete_removes_file :
  delete
    {| _keeptable := [("H1", [["a"; "y"]])];
       _deltable := [("H1", [["a"; "x"]])]; _deduped := true |}
    ["t"] true
    {| files := [(["a"; "x"], Regular); (["a"; "y"], Regular)];
       lookup_rows := [["a"; "x"]; ["a"; "y"]] |}
  = (Ok tt,
     {| files := [(["a"; "y"], Regular)]; lookup_rows := [["a"; "y"]] |}).
Proof. reflexivity. Qed.

(** The loop of [rename_if_exists] ends: the candidate names differ from
    one number to the next, and the disk cannot hold them all. *)
Lemma chars_append (a b : string) :
  list_ascii_of_string (String.append a b) =
  list_ascii_of_string a ++ list_ascii_of_string b.
Proof.
  induction a as [| c a IH]; simpl; [reflexivity | rewrite IH; reflexivity].
Qed.

Lemma chars_inj (a b : string) :
  list_ascii_of_string a = list_ascii_of_string b -> a = b.
Proof.
  intros Hab. apply (f_equal string_of_list_ascii) in Hab.
  rewrite !string_of_list_ascii_of_string in Hab. exact Hab.
Qed.

Lemma str_inj (a b : nat) : str a = str b -> a = b.
Proof.
  unfold str. intros Hab.
  apply (f_equal NilEmpty.uint_of_string) in Hab.
  rewrite !NilEmpty.usu in Hab. injection Hab as Hab.
  apply DecimalNat.Unsigned.to_uint_inj, Hab.
Qed.

Lemma candidate_inj (file : path) (file_stem suffix : string) (a b : nat) :
  candidate file file_stem suffix a = candidate file file_stem suffix b ->
  a = b.
Proof.
  unfold candidate. intros Hab. apply app_inv_head in Hab.
  injection Hab as Hab. apply (f_equal list_ascii_of_string) in Hab.
  rewrite (chars_append file_stem) in Hab.
  rewrite (chars_append file_stem) in Hab. apply app_inv_head in Hab.
  change (String.append "_" (String.append (str a) suffix))
    with (String "_" (String.append (str a) suffix)) in Hab.
  change (String.append "_" (String.append (str b) suffix))
    with (String "_" (String.append (str b) suffix)) in Hab.
  simpl list_ascii_of_string in Hab. injection Hab as Hab.
  rewrite !chars_append in Hab. apply app_inv_tail in Hab.
  apply str_inj, chars_inj, Hab.
Qed.

Lemma rename_loop_step (fs : disk) (file : path) (file_stem suffix : string)
  (numb fuel : nat) :
  file <> [] ->
  rename_loop fs file file_stem suffix numb (S fuel) =
  if path_exists fs (candidate file file_stem suffix numb)
  then rename_loop fs file file_stem suffix (S numb) fuel
  else Ok (candidate file file_stem suffix numb).
Proof.
  intros Hfile. destruct file as [| c file']; [congruence | reflexivity].
Qed.

Lemma rename_loop_finds (fs : disk) (file : path) (file_stem suffix : string) :
  file <> [] ->
  forall fuel numb,
    (exists k, numb <= k < numb + fuel /\
               path_exists fs (candidate file file_stem suffix k) = false) ->
    exists newPath,
      rename_loop fs file file_stem suffix numb fuel = Ok newPath /\
      path_exists fs newPath = false.
Proof.
  intros Hfile. induction fuel as [| fuel IH]; intros numb [k [Hk Hfree]].
  - lia.
  - rewrite (rename_loop_step _ _ _ _ _ _ Hfile).
    destruct (path_exists fs (candidate file file_stem suffix numb)) eqn:Hnumb.
    + apply IH. exists k. split; [| exact Hfree].
      assert (k <> numb) by (intros ->; congruence). lia.
    + eexists. split; [reflexivity | exact Hnumb].
Qed.

Lemma path_exists_listed (fs : disk) (p : path) :
  p <> [] -> path_exists fs p = true -> In p (map fst fs).
Proof.
  intros Hp. unfold path_exists, lstat. destruct p as [| c p]; [congruence |].
  induction fs as [| [q n] fs IH]; simpl; [discriminate |].
  unfold path_eqb. destruct (path_eq_dec q (c :: p)) as [-> | Hq]; auto.
Qed.

Lemma forallb_false {A : Type} (f : A -> bool) (l : list A) :
  forallb f l = false -> exists x, In x l /\ f x = false.
Proof.
  induction l as [| a l IH]; simpl; [discriminate |].
  destruct (f a) eqn:Hfa; simpl.
  - intros Hl. destruct (IH Hl) as [x [Hx Hfx]]. eauto.
  - intros _. eauto.
Qed.

Lemma candidate_free (fs : disk) (file : path) (file_stem suffix : string) :
  exists k, 1 <= k < 1 + S (List.length fs) /\
            path_exists fs (candidate file file_stem suffix k) = false.
Proof.
  set (ks := seq 1 (S (List.length fs))).
  destruct (forallb (fun k => path_exists fs (candidate file file_stem suffix k))
              ks) eqn:Hall.
  - exfalso.
    assert (Hincl : incl (map (candidate file file_stem suffix) ks)
                      (map fst fs)).
    { intros p Hp. apply in_map_iff in Hp. destruct Hp as [k [<- Hk]].
      apply path_exists_listed.
      - unfold candidate. intros Hnil. apply app_eq_nil in Hnil.
        destruct Hnil as [_ Hnil]. discriminate.
      - apply (proj1 (forallb_forall _ _) Hall k Hk). }
    apply NoDup_incl_length in Hincl.
    + unfold ks in Hincl. rewrite !length_map, length_seq in Hincl. lia.
    + apply Injective_map_NoDup; [| apply seq_NoDup].
      intros a b. apply candidate_inj.
  - apply forallb_false in Hall. destruct Hall as [k [Hk Hfree]].
    exists k. split; [| exact Hfree].
    unfold ks in Hk. apply in_seq in Hk. lia.
Qed.

(** [rename_if_exists] returns, on every path with a name, a path that does
    not exist. *)
Lemma rename_if_exists_returns (fs : disk) (file : path) :
  file <> [] ->
  exists newPath,
    rename_if_exists fs file = Ok newPath /\ path_exists fs newPath = false.
Proof.
  intros Hfile. unfold rename_if_exists.
  destruct (path_exists fs file) eqn:Hex.
  - apply (rename_loop_finds fs file _ _ Hfile). apply candidate_free.
  - eauto.
Qed.

End execution.

(** * More of the lookup table: construction, membership, merging *)

Module table_laws.
Import lutable lutable_facts.

(** [add] along the list of entries. *)
Lemma add_nil (h : hash) (p : path) : add [] (h, p) = [(h, [p])].
Proof.
  unfold add, has_key, bucket; simpl.
  repeat (rewrite String.eqb_refl; simpl). reflexivity.
Qed.

Lemma add_cons (k : hash) (b : list path) (t : LuTable) (h : hash) (p : path) :
  add ((k, b) :: t) (h, p) =
  if String.eqb k h then (k, b ++ [p]) :: t else (k, b) :: add t (h, p).
Proof.
  destruct (String.eqb k h) eqn:Hkh.
  - unfold add, has_key, bucket; simpl. rewrite !Hkh; simpl. rewrite !Hkh.
    reflexivity.
  - unfold add, has_key, bucket; simpl. rewrite !Hkh.
    destruct (get t h) as [c |] eqn:Hg; simpl; rewrite !Hkh; simpl.
    + rewrite ?Hg. reflexivity.
    + rewrite !get_set, !String.eqb_refl. reflexivity.
Qed.

Lemma items_add (t : LuTable) (h : hash) (p : path) :
  Permutation (items (add t (h, p))) (items t ++ [(h, p)]).
Proof.
  induction t as [| [k b] t IH].
  - rewrite add_nil. apply Permutation_refl.
  - rewrite add_cons. destruct (String.eqb_spec k h) as [-> | Hkh].
    + unfold items; simpl. rewrite map_app; simpl. rewrite <- !app_assoc.
      apply Permutation_app_head. simpl.
      apply Permutation_cons_append.
    + unfold items in *; simpl. rewrite <- app_assoc.
      apply Permutation_app_head. exact IH.
Qed.

Lemma items_fold_add (l : list (hash * path)) (t : LuTable) :
  Permutation (items (fold_left add l t)) (items t ++ l).
Proof.
  revert t. induction l as [| [h p] l IH]; intros t; simpl.
  - rewrite app_nil_r. apply Permutation_refl.
  - eapply perm_trans; [apply IH |].
    eapply perm_trans; [apply Permutation_app_tail, items_add |].
    rewrite <- app_assoc. apply Permutation_refl.
Qed.

Lemma len_items (t : LuTable) : len t = List.length (items t).
Proof.
  unfold len, items, values. induction t as [| [k b] t IH]; simpl.
  - reflexivity.
  - rewrite length_app, length_map, IH. reflexivity.
Qed.

(** X1: [LuTable(iterable)] holds the pairs of the iterable and no other:
    iterating it yields a permutation of the pairs given, under each hash the
    paths come in the order given, repeats included, and [len] is the number
    of pairs given. *)
Theorem of_items_round_trip (l : list (hash * path)) :
  Permutation (items (of_items l)) l /\
  (forall h, paths_of (items (of_items l)) h = paths_of l h) /\
  len (of_items l) = List.length l.
Proof.
  assert (Hperm : Permutation (items (of_items l)) l).
  { unfold of_items. apply (items_fold_add l empty). }
  split; [exact Hperm |]. split.
  - intros h. rewrite paths_of_items.
    + unfold bucket. rewrite get_of_items.
      destruct (paths_of l h); reflexivity.
    + apply NoDup_keys_fold_add. constructor.
  - rewrite len_items. apply Permutation_length, Hperm.
Qed.

(** X2: membership after [add]: the pair added is contained, and any other
    pair is contained exactly when it was. *)
Theorem contains_add (t : LuTable) (h h' : hash) (p q : path) :
  contains (add t (h, p)) (h', q) =
  (contains t (h', q) || (String.eqb h h' && path_eqb p q))%bool.
Proof.
  apply eq_true_iff_eq.
  rewrite orb_true_iff, andb_true_iff, !contains_In, String.eqb_eq.
  unfold bucket at 1. rewrite get_add.
  assert (Hpq : path_eqb p q = true <-> p = q).
  { unfold path_eqb. destruct (path_eq_dec p q); split; congruence. }
  rewrite Hpq.
  destruct (String.eqb_spec h h') as [<- | Hh].
  - rewrite in_app_iff; simpl. tauto.
  - fold (bucket t h'). tauto.
Qed.

Lemma discard_cons_other (k : hash) (b : list path) (t : LuTable)
  (h : hash) (p : path) :
  String.eqb k h = false ->
  discard ((k, b) :: t) (h, p) =
  match discard t (h, p) with
  | Ok t' => Ok ((k, b) :: t')
  | Raise e => Raise e
  end.
Proof.
  intros Hkh. unfold discard, pop; simpl. rewrite Hkh.
  destruct (get t h) as [c |]; [| reflexivity].
  destruct (deque_remove p c) as [[| y c'] |]; simpl; rewrite ?Hkh; reflexivity.
Qed.

Lemma deque_remove_last (p : path) (b : list path) :
  ~ In p b -> deque_remove p (b ++ [p]) = Some b.
Proof.
  induction b as [| y b IH]; simpl; intros Hno.
  - unfold path_eqb. destruct (path_eq_dec p p); [reflexivity | contradiction].
  - unfold path_eqb. destruct (path_eq_dec y p) as [-> | Hyp]; [tauto |].
    rewrite IH; [reflexivity | tauto].
Qed.

(** X3: [discard] undoes [add]: on a table without empty bucket, adding a
    pair that the table does not contain and discarding it again gives the
    table back, entry for entry. *)
Theorem discard_add (t : LuTable) (h : hash) (p : path) :
  contains t (h, p) = false ->
  Forall (fun e => snd e <> []) t ->
  discard (add t (h, p)) (h, p) = Ok t.
Proof.
  intros Hno Hfull.
  assert (Hnin : ~ In p (bucket t h)).
  { intros Hin. apply contains_In in Hin. congruence. }
  clear Hno. induction t as [| [k b] t IH].
  - rewrite add_nil. unfold discard, pop; simpl. rewrite String.eqb_refl; simpl.
    unfold path_eqb. destruct (path_eq_dec p p); [| contradiction]. simpl.
    rewrite ?String.eqb_refl. reflexivity.
  - inversion Hfull as [| e l Hb Hrest]; subst e l. simpl in Hb.
    rewrite add_cons. destruct (String.eqb k h) eqn:Hkh.
    + apply String.eqb_eq in Hkh. subst k.
      unfold bucket in Hnin; simpl in Hnin. rewrite String.eqb_refl in Hnin.
      unfold discard; simpl. rewrite String.eqb_refl.
      rewrite (deque_remove_last p b Hnin).
      destruct b as [| y b']; [congruence |].
      simpl. rewrite ?String.eqb_refl. reflexivity.
    + rewrite (discard_cons_other _ _ _ _ _ Hkh). rewrite IH; [reflexivity | |].
      * exact Hrest.
      * unfold bucket in *; simpl in Hnin. rewrite Hkh in Hnin. exact Hnin.
Qed.

Lemma discard_add_witness :
  discard (add [("H1", [["a"; "x"]])] ("H1", ["a"; "y"])) ("H1", ["a"; "y"])
  = Ok [("H1", [["a"; "x"]])].
Proof.
  apply (discard_add [("H1", [["a"; "x"]])] "H1" ["a"; "y"]).
  - reflexivity.
  - repeat constructor. simpl. discriminate.
Defined.

Lemma lor_fold (t other : LuTable) :
  lor t other = fold_left lor_step (items other) t.
Proof. reflexivity. Qed.

Lemma get_lor_step (s : LuTable) (k : hash) (v : path) (h : hash) :
  get (lor_step s (k, v)) h =
  if String.eqb k h
  then option_map
         (fun b => if existsb (path_eqb v) b then b else b ++ [v]) (get s h)
  else get s h.
Proof.
  unfold lor_step, has_key, bucket; simpl.
  destruct (String.eqb_spec k h) as [<- | Hkh].
  - destruct (get s k) as [b |] eqn:Hg; simpl.
    + destruct (existsb (path_eqb v) b).
      * exact Hg.
      * rewrite get_set, String.eqb_refl. reflexivity.
    + exact Hg.
  - destruct (get s k) as [b |]; [| reflexivity].
    destruct (existsb (path_eqb v) b); [reflexivity |].
    rewrite get_set. apply String.eqb_neq in Hkh. rewrite Hkh. reflexivity.
Qed.

Lemma keys_lor_step (s : LuTable) (kv : hash * path) :
  keys (lor_step s kv) = keys s.
Proof.
  unfold lor_step. destruct (has_key s (fst kv)) eqn:Hk; [| reflexivity].
  destruct (existsb _ _); [reflexivity |]. rewrite keys_set, Hk. reflexivity.
Qed.

Lemma has_key_lor_step (s : LuTable) (kv : hash * path) (h : hash) :
  has_key (lor_step s kv) h = has_key s h.
Proof.
  destruct kv as [k v]. unfold has_key. rewrite get_lor_step.
  destruct (String.eqb k h); [| reflexivity].
  destruct (get s h); reflexivity.
Qed.

Lemma In_bucket_lor_step (s : LuTable) (k : hash) (v : path) (h : hash)
  (p : path) :
  In p (bucket (lor_step s (k, v)) h) <->
  In p (bucket s h) \/ (has_key s h = true /\ k = h /\ v = p).
Proof.
  unfold bucket, has_key. rewrite get_lor_step.
  destruct (String.eqb_spec k h) as [<- | Hkh].
  - destruct (get s k) as [b |]; simpl.
    + destruct (existsb (path_eqb v) b) eqn:Hex.
      * apply existsb_path_eqb in Hex. split; [auto |].
        intros [Hin | [_ [_ <-]]]; assumption.
      * rewrite in_app_iff; simpl. split.
        -- intros [Hin | [<- | []]]; auto.
        -- intros [Hin | [_ [_ <-]]]; auto.
    + split; [tauto | intros [[] | [Hf _]]; discriminate].
  - split; [auto | intros [Hin | [_ [Hk _]]]; [assumption | contradiction]].
Qed.

Lemma has_key_lor_fold (l : list (hash * path)) (s : LuTable) (h : hash) :
  has_key (fold_left lor_step l s) h = has_key s h.
Proof.
  revert s. induction l as [| kv l IH]; intros s; simpl; [reflexivity |].
  rewrite IH. apply has_key_lor_step.
Qed.

Lemma In_bucket_lor_fold (l : list (hash * path)) :
  forall (s : LuTable) (h : hash) (p : path),
    In p (bucket (fold_left lor_step l s) h) <->
    In p (bucket s h) \/ (has_key s h = true /\ In (h, p) l).
Proof.
  induction l as [| [k v] l IH]; intros s h p; simpl.
  - tauto.
  - rewrite IH, In_bucket_lor_step, has_key_lor_step. split.
    + intros [[Hin | [Hk [-> ->]]] | [Hk Hin]]; auto.
    + intros [Hin | [Hk [Heq | Hin]]]; auto.
      injection Heq as -> ->. auto.
Qed.

Lemma NoDup_bucket_lor_step (s : LuTable) (kv : hash * path) :
  (forall h, NoDup (bucket s h)) ->
  forall h, NoDup (bucket (lor_step s kv) h).
Proof.
  intros Hs h. destruct kv as [k v]. unfold bucket. rewrite get_lor_step.
  specialize (Hs h). unfold bucket in Hs.
  destruct (String.eqb k h); [| exact Hs].
  destruct (get s h) as [b |]; simpl; [| constructor].
  destruct (existsb (path_eqb v) b) eqn:Hex; [exact Hs |].
  apply NoDup_app; [exact Hs | repeat constructor; simpl; tauto |].
  intros x Hx [Heq | []]. subst x.
  assert (Ht : existsb (path_eqb v) b = true) by (apply existsb_path_eqb, Hx).
  congruence.
Qed.

Lemma lor_step_fixed (s : LuTable) (k : hash) (v : path) :
  (has_key s k = true -> In v (bucket s k)) -> lor_step s (k, v) = s.
Proof.
  intros Hin. unfold lor_step; simpl.
  destruct (has_key s k); [| reflexivity].
  apply existsb_path_eqb in Hin; [| reflexivity]. rewrite Hin. reflexivity.
Qed.

(** X4: [lor] merges into the hashes that the table has and into no other:
    the keys stay as they are, in their order, and a path is in a bucket
    afterwards exactly when it was before or the other table lists it under
    a hash that is a key. *)
Theorem lor_existing_keys_only (t other : LuTable) :
  keys (lor t other) = keys t /\
  forall h p,
    In p (bucket (lor t other) h) <->
    In p (bucket t h) \/ (has_key t h = true /\ In (h, p) (items other)).
Proof.
  rewrite lor_fold. split.
  - generalize (items other) as l. intros l. revert t.
    induction l as [| kv l IH]; intros t; simpl; [reflexivity |].
    rewrite IH. apply keys_lor_step.
  - intros h p. apply In_bucket_lor_fold.
Qed.

(** X5: [lor] never repeats a path: buckets without repeated path stay so,
    and merging the same table a second time changes nothing. *)
Theorem lor_no_repeat (t other : LuTable) :
  ((forall h, NoDup (bucket t h)) ->
   forall h, NoDup (bucket (lor t other) h)) /\
  lor (lor t other) other = lor t other.
Proof.
  split.
  - rewrite lor_fold. generalize (items other) as l. intros l. revert t.
    induction l as [| kv l IH]; intros t Ht; simpl; [exact Ht |].
    apply IH, NoDup_bucket_lor_step, Ht.
  - assert (Hfix : forall l s,
               (forall k v, In (k, v) l -> has_key s k = true ->
                            In v (bucket s k)) ->
               fold_left lor_step l s = s).
    { induction l as [| [k v] l IH]; intros s Hs; simpl; [reflexivity |].
      rewrite (lor_step_fixed s k v); [| apply Hs; left; reflexivity].
      apply IH. intros k' v' Hin. apply Hs. right. exact Hin. }
    rewrite (lor_fold (lor t other)). apply Hfix.
    intros k v Hin Hk. rewrite lor_fold. apply In_bucket_lor_fold.
    right. split; [| exact Hin].
    rewrite <- Hk. rewrite lor_fold. symmetry. apply has_key_lor_fold.
Qed.

(** X6: [ldel] removes the listed hashes and ignores the ones that are no
    key, where [del table[key]] raises [KeyError]: afterwards a listed hash
    is no key, every other hash has its bucket as before, and for a present
    key [del] is [ldel] of that one key. *)
Theorem ldel_tolerant (t : LuTable) (ks : list hash) (k : hash) :
  (forall h, get (ldel t ks) h = if existsb (String.eqb h) ks then None
                                 else get t h) /\
  (has_key t k = false -> ldel t [k] = t /\ delitem t k = Raise KeyError) /\
  (has_key t k = true -> delitem t k = Ok (ldel t [k])).
Proof.
  split; [intros h; apply get_ldel |]. unfold ldel, delitem; simpl.
  split; intros Hk; rewrite Hk; auto.
Qed.

(** X7: [lextend] appends the whole bucket of the other table, repeats
    included, and touches no other hash; the key is created at the end when
    the table lacks it; a hash that the other table lacks raises
    [KeyError]. *)
Theorem lextend_appends_bucket (t other : LuTable) (key : hash) :
  (get other key = None -> lextend t other key = Raise KeyError) /\
  (forall b, get other key = Some b ->
     exists t',
       lextend t other key = Ok t' /\
       get t' key = Some (bucket t key ++ b) /\
       (forall h, h <> key -> get t' h = get t h) /\
       keys t' = if has_key t key then keys t else keys t ++ [key]).
Proof.
  unfold lextend, getitem. split.
  - intros ->. reflexivity.
  - intros b ->. simpl. eexists. split; [reflexivity |].
    destruct (has_key t key) eqn:Hk; simpl.
    + split; [| split].
      * rewrite get_set, String.eqb_refl. reflexivity.
      * intros h Hh. rewrite get_set.
        destruct (String.eqb_spec key h); [congruence | reflexivity].
      * rewrite keys_set, Hk. reflexivity.
    + split; [| split].
      * rewrite get_set, String.eqb_refl. unfold bucket at 1.
        rewrite get_set, String.eqb_refl, (bucket_no_key _ _ Hk). reflexivity.
      * intros h Hh. rewrite !get_set.
        destruct (String.eqb_spec key h); [congruence | reflexivity].
      * rewrite !keys_set, Hk.
        assert (Hk' : has_key (set t key []) key = true).
        { unfold has_key. rewrite get_set, String.eqb_refl. reflexivity. }
        rewrite Hk'. reflexivity.
Qed.

Lemma lextend_appends_bucket_witness :
  lextend [("H1", [["a"; "x"]])] [] "H1" = Raise KeyError /\
  exists t',
    lextend [("H1", [["a"; "x"]])] [("H1", [["a"; "x"]])] "H1" = Ok t' /\
    get t' "H1" = Some (bucket [("H1", [["a"; "x"]])] "H1" ++ [["a"; "x"]]) /\
    (forall h, h <> "H1" -> get t' h = get [("H1", [["a"; "x"]])] h) /\
    keys t' = if has_key [("H1", [["a"; "x"]])] "H1"
              then keys [("H1", [["a"; "x"]])]
              else keys [("H1", [["a"; "x"]])] ++ ["H1"].
Proof.
  split.
  - apply (lextend_appends_bucket [("H1", [["a"; "x"]])] [] "H1"). reflexivity.
  - apply (lextend_appends_bucket [("H1", [["a"; "x"]])]
             [("H1", [["a"; "x"]])] "H1"). reflexivity.
Defined.

Lemma lor_no_repeat_witness :
  (forall h, NoDup (bucket (lor [("H1", [["a"; "x"]])]
                              [("H1", [["a"; "x"]; ["a"; "y"]])]) h)) /\
  lor (lor [("H1", [["a"; "x"]])] [("H1", [["a"; "x"]; ["a"; "y"]])])
    [("H1", [["a"; "x"]; ["a"; "y"]])]
  = lor [("H1", [["a"; "x"]])] [("H1", [["a"; "x"]; ["a"; "y"]])].
Proof.
  split.
  - apply (lor_no_repeat [("H1", [["a"; "x"]])]
             [("H1", [["a"; "x"]; ["a"; "y"]])]).
    intros h. unfold bucket. cbn [get]. destruct (String.eqb "H1" h).
    + constructor; [intros [] | constructor].
    + constructor.
  - apply (lor_no_repeat [("H1", [["a"; "x"]])]
             [("H1", [["a"; "x"]; ["a"; "y"]])]).
Defined.

Lemma ldel_tolerant_witness :
  (ldel [("H1", [["a"; "x"]])] ["H2"] = [("H1", [["a"; "x"]])] /\
   delitem [("H1", [["a"; "x"]])] "H2" = Raise KeyError) /\
  delitem [("H1", [["a"; "x"]])] "H1" = Ok (ldel [("H1", [["a"; "x"]])] ["H1"]).
Proof.
  split.
  - apply (ldel_tolerant [("H1", [["a"; "x"]])] [] "H2"). reflexivity.
  - apply (ldel_tolerant [("H1", [["a"; "x"]])] [] "H1"). reflexivity.
Defined.

Lemma full_set (t : LuTable) (h : hash) (c : list path) :
  full t -> c <> [] -> full (set t h c).
Proof.
  unfold full. intros Ht Hc. induction t as [| [k b] t IH]; simpl.
  - repeat constructor. exact Hc.
  - inversion Ht as [| e l Hb Hrest]; subst e l.
    destruct (String.eqb k h); constructor; auto.
Qed.

Lemma full_pop (t : LuTable) (h : hash) : full t -> full (pop t h).
Proof.
  unfold full, pop. rewrite !Forall_forall. intros Ht e He.
  apply filter_In in He. apply Ht, He.
Qed.

Lemma full_add (t : LuTable) (x : hash * path) : full t -> full (add t x).
Proof.
  destruct x as [h p]. unfold full. induction t as [| [k b] t IH]; intros Ht.
  - rewrite add_nil. repeat constructor. simpl. discriminate.
  - rewrite add_cons. inversion Ht as [| e l Hb Hrest]; subst e l.
    destruct (String.eqb k h); constructor; auto.
    simpl. destruct b; discriminate.
Qed.

Lemma get_In (t : LuTable) (h : hash) (b : list path) :
  get t h = Some b -> In (h, b) t.
Proof.
  induction t as [| [k c] t IH]; simpl; [discriminate |].
  destruct (String.eqb_spec k h) as [-> | Hkh].
  - intros Hb. injection Hb as ->. left. reflexivity.
  - intros Hb. right. apply IH, Hb.
Qed.

(** X8: a table without empty bucket stays so under [add], [|=], [lor],
    [ldel] and [discard]; on such a table a hash is a key exactly when its
    bucket holds a path. *)
Theorem full_kept (t other : LuTable) (x : hash * path) (ks : list hash) :
  full t ->
  full (add t x) /\ full (ior t other) /\ full (lor t other) /\
  full (ldel t ks) /\
  (forall t', discard t x = Ok t' -> full t') /\
  (forall h, has_key t h = true <-> bucket t h <> []).
Proof.
  intros Ht. split; [apply full_add, Ht |]. split; [| split; [| split; [| split]]].
  - unfold ior. generalize (items other) as l. intros l. revert t Ht.
    induction l as [| y l IH]; intros t Ht; simpl; [exact Ht |].
    apply IH, full_add, Ht.
  - rewrite lor_fold. generalize (items other) as l. intros l. revert t Ht.
    induction l as [| y l IH]; intros t Ht; simpl; [exact Ht |].
    apply IH. unfold lor_step. destruct (has_key t (fst y)); [| exact Ht].
    destruct (existsb _ _); [exact Ht |].
    apply full_set; [exact Ht |]. destruct (bucket t (fst y)); discriminate.
  - unfold ldel. revert t Ht. induction ks as [| k ks IH]; intros t Ht; simpl.
    + exact Ht.
    + apply IH. destruct (has_key t k); [apply full_pop |]; exact Ht.
  - intros t'. unfold discard. destruct (get t (fst x)) as [b |]; [| discriminate].
    destruct (deque_remove (snd x) b) as [[| c b'] |]; [| | discriminate];
      intros Heq; injection Heq as <-.
    + apply full_pop, Ht.
    + apply full_set; [exact Ht | discriminate].
  - intros h. unfold has_key, bucket. destruct (get t h) as [b |] eqn:Hg.
    + apply get_In in Hg. unfold full in Ht. rewrite Forall_forall in Ht.
      specialize (Ht _ Hg). simpl in Ht. split; auto.
    + split; [discriminate | congruence].
Qed.

Lemma full_kept_witness :
  full (add [("H1", [["a"; "x"]])] ("H2", ["a"; "y"])) /\
  full (ior [("H1", [["a"; "x"]])] [("H2", [["a"; "y"]])]) /\
  full (lor [("H1", [["a"; "x"]])] [("H2", [["a"; "y"]])]) /\
  full (ldel [("H1", [["a"; "x"]])] ["H1"]) /\
  (forall t', discard [("H1", [["a"; "x"]])] ("H2", ["a"; "y"]) = Ok t' ->
              full t') /\
  (forall h, has_key [("H1", [["a"; "x"]])] h = true <->
             bucket [("H1", [["a"; "x"]])] h <> []).
Proof.
  apply (full_kept [("H1", [["a"; "x"]])] [("H2", [["a"; "y"]])]
           ("H2", ["a"; "y"]) ["H1"]).
  repeat constructor. simpl. discriminate.
Defined.

End table_laws.

(** * More of the partition: what is marked, what is kept, what is lost *)

Module partition_laws.
Import lutable lutable_facts dupetable autoselect_facts partition_facts.

Section Engine.
Variable re_search : string -> string -> bool.

(** The tables handed to the safety pass, bucket by bucket. *)
Lemma select_tables_buckets (dupes : LuTable) (deldir : path)
  (pattern : string) (match_deletions dupes_global : bool) (d0 k0 : LuTable) :
  select_tables re_search dupes deldir pattern match_deletions dupes_global
  = Ok (d0, k0) ->
  forall h,
    bucket k0 h
    = marked_keep re_search dupes deldir pattern match_deletions dupes_global h
    /\
    (bucket d0 h
     = marked_delete re_search dupes deldir pattern match_deletions
         dupes_global h
     \/
     (match_deletions = true /\ dupes_global = false /\ bucket d0 h = [] /\
      bucket k0 h = [] /\
      List.length (hits re_search dupes deldir pattern h) = 1)).
Proof.
  intros Hsel h.
  assert (Hm := proj1 (has_key_entry _ _ _
                         (get_match re_search dupes deldir pattern h))).
  assert (Hu := proj1 (has_key_entry _ _ _
                         (get_no_match re_search dupes deldir pattern h))).
  assert (Hi : bucket (ior (no_match_pattern_hashlu re_search dupes deldir pattern)
                         (outside_deldir_hashlu dupes deldir)) h =
               misses re_search dupes deldir pattern h ++ beyond dupes deldir h).
  { apply has_key_entry. rewrite <- bucket_outside.
    apply get_ior; [apply NoDup_keys_outside | apply get_no_match]. }
  unfold marked_keep, marked_delete.
  destruct match_deletions, dupes_global.
  - unfold select_tables in Hsel. injection Hsel as <- <-. auto.
  - destruct (select_local _ _ _ _ _ _ Hsel) as [-> Hd0].
    rewrite app_nil_r. split; [exact Hu |].
    assert (Hbd : bucket d0 h =
                  if negb (has_key (no_match_pattern_hashlu re_search dupes
                                      deldir pattern) h) &&
                     Nat.eqb (List.length (hits re_search dupes deldir pattern h)) 1
                  then [] else hits re_search dupes deldir pattern h).
    { unfold bucket. rewrite Hd0.
      destruct (negb _ && _)%bool; [reflexivity |].
      destruct (hits re_search dupes deldir pattern h); reflexivity. }
    destruct (has_key (no_match_pattern_hashlu re_search dupes deldir pattern) h)
      eqn:Hk; simpl in Hbd; [left; exact Hbd |].
    destruct (Nat.eqb (List.length (hits re_search dupes deldir pattern h)) 1)
      eqn:Hone; [| left; exact Hbd].
    right. apply Nat.eqb_eq in Hone.
    split; [reflexivity |]. split; [reflexivity |]. split; [exact Hbd |].
    split; [| exact Hone]. apply bucket_no_key, Hk.
  - unfold select_tables in Hsel. injection Hsel as <- <-. auto.
  - unfold select_tables in Hsel. injection Hsel as <- <-.
    rewrite app_nil_r. auto.
Qed.

(** What the safety pass does to a hash, as lists. *)
Lemma pass_buckets (d k d' k' : LuTable) (pat : string) (h : hash) :
  NoDup (keys d) ->
  check_and_autoselect re_search d k pat = Ok (d', k') ->
  (bucket d' h = bucket d h /\ bucket k' h = bucket k h) \/
  (has_key d h = true /\ has_key k h = false /\
   ((bucket d' h = [] /\ bucket k' h = bucket d h) \/
    exists f, bucket d' h = [f] /\ In f (bucket d h) /\ bucket k' h <> [] /\
              deque_remove f (bucket d h) = Some (bucket k' h))).
Proof.
  intros Hnd Hpass.
  destruct (check_and_autoselect_sound _ _ _ _ _ _ Hnd Hpass) as [Hget _].
  destruct (Hget h) as [Hin Hout].
  destruct (has_key d h) eqn:Hd; [destruct (has_key k h) eqn:Hk |].
  - left. destruct Hout as [Hgd Hgk]; [intros [_ Hf]; discriminate |].
    unfold bucket. rewrite Hgd, Hgk. auto.
  - right. split; [reflexivity |]. split; [reflexivity |].
    specialize (Hin eq_refl eq_refl). unfold outcome in Hin.
    destruct (autoselected re_search pat (bucket d h)) as [f |] eqn:Hf.
    + right. destruct Hin as [Hgd [c [b' [Hrem Hgk]]]]. exists f.
      rewrite (bucket_get _ _ _ Hgd), (bucket_get _ _ _ Hgk).
      split; [reflexivity |]. split; [| split; [discriminate | exact Hrem]].
      apply (autoselected_In _ _ _ _ Hf).
    + left. destruct Hin as [Hgd Hgk].
      rewrite (bucket_get _ _ _ Hgk). unfold bucket at 1. rewrite Hgd. auto.
  - left. destruct Hout as [Hgd Hgk]; [intros [Hf _]; discriminate |].
    unfold bucket. rewrite Hgd, Hgk. auto.
Qed.

(** X9: the safety pass only moves paths from one table to the other: under
    every hash, the paths of the delete table and of the keep table taken
    together are afterwards the same, each as often as before; what was kept
    stays kept and nothing is newly marked for deletion. *)
Theorem check_and_autoselect_moves_only (d k d' k' : LuTable) (pat : string) :
  NoDup (keys d) ->
  check_and_autoselect re_search d k pat = Ok (d', k') ->
  forall h,
    Permutation (bucket d' h ++ bucket k' h) (bucket d h ++ bucket k h) /\
    (forall p, In p (bucket k h) -> In p (bucket k' h)) /\
    (forall p, In p (bucket d' h) -> In p (bucket d h)).
Proof.
  intros Hnd Hpass h.
  destruct (pass_buckets d k d' k' pat h Hnd Hpass)
    as [[-> ->] | [Hd [Hk [[-> ->] | [f [-> [Hin [_ Hrem]]]]]]]].
  - split; [apply Permutation_refl | auto].
  - rewrite (bucket_no_key _ _ Hk), app_nil_r. simpl.
    split; [apply Permutation_refl |]. split; [intros p [] | intros p []].
  - rewrite (bucket_no_key _ _ Hk), app_nil_r. simpl.
    split; [apply Permutation_sym, deque_remove_perm, Hrem |].
    split; [intros p [] |]. intros p [<- | []]. exact Hin.
Qed.

Section Returned.
Variable dupes : LuTable.
Variable deldir : path.
Variable pattern : string.
Variables match_deletions dupes_global autoselect : bool.
Variables d k : LuTable.
Hypothesis Hrun :
  dd3 re_search dupes deldir pattern match_deletions dupes_global autoselect
  = Ok (d, k).

(** X10: whatever the flags, when [dd3] returns, a hash with a path in the
    delete table has a path in the keep table; when the index repeats no
    pair, that path is none of the paths to delete. *)
Theorem dd3_keeps_a_copy (h : hash) :
  has_key d h = true ->
  (exists p, In p (bucket k h)) /\
  (NoDup (items dupes) -> exists p, In p (bucket k h) /\ ~ In p (bucket d h)).
Proof.
  intros Hd.
  destruct (partition.dd3_Ok_inv _ _ _ _ _ _ _ _ _ Hrun)
    as [d0 [k0 [_ [Hsel Hpass]]]].
  destruct (check_and_autoselect_sound _ _ _ _ _ _ (sel_keys_d _ _ _ Hsel) Hpass)
    as [Hget _].
  destruct (Hget h) as [Hin Hout].
  destruct (has_key d0 h) eqn:Hd0; [destruct (has_key k0 h) eqn:Hk0 |].
  - destruct Hout as [Hgd Hgk]; [intros [_ Hf]; discriminate |].
    pose proof (sel_full_k _ _ _ Hsel h) as Hfull.
    unfold has_key in Hk0.
    destruct (get k0 h) as [[| p b] |] eqn:Hg; try congruence.
    assert (Hp : In p (bucket k h)).
    { unfold bucket. rewrite Hgk. left. reflexivity. }
    split; [eauto |]. intros _. exists p. split; [exact Hp |].
    intros Hpd. apply (sel_apart _ _ _ Hsel h p).
    + unfold bucket in *. rewrite <- Hgd. exact Hpd.
    + unfold bucket. rewrite Hg. left. reflexivity.
  - specialize (Hin eq_refl eq_refl). unfold outcome in Hin.
    destruct (autoselected re_search _ (bucket d0 h)) as [f |].
    + destruct Hin as [Hgd [c [b' [Hrem Hgk]]]].
      rewrite (bucket_get _ _ _ Hgd), (bucket_get _ _ _ Hgk).
      split; [exists c; left; reflexivity |].
      intros Hnd. exists c. split; [left; reflexivity |].
      intros [<- | []].
      apply (deque_remove_NoDup f (bucket d0 h) (f :: b')); auto.
      * apply (sel_nodup _ _ _ Hsel), partition.NoDup_known, Hnd.
      * left. reflexivity.
    + destruct Hin as [Hgd _]. unfold has_key in Hd. rewrite Hgd in Hd.
      discriminate.
  - destruct Hout as [Hgd _]; [intros [Hf _]; discriminate |].
    unfold has_key in Hd, Hd0. rewrite Hgd in Hd. congruence.
Qed.

Lemma returned_buckets (h : hash) :
  (forall p, In p (bucket d h) ->
             In p (marked_delete re_search dupes deldir pattern
                     match_deletions dupes_global h)) /\
  (forall p, In p (marked_keep re_search dupes deldir pattern
                     match_deletions dupes_global h) ->
             In p (bucket k h)).
Proof.
  destruct (partition.dd3_Ok_inv _ _ _ _ _ _ _ _ _ Hrun)
    as [d0 [k0 [Hsel [Hprop Hpass]]]].
  destruct (select_tables_buckets _ _ _ _ _ _ _ Hsel h) as [Hk0 Hd0].
  assert (Hsub : forall p, In p (bucket d0 h) ->
                           In p (marked_delete re_search dupes deldir pattern
                                   match_deletions dupes_global h)).
  { destruct Hd0 as [-> | [_ [_ [-> _]]]]; [auto | intros p []]. }
  rewrite <- Hk0.
  destruct (pass_buckets d0 k0 d k _ h (sel_keys_d _ _ _ Hprop) Hpass)
    as [[-> ->] | [Hd [Hk [[-> ->] | [f [-> [Hin [_ Hrem]]]]]]]].
  - auto.
  - rewrite (bucket_no_key _ _ Hk). split; [intros p [] | intros p []].
  - rewrite (bucket_no_key _ _ Hk).
    split; [| intros p []]. intros p [<- | []]. auto.
Qed.

(** X11: [dd3] marks for deletion only paths of the index that the flags
    designate: with [match_deletions], paths under [deldir] whose file name
    the pattern finds; without it, never such a path; and in local scope
    only paths under [deldir]. *)
Theorem dd3_deletes_within_marks (h : hash) (p : path) :
  In p (bucket d h) ->
  In (h, p) (items dupes) /\
  (match_deletions = true ->
   is_relative_to p deldir = true /\ re_search pattern (name p) = true) /\
  (match_deletions = false ->
   is_relative_to p deldir = false \/ re_search pattern (name p) = false) /\
  (dupes_global = false -> is_relative_to p deldir = true).
Proof.
  intros Hp. apply (proj1 (returned_buckets h)) in Hp.
  unfold marked_delete in Hp.
  destruct match_deletions.
  - apply In_hits in Hp. destruct Hp as [Hk [Hrel Hre]].
    split; [apply paths_of_In, Hk |].
    split; [intros _; split; assumption |].
    split; [discriminate | intros _; assumption].
  - apply in_app_or in Hp. destruct Hp as [Hp | Hp].
    + apply In_misses in Hp. destruct Hp as [Hk [Hrel Hre]].
      split; [apply paths_of_In, Hk |].
      split; [discriminate |].
      split; [intros _; right; assumption | intros _; assumption].
    + destruct dupes_global; [| destruct Hp].
      apply (In_beyond re_search dupes deldir pattern) in Hp. destruct Hp as [Hk Hrel].
      split; [apply paths_of_In, Hk |].
      split; [discriminate |].
      split; [intros _; left; assumption | discriminate].
Qed.

(** X12: [dd3] keeps what the flags designate to keep: without
    [match_deletions] every path under [deldir] whose file name the pattern
    finds is in the keep table; with it every path under [deldir] that the
    pattern does not find is, and in global scope the copies outside too. *)
Theorem dd3_keeps_marks (h : hash) (p : path) :
  In (h, p) (items dupes) ->
  (match_deletions = false -> is_relative_to p deldir = true ->
   re_search pattern (name p) = true -> In p (bucket k h)) /\
  (match_deletions = true -> is_relative_to p deldir = true ->
   re_search pattern (name p) = false -> In p (bucket k h)) /\
  (match_deletions = true -> dupes_global = true ->
   inside dupes deldir h <> [] -> is_relative_to p deldir = false ->
   In p (bucket k h)).
Proof.
  intros Hp. apply paths_of_In in Hp. fold (known dupes h) in Hp.
  pose proof (proj2 (returned_buckets h)) as Hkeep.
  unfold marked_keep in Hkeep. split; [| split].
  - intros Hmd Hrel Hre. rewrite Hmd in Hkeep. apply Hkeep.
    apply In_hits. auto.
  - intros Hmd Hrel Hre. rewrite Hmd in Hkeep. apply Hkeep.
    apply in_or_app. left. apply In_misses. auto.
  - intros Hmd Hg Hin Hrel. rewrite Hmd, Hg in Hkeep. apply Hkeep.
    apply in_or_app. right. unfold beyond.
    destruct (inside dupes deldir h); [congruence |].
    apply filter_In. split; [exact Hp |]. rewrite Hrel. reflexivity.
Qed.

(** X13: a hash without path under [deldir] is a key of neither table that
    [dd3] returns, in every mode. *)
Theorem dd3_ignores_foreign_hash (h : hash) :
  inside dupes deldir h = [] ->
  has_key d h = false /\ has_key k h = false.
Proof.
  intros Hin.
  destruct (partition.dd3_Ok_inv _ _ _ _ _ _ _ _ _ Hrun)
    as [d0 [k0 [Hsel [Hprop Hpass]]]].
  destruct (select_tables_buckets _ _ _ _ _ _ _ Hsel h) as [Hk0 Hd0].
  assert (Hh : hits re_search dupes deldir pattern h = []).
  { unfold hits. rewrite Hin. reflexivity. }
  assert (Hm : misses re_search dupes deldir pattern h = []).
  { unfold misses. rewrite Hin. reflexivity. }
  assert (Hb : beyond dupes deldir h = []).
  { unfold beyond. rewrite Hin. reflexivity. }
  assert (Hbk : bucket k0 h = []).
  { rewrite Hk0. unfold marked_keep. rewrite Hh, Hm, Hb.
    destruct match_deletions, dupes_global; reflexivity. }
  assert (Hbd : bucket d0 h = []).
  { destruct Hd0 as [-> | [_ [_ [-> _]]]]; [| reflexivity].
    unfold marked_delete. rewrite Hh, Hm, Hb.
    destruct match_deletions, dupes_global; reflexivity. }
  assert (Hgd : get d0 h = None).
  { pose proof (sel_full_d _ _ _ Hprop h) as Hf. unfold bucket in Hbd.
    destruct (get d0 h); [congruence | reflexivity]. }
  assert (Hgk : get k0 h = None).
  { pose proof (sel_full_k _ _ _ Hprop h) as Hf. unfold bucket in Hbk.
    destruct (get k0 h); [congruence | reflexivity]. }
  destruct (check_and_autoselect_sound _ _ _ _ _ _ (sel_keys_d _ _ _ Hprop) Hpass)
    as [Hget _].
  destruct (Hget h) as [_ Hout].
  destruct Hout as [Hd Hk].
  - intros [Hf _]. unfold has_key in Hf. rewrite Hgd in Hf. discriminate.
  - unfold has_key. rewrite Hd, Hk, Hgd, Hgk. auto.
Qed.

Lemma filter_split_perm {A : Type} (f : A -> bool) (l : list A) :
  Permutation (filter f l ++ filter (fun x => negb (f x)) l) l.
Proof.
  induction l as [| x l IH]; simpl; [constructor |].
  destruct (f x); simpl.
  - apply perm_skip, IH.
  - apply Permutation_sym, Permutation_cons_app, Permutation_sym, IH.
Qed.

Lemma filter_split_length {A : Type} (f : A -> bool) (l : list A) :
  List.length (filter f l) + List.length (filter (fun x => negb (f x)) l)
  = List.length l.
Proof.
  rewrite <- length_app. apply Permutation_length, filter_split_perm.
Qed.

Lemma hits_misses_inside (h : hash) :
  Permutation (hits re_search dupes deldir pattern h ++
               misses re_search dupes deldir pattern h)
    (inside dupes deldir h).
Proof. unfold hits, misses. apply filter_split_perm. Qed.

Lemma inside_beyond_known (h : hash) :
  inside dupes deldir h <> [] ->
  Permutation (inside dupes deldir h ++ beyond dupes deldir h) (known dupes h).
Proof.
  intros Hin. unfold beyond.
  destruct (inside dupes deldir h) eqn:Hi; [congruence |].
  rewrite <- Hi. unfold inside. apply filter_split_perm.
Qed.

Lemma pass_perm (h : hash) (d0 k0 : LuTable) (pat : string) :
  NoDup (keys d0) ->
  check_and_autoselect re_search d0 k0 pat = Ok (d, k) ->
  Permutation (bucket d h ++ bucket k h) (bucket d0 h ++ bucket k0 h).
Proof.
  intros Hnd Hpass.
  destruct (pass_buckets d0 k0 d k pat h Hnd Hpass)
    as [[-> ->] | [Hd [Hk [[-> ->] | [f [-> [Hin [_ Hrem]]]]]]]].
  - apply Permutation_refl.
  - rewrite (bucket_no_key _ _ Hk), app_nil_r. apply Permutation_refl.
  - rewrite (bucket_no_key _ _ Hk), app_nil_r. simpl.
    apply Permutation_sym, deque_remove_perm, Hrem.
Qed.

(** X15: [dd3] loses no path of a hash that it treats: under every hash the
    two returned tables hold, together, the paths of the index under
    [deldir] and, in global scope, those outside, each as often as the
    index has it. The one exception is the lone local copy that local scope
    drops from both tables. In global scope a hash with a path under
    [deldir] has all its paths in the two tables. *)
Theorem dd3_nothing_lost (h : hash) :
  (Permutation (bucket d h ++ bucket k h)
     (inside dupes deldir h ++
      (if dupes_global then beyond dupes deldir h else []))
   \/
   (match_deletions = true /\ dupes_global = false /\
    bucket d h = [] /\ bucket k h = [] /\
    List.length (inside dupes deldir h) = 1)) /\
  (dupes_global = true -> inside dupes deldir h <> [] ->
   Permutation (bucket d h ++ bucket k h) (known dupes h)).
Proof.
  destruct (partition.dd3_Ok_inv _ _ _ _ _ _ _ _ _ Hrun)
    as [d0 [k0 [Hsel [Hprop Hpass]]]].
  destruct (select_tables_buckets _ _ _ _ _ _ _ Hsel h) as [Hk0 Hd0].
  pose proof (pass_perm h d0 k0 _ (sel_keys_d _ _ _ Hprop) Hpass) as Hperm.
  assert (Hmain :
    Permutation (bucket d h ++ bucket k h)
      (inside dupes deldir h ++
       (if dupes_global then beyond dupes deldir h else []))
    \/
    (match_deletions = true /\ dupes_global = false /\
     bucket d h = [] /\ bucket k h = [] /\
     List.length (inside dupes deldir h) = 1)).
  { destruct Hd0 as [Hd0 | [Hmd [Hg [Hd0 [Hk0' Hone]]]]].
    - left. eapply perm_trans; [exact Hperm |]. rewrite Hd0, Hk0.
      unfold marked_delete, marked_keep. destruct match_deletions.
      + rewrite app_assoc. apply Permutation_app_tail, hits_misses_inside.
      + eapply perm_trans; [apply Permutation_app_comm |].
        rewrite app_assoc. apply Permutation_app_tail, hits_misses_inside.
    - right. rewrite Hd0, Hk0' in Hperm. simpl in Hperm.
      apply Permutation_sym, Permutation_nil in Hperm.
      apply app_eq_nil in Hperm. destruct Hperm as [Hdn Hkn].
      repeat split; auto.
      assert (Hmiss : misses re_search dupes deldir pattern h = []).
      { rewrite Hk0 in Hk0'. unfold marked_keep in Hk0'. rewrite Hmd in Hk0'.
        apply app_eq_nil in Hk0'. tauto. }
      rewrite <- (Permutation_length (hits_misses_inside h)).
      rewrite length_app, Hmiss, Hone. reflexivity. }
  split; [exact Hmain |].
  intros Hg Hin. destruct Hmain as [Hp | [_ [Hg' _]]]; [| congruence].
  rewrite Hg in Hp. eapply perm_trans; [exact Hp |].
  apply inside_beyond_known, Hin.
Qed.

End Returned.

(** X14: once the pattern has compiled, the rest of [dd3] raises nothing
    in any mode but the local one without [match_deletions]: the two tables
    are sorted out (no [KeyError] in the loop of the local-only branch) and
    [check_and_autoselect] returns on them (no [KeyError], no [ValueError]
    and no failed [assert]); in local scope with [match_deletions] always,
    in global scope as soon as every hash of the index lists two paths. *)
Theorem dd3_pass_returns (dupes : LuTable) (deldir : path) (pattern : string)
  (match_deletions dupes_global autoselect : bool) :
  (dupes_global = false -> match_deletions = true) ->
  (dupes_global = true ->
   forall h, known dupes h <> [] -> 2 <= List.length (known dupes h)) ->
  exists d0 k0 d k,
    select_tables re_search dupes deldir pattern match_deletions dupes_global
    = Ok (d0, k0) /\
    check_and_autoselect re_search d0 k0 (if autoselect then "." else "a^")
    = Ok (d, k).
Proof.
  intros Hlocal Hglobal.
  destruct (select_tables_selected re_search dupes deldir pattern
              match_deletions dupes_global) as [d0 [k0 [Hsel Hprop]]].
  exists d0, k0.
  cut (exists d k,
          check_and_autoselect re_search d0 k0
            (if autoselect then "." else "a^") = Ok (d, k)).
  { intros [d [k Hpass]]. exists d, k. split; assumption. }
  apply (check_and_autoselect_total re_search d0 k0 _ (sel_keys_d _ _ _ Hprop)).
  intros h Hd Hk f _.
  destruct (select_tables_buckets _ _ _ _ _ _ _ Hsel h) as [Hk0 Hd0].
  assert (Hbd : bucket d0 h <> []).
  { pose proof (sel_full_d _ _ _ Hprop h) as Hf. unfold has_key in Hd.
    unfold bucket. destruct (get d0 h) as [b |]; [congruence | discriminate]. }
  pose proof (bucket_no_key _ _ Hk) as Hbk. rewrite Hk0 in Hbk.
  destruct dupes_global.
  - specialize (Hglobal eq_refl h).
    destruct Hd0 as [Hd0 | [_ [Hf _]]]; [| discriminate].
    rewrite Hd0 in *. unfold marked_keep, marked_delete in *.
    assert (Hins : inside dupes deldir h <> []).
    { intros Hnil. apply Hbd. unfold hits, misses, beyond. rewrite Hnil.
      destruct match_deletions; reflexivity. }
    pose proof (Permutation_length (inside_beyond_known dupes deldir h Hins))
      as Hlen.
    pose proof (Permutation_length
                  (hits_misses_inside dupes deldir pattern h)) as Hlen2.
    rewrite length_app in Hlen, Hlen2.
    assert (Hkn : known dupes h <> []).
    { intros Hnil. apply Hins. unfold inside. rewrite Hnil. reflexivity. }
    specialize (Hglobal Hkn).
    destruct match_deletions.
    + apply app_eq_nil in Hbk. destruct Hbk as [Hm Hb].
      rewrite Hm, Hb in *. simpl in *. lia.
    + rewrite Hbk in *. rewrite length_app. simpl in *. lia.
  - rewrite (Hlocal eq_refl) in *.
    destruct (select_local _ _ _ _ _ _ Hsel) as [Hk0' Hget].
    unfold has_key in Hd. unfold bucket. rewrite Hget in *. rewrite Hk in *.
    simpl in *.
    destruct (hits re_search dupes deldir pattern h) as [| p [| q l]];
      simpl in *; try discriminate. lia.
Qed.

End Engine.

Lemma check_and_autoselect_moves_only_witness :
  Permutation
    (bucket [("H1", [["a"; "p"]])] "H1" ++ bucket [("H1", [["a"; "q"]])] "H1")
    (bucket [("H1", [["a"; "p"]; ["a"; "q"]])] "H1" ++ bucket [] "H1") /\
  (forall p, In p (bucket [] "H1") ->
             In p (bucket [("H1", [["a"; "q"]])] "H1")) /\
  (forall p, In p (bucket [("H1", [["a"; "p"]])] "H1") ->
             In p (bucket [("H1", [["a"; "p"]; ["a"; "q"]])] "H1")).
Proof.
  apply (check_and_autoselect_moves_only plain_search
           [("H1", [["a"; "p"]; ["a"; "q"]])] []
           [("H1", [["a"; "p"]])] [("H1", [["a"; "q"]])] ".").
  - repeat constructor. simpl. tauto.
  - reflexivity.
Defined.

(** The index [{H1: [/a/x, /a/y, /b/z]}], [deldir = /a], pattern [y],
    matches deleted, global scope, no autoselect: [/a/y] is deleted and the
    two others are kept. *)
Lemma dd3_keeps_a_copy_witness :
  (exists p, In p (bucket [("H1", [["a"; "x"]; ["b"; "z"]])] "H1")) /\
  (NoDup (items [("H1", [["a"; "x"]; ["a"; "y"]; ["b"; "z"]])]) ->
   exists p, In p (bucket [("H1", [["a"; "x"]; ["b"; "z"]])] "H1") /\
             ~ In p (bucket [("H1", [["a"; "y"]])] "H1")).
Proof.
  apply (dd3_keeps_a_copy plain_search
           [("H1", [["a"; "x"]; ["a"; "y"]; ["b"; "z"]])] ["a"] "y"
           true true false
           [("H1", [["a"; "y"]])] [("H1", [["a"; "x"]; ["b"; "z"]])]
           eq_refl "H1").
  reflexivity.
Defined.

Lemma dd3_deletes_within_marks_witness :
  In ("H1", ["a"; "y"]) (items [("H1", [["a"; "x"]; ["a"; "y"]; ["b"; "z"]])])
  /\
  (true = true ->
   is_relative_to ["a"; "y"] ["a"] = true /\
   plain_search "y" (name ["a"; "y"]) = true) /\
  (true = false ->
   is_relative_to ["a"; "y"] ["a"] = false \/
   plain_search "y" (name ["a"; "y"]) = false) /\
  (true = false -> is_relative_to ["a"; "y"] ["a"] = true).
Proof.
  apply (dd3_deletes_within_marks plain_search
           [("H1", [["a"; "x"]; ["a"; "y"]; ["b"; "z"]])] ["a"] "y"
           true true false
           [("H1", [["a"; "y"]])] [("H1", [["a"; "x"]; ["b"; "z"]])]
           eq_refl "H1" ["a"; "y"]).
  left. reflexivity.
Defined.

Lemma dd3_keeps_marks_witness :
  (true = false -> is_relative_to ["b"; "z"] ["a"] = true ->
   plain_search "y" (name ["b"; "z"]) = true ->
   In ["b"; "z"] (bucket [("H1", [["a"; "x"]; ["b"; "z"]])] "H1")) /\
  (true = true -> is_relative_to ["b"; "z"] ["a"] = true ->
   plain_search "y" (name ["b"; "z"]) = false ->
   In ["b"; "z"] (bucket [("H1", [["a"; "x"]; ["b"; "z"]])] "H1")) /\
  (true = true -> true = true ->
   inside [("H1", [["a"; "x"]; ["a"; "y"]; ["b"; "z"]])] ["a"] "H1" <> [] ->
   is_relative_to ["b"; "z"] ["a"] = false ->
   In ["b"; "z"] (bucket [("H1", [["a"; "x"]; ["b"; "z"]])] "H1")).
Proof.
  apply (dd3_keeps_marks plain_search
           [("H1", [["a"; "x"]; ["a"; "y"]; ["b"; "z"]])] ["a"] "y"
           true true false
           [("H1", [["a"; "y"]])] [("H1", [["a"; "x"]; ["b"; "z"]])]
           eq_refl "H1" ["b"; "z"]).
  right. right. left. reflexivity.
Defined.

Lemma dd3_ignores_foreign_hash_witness :
  has_key [("H1", [["a"; "y"]])] "H2" = false /\
  has_key [("H1", [["a"; "x"]; ["b"; "z"]])] "H2" = false.
Proof.
  apply (dd3_ignores_foreign_hash plain_search
           [("H1", [["a"; "x"]; ["a"; "y"]; ["b"; "z"]]);
            ("H2", [["b"; "u"]; ["b"; "v"]])] ["a"] "y"
           true true false
           [("H1", [["a"; "y"]])] [("H1", [["a"; "x"]; ["b"; "z"]])]
           eq_refl "H2").
  reflexivity.
Defined.

Lemma dd3_nothing_lost_witness :
  (Permutation
     (bucket [("H1", [["a"; "y"]])] "H1" ++
      bucket [("H1", [["a"; "x"]; ["b"; "z"]])] "H1")
     (inside [("H1", [["a"; "x"]; ["a"; "y"]; ["b"; "z"]])] ["a"] "H1" ++
      beyond [("H1", [["a"; "x"]; ["a"; "y"]; ["b"; "z"]])] ["a"] "H1")
   \/
   (true = true /\ true = false /\
    bucket [("H1", [["a"; "y"]])] "H1" = [] /\
    bucket [("H1", [["a"; "x"]; ["b"; "z"]])] "H1" = [] /\
    List.length
      (inside [("H1", [["a"; "x"]; ["a"; "y"]; ["b"; "z"]])] ["a"] "H1") = 1))
  /\
  (true = true ->
   inside [("H1", [["a"; "x"]; ["a"; "y"]; ["b"; "z"]])] ["a"] "H1" <> [] ->
   Permutation
     (bucket [("H1", [["a"; "y"]])] "H1" ++
      bucket [("H1", [["a"; "x"]; ["b"; "z"]])] "H1")
     (known [("H1", [["a"; "x"]; ["a"; "y"]; ["b"; "z"]])] "H1")).
Proof.
  apply (dd3_nothing_lost plain_search
           [("H1", [["a"; "x"]; ["a"; "y"]; ["b"; "z"]])] ["a"] "y"
           true true false
           [("H1", [["a"; "y"]])] [("H1", [["a"; "x"]; ["b"; "z"]])]
           eq_refl "H1").
Defined.

Lemma dd3_pass_returns_witness :
  exists d0 k0 d k,
    select_tables plain_search [("H1", [["a"; "x"]; ["a"; "y"]; ["b"; "z"]])]
      ["a"] "y" false true = Ok (d0, k0) /\
    check_and_autoselect plain_search d0 k0 (if true then "." else "a^")
    = Ok (d, k).
Proof.
  apply (dd3_pass_returns plain_search
           [("H1", [["a"; "x"]; ["a"; "y"]; ["b"; "z"]])] ["a"] "y"
           false true true).
  - discriminate.
  - intros _ h Hne. unfold known, paths_of, items in *.
    cbn [flat_map map app filter fst snd] in *.
    destruct (String.eqb "H1" h); cbn [map List.length] in *;
      [lia | congruence].
Defined.

End partition_laws.

(** * More of validation and deletion *)

Module execution_laws.
Import lutable lutable_facts dupetable executor dupetable_rest execution.

Lemma check_file_regular (fs : disk) (p : path) :
  check_file fs p = Ok tt <-> regular fs p.
Proof.
  unfold check_file, regular, path_exists, is_dir, is_symlink.
  destruct (lstat fs p) as [[| | []] |]; simpl; split; congruence.
Qed.

Lemma validate_Ok_when (self : Dupetable) (fs : disk) :
  (forall h p, In p (bucket (_keeptable self) h) ->
               In p (bucket (_deltable self) h) -> False) ->
  (forall p, In p (chain_values (_keeptable self) ++
                   chain_values (_deltable self)) -> regular fs p) ->
  validate self fs = Ok tt.
Proof.
  intros Hno Hreg. unfold validate.
  set (common := filter (has_key (_deltable self)) (keys (_keeptable self))).
  destruct (for_each_test (check_common self) common)
    as [[Hrun1 _] | [before [key [after [e [Hl [_ [Hkey Hrun1]]]]]]]];
    rewrite Hrun1; simpl.
  - destruct (for_each_test (check_file fs)
                (chain_values (_keeptable self) ++ chain_values (_deltable self)))
      as [[Hrun2 _] | [before [q [after [e [Hl [_ [Hq Hrun2]]]]]]]];
      rewrite Hrun2; [reflexivity |].
    exfalso.
    assert (Hin : In q (chain_values (_keeptable self) ++
                        chain_values (_deltable self))).
    { rewrite Hl. apply in_elt. }
    apply Hreg, check_file_regular in Hin. congruence.
  - exfalso.
    assert (Hin : In key common) by (rewrite Hl; apply in_elt).
    apply filter_In in Hin. destruct Hin as [Hk Hd].
    apply has_key_In in Hk.
    assert (Hok : check_common self key = Ok tt).
    { apply (check_common_Ok self key Hk Hd). intros f. apply Hno. }
    congruence.
Qed.

(** X17: [validate] returns exactly when the two tables share no pair and
    every path of both tables is a regular file on the disk (no missing
    path, no directory, no symbolic link). *)
Theorem validate_Ok_iff (self : Dupetable) (fs : disk) :
  validate self fs = Ok tt <->
  (forall h p, In p (bucket (_keeptable self) h) ->
               In p (bucket (_deltable self) h) -> False) /\
  (forall p, In p (chain_values (_keeptable self) ++
                   chain_values (_deltable self)) -> regular fs p).
Proof.
  unfold validate.
  set (common := filter (has_key (_deltable self)) (keys (_keeptable self))).
  assert (Hcommon : forall key, In key common ->
                      has_key (_keeptable self) key = true /\
                      has_key (_deltable self) key = true).
  { intros key Hin. apply filter_In in Hin. destruct Hin as [Hk Hd].
    split; [apply has_key_In, Hk | exact Hd]. }
  destruct (for_each_test (check_common self) common)
    as [[Hrun1 Hall1] | [before [key [after [e [Hl [_ [Hkey Hrun1]]]]]]]];
    rewrite Hrun1; simpl.
  - destruct (for_each_test (check_file fs)
                (chain_values (_keeptable self) ++ chain_values (_deltable self)))
      as [[Hrun2 Hall2] | [before [q [after [e [Hl [_ [Hq Hrun2]]]]]]]];
      rewrite Hrun2.
    + split; [| reflexivity]. intros _. split.
      * intros h p Hk Hd.
        assert (Hkk : has_key (_keeptable self) h = true).
        { unfold has_key. unfold bucket in Hk.
          destruct (get (_keeptable self) h); [reflexivity | destruct Hk]. }
        assert (Hdk : has_key (_deltable self) h = true).
        { unfold has_key. unfold bucket in Hd.
          destruct (get (_deltable self) h); [reflexivity | destruct Hd]. }
        assert (Hin : In h common).
        { apply filter_In. split; [apply has_key_In, Hkk | exact Hdk]. }
        apply (proj1 (check_common_Ok self h Hkk Hdk) (Hall1 h Hin) p Hk Hd).
      * intros p Hp. apply check_file_regular, Hall2, Hp.
    + split; [discriminate |]. intros [_ Hreg]. exfalso.
      assert (Hin : In q (chain_values (_keeptable self) ++
                          chain_values (_deltable self))).
      { rewrite Hl. apply in_elt. }
      apply Hreg, check_file_regular in Hin. congruence.
  - split; [discriminate |]. intros [Hno _]. exfalso.
    assert (Hin : In key common) by (rewrite Hl; apply in_elt).
    destruct (Hcommon key Hin) as [Hk Hd].
    assert (Hok : check_common self key = Ok tt).
    { apply (check_common_Ok self key Hk Hd). intros f. apply Hno. }
    congruence.
Qed.

Section Engine.
Variable re_search : string -> string -> bool.

(** X16: what [dedupe] stores passes the first test of [validate]: for an
    index that repeats no pair, [validate] never raises [DupeNotValidated]
    on the tables of [dd3], and it returns as soon as every path of the
    two tables is a regular file. *)
Theorem dedupe_never_overlaps (dupes : LuTable) (deldir : path)
  (pattern : string) (match_deletions dupes_global autoselect : bool)
  (self : Dupetable) (fs : disk) :
  NoDup (items dupes) ->
  dedupe re_search dupes deldir pattern match_deletions dupes_global autoselect
  = Ok self ->
  _deduped self = true /\
  validate self fs <> Raise DupeNotValidated /\
  ((forall p, In p (chain_values (_keeptable self) ++
                    chain_values (_deltable self)) -> regular fs p) ->
   validate self fs = Ok tt).
Proof.
  intros Hnd Hded. unfold dedupe in Hded. apply bind_Ok_inv in Hded.
  destruct Hded as [[d k] [Hrun Hself]]. injection Hself as <-. simpl.
  assert (Hapart : forall h p, In p (bucket k h) -> In p (bucket d h) -> False).
  { intros h p Hk Hd.
    destruct (partition.dd3_Ok_inv _ _ _ _ _ _ _ _ _ Hrun)
      as [d0 [k0 [_ [Hsel Hpass]]]].
    destruct (partition_laws.pass_buckets re_search d0 k0 d k _ h
                (sel_keys_d _ _ _ Hsel) Hpass)
      as [[Hd' Hk'] | [Hd0 [Hk0 [[Hd' Hk'] | [f [Hd' [Hin [_ Hrem]]]]]]]].
    - rewrite Hd' in Hd. rewrite Hk' in Hk.
      exact (sel_apart _ _ _ Hsel h p Hd Hk).
    - rewrite Hd' in Hd. destruct Hd.
    - rewrite Hd' in Hd. destruct Hd as [<- | []].
      apply (deque_remove_NoDup f (bucket d0 h) (bucket k h)); auto.
      apply (sel_nodup _ _ _ Hsel), partition.NoDup_known, Hnd. }
  split; [reflexivity |]. split.
  - intros Hraise. apply validate_raised_for in Hraise.
    destruct Hraise as [_ Hfile].
    destruct Hfile as [before [q [after [_ [_ [Hq _]]]]]].
    + intros [h [f [Hk Hd]]]. simpl in Hk, Hd. exact (Hapart h f Hk Hd).
    + unfold check_file in Hq.
      destruct (path_exists fs q), (is_dir fs q), (is_symlink fs q);
        simpl in Hq; discriminate.
  - intros Hreg. apply validate_Ok_when; [| exact Hreg].
    simpl. exact Hapart.
Qed.

End Engine.

Lemma dedupe_never_overlaps_witness :
  _deduped {| _keeptable := [("H1", [["a"; "x"]; ["b"; "z"]])];
              _deltable := [("H1", [["a"; "y"]])]; _deduped := true |} = true /\
  validate {| _keeptable := [("H1", [["a"; "x"]; ["b"; "z"]])];
              _deltable := [("H1", [["a"; "y"]])]; _deduped := true |}
    [(["a"; "x"], Regular)] <> Raise DupeNotValidated /\
  ((forall p,
       In p (chain_values [("H1", [["a"; "x"]; ["b"; "z"]])] ++
             chain_values [("H1", [["a"; "y"]])]) ->
       regular [(["a"; "x"], Regular)] p) ->
   validate {| _keeptable := [("H1", [["a"; "x"]; ["b"; "z"]])];
               _deltable := [("H1", [["a"; "y"]])]; _deduped := true |}
     [(["a"; "x"], Regular)] = Ok tt).
Proof.
  apply (dedupe_never_overlaps plain_search
           [("H1", [["a"; "x"]; ["a"; "y"]; ["b"; "z"]])] ["a"] "y"
           true true false
           {| _keeptable := [("H1", [["a"; "x"]; ["b"; "z"]])];
              _deltable := [("H1", [["a"; "y"]])]; _deduped := true |}
           [(["a"; "x"], Regular)]).
  - repeat constructor; simpl; intuition discriminate.
  - reflexivity.
Defined.

Lemma substring_all (s : string) : substring 0 (String.length s) s = s.
Proof.
  induction s as [| c s IH]; simpl; [reflexivity | rewrite IH; reflexivity].
Qed.

Lemma substring_cut (s : string) :
  forall i, i <= String.length s ->
    String.append (substring 0 i s) (substring i (String.length s - i) s) = s.
Proof.
  induction s as [| c s IH]; intros i Hi; simpl in Hi.
  - assert (i = 0) by lia. subst i. reflexivity.
  - destruct i as [| i].
    + simpl. rewrite substring_all. reflexivity.
    + simpl. rewrite IH by lia. reflexivity.
Qed.

Lemma rfind_dot_bound (s : string) (i : nat) :
  rfind_dot s = Some i -> i < String.length s.
Proof.
  revert i. induction s as [| c s IH]; simpl; intros i; [discriminate |].
  destruct (rfind_dot s) as [j |].
  - intros Hi. injection Hi as <-. specialize (IH j eq_refl). lia.
  - destruct (Ascii.eqb c "."%char); [| discriminate].
    intros Hi. injection Hi as <-. lia.
Qed.

Lemma stem_suffix_append (nm : string) :
  String.append (fst (stem_suffix nm)) (snd (stem_suffix nm)) = nm.
Proof.
  unfold stem_suffix. destruct (rfind_dot nm) as [i |] eqn:Hi.
  - destruct (Nat.ltb 0 i && Nat.ltb i (String.length nm - 1))%bool; simpl.
    + apply substring_cut. apply rfind_dot_bound in Hi. lia.
    + clear Hi. induction nm as [| c nm IH]; simpl; [reflexivity |].
      rewrite IH. reflexivity.
  - simpl. induction nm as [| c nm IH]; simpl; [reflexivity |].
    rewrite IH; [reflexivity |]. simpl in Hi.
    destruct (rfind_dot nm); [discriminate | reflexivity].
Qed.

Lemma rename_loop_least (fs : disk) (file : path) (file_stem suffix : string) :
  file <> [] ->
  forall fuel numb n,
    numb <= n < numb + fuel ->
    path_exists fs (candidate file file_stem suffix n) = false ->
    (forall m, numb <= m < n ->
               path_exists fs (candidate file file_stem suffix m) = true) ->
    rename_loop fs file file_stem suffix numb fuel
    = Ok (candidate file file_stem suffix n).
Proof.
  intros Hfile. induction fuel as [| fuel IH]; intros numb n Hn Hfree Hbusy.
  - lia.
  - rewrite (rename_loop_step _ _ _ _ _ _ Hfile).
    destruct (Nat.eq_dec numb n) as [-> | Hne].
    + rewrite Hfree. reflexivity.
    + rewrite (Hbusy numb) by lia. apply IH; [lia | exact Hfree |].
      intros m Hm. apply Hbusy. lia.
Qed.

Lemma least_free (fs : disk) (file : path) (file_stem suffix : string) :
  forall bound lo,
    (exists k, lo <= k < lo + bound /\
               path_exists fs (candidate file file_stem suffix k) = false) ->
    exists n, lo <= n < lo + bound /\
              path_exists fs (candidate file file_stem suffix n) = false /\
              forall m, lo <= m < n ->
                path_exists fs (candidate file file_stem suffix m) = true.
Proof.
  induction bound as [| bound IH]; intros lo [k [Hk Hfree]]; [lia |].
  destruct (path_exists fs (candidate file file_stem suffix lo)) eqn:Hlo.
  - destruct (IH (S lo)) as [n [Hn [Hnf Hnb]]].
    + exists k. split; [| exact Hfree].
      assert (k <> lo) by (intros ->; congruence). lia.
    + exists n. split; [lia |]. split; [exact Hnf |].
      intros m Hm. destruct (Nat.eq_dec m lo) as [-> | Hne]; [exact Hlo |].
      apply Hnb. lia.
  - exists lo. split; [lia |]. split; [exact Hlo |]. intros m Hm. lia.
Qed.

(** X18: [rename_if_exists] returns, for every path with a name, a path of
    the same directory that does not exist: the path itself when it does
    not exist, and otherwise the name with [_n] put between stem and suffix,
    for the least [n >= 1] whose name is free. *)
Theorem rename_if_exists_fresh (fs : disk) (file : path) :
  file <> [] ->
  exists newPath,
    rename_if_exists fs file = Ok newPath /\
    path_exists fs newPath = false /\
    parent newPath = parent file /\
    String.append (fst (stem_suffix (name file))) (snd (stem_suffix (name file)))
    = name file /\
    ((path_exists fs file = false /\ newPath = file) \/
     (path_exists fs file = true /\
      exists n,
        1 <= n /\
        name newPath =
        String.append (fst (stem_suffix (name file)))
          (String.append "_"
             (String.append (str n) (snd (stem_suffix (name file))))) /\
        forall m, 1 <= m < n ->
          path_exists fs
            (candidate file (fst (stem_suffix (name file)))
               (snd (stem_suffix (name file))) m) = true)).
Proof.
  intros Hfile. unfold rename_if_exists.
  destruct (path_exists fs file) eqn:Hex.
  - set (st := fst (stem_suffix (name file))).
    set (sf := snd (stem_suffix (name file))).
    destruct (least_free fs file st sf (S (List.length fs)) 1
                (candidate_free fs file st sf)) as [n [Hn [Hfree Hbusy]]].
    exists (candidate file st sf n).
    split; [apply (rename_loop_least fs file st sf Hfile); assumption |].
    split; [exact Hfree |]. split; [| split].
    + unfold parent, candidate. apply removelast_last.
    + apply stem_suffix_append.
    + right. split; [reflexivity |]. exists n. split; [lia |]. split.
      * unfold name, candidate. apply last_last.
      * exact Hbusy.
  - exists file. split; [reflexivity |]. split; [exact Hex |].
    split; [reflexivity |]. split; [apply stem_suffix_append |]. auto.
Qed.

Lemma rename_if_exists_fresh_witness :
  exists newPath,
    rename_if_exists [(["t"; "x.txt"], Regular); (["t"; "x_1.txt"], Regular)]
      ["t"; "x.txt"] = Ok newPath /\
    path_exists [(["t"; "x.txt"], Regular); (["t"; "x_1.txt"], Regular)]
      newPath = false /\
    parent newPath = parent ["t"; "x.txt"] /\
    String.append (fst (stem_suffix (name ["t"; "x.txt"])))
      (snd (stem_suffix (name ["t"; "x.txt"]))) = name ["t"; "x.txt"] /\
    ((path_exists [(["t"; "x.txt"], Regular); (["t"; "x_1.txt"], Regular)]
        ["t"; "x.txt"] = false /\ newPath = ["t"; "x.txt"]) \/
     (path_exists [(["t"; "x.txt"], Regular); (["t"; "x_1.txt"], Regular)]
        ["t"; "x.txt"] = true /\
      exists n,
        1 <= n /\
        name newPath =
        String.append (fst (stem_suffix (name ["t"; "x.txt"])))
          (String.append "_"
             (String.append (str n) (snd (stem_suffix (name ["t"; "x.txt"])))))
        /\
        forall m, 1 <= m < n ->
          path_exists [(["t"; "x.txt"], Regular); (["t"; "x_1.txt"], Regular)]
            (candidate ["t"; "x.txt"] (fst (stem_suffix (name ["t"; "x.txt"])))
               (snd (stem_suffix (name ["t"; "x.txt"]))) m) = true)).
Proof.
  apply (rename_if_exists_fresh
           [(["t"; "x.txt"], Regular); (["t"; "x_1.txt"], Regular)]
           ["t"; "x.txt"]).
  discriminate.
Defined.

(** ** The disk under [unlink], [mkdir] and [move] *)

Lemma path_eqb_eq (p q : path) : path_eqb p q = true <-> p = q.
Proof. unfold path_eqb. destruct (path_eq_dec p q); split; congruence. Qed.

Lemma path_eqb_refl (p : path) : path_eqb p p = true.
Proof. apply path_eqb_eq. reflexivity. Qed.

Lemma path_eqb_neq (p q : path) : path_eqb p q = false <-> p <> q.
Proof. unfold path_eqb. destruct (path_eq_dec p q); split; congruence. Qed.

Lemma entry_at_remove (fs : disk) (p q : path) :
  entry_at (remove_entry fs p) q =
  if path_eqb p q then None else entry_at fs q.
Proof.
  unfold remove_entry. induction fs as [| [r n] fs IH]; simpl.
  - destruct (path_eqb p q); reflexivity.
  - destruct (path_eqb r p) eqn:Hrp; simpl.
    + rewrite IH. apply path_eqb_eq in Hrp. subst r.
      destruct (path_eqb p q); reflexivity.
    + rewrite IH. destruct (path_eqb r q) eqn:Hrq; [| reflexivity].
      apply path_eqb_eq in Hrq. subst r.
      apply path_eqb_neq in Hrp.
      assert (Hpq : path_eqb p q = false) by (apply path_eqb_neq; congruence).
      rewrite Hpq. reflexivity.
Qed.

Lemma entry_at_put (fs : disk) (p q : path) (n : node) :
  entry_at (put_entry fs p n) q =
  if path_eqb p q then Some n else entry_at fs q.
Proof.
  unfold put_entry; simpl. rewrite entry_at_remove.
  destruct (path_eqb p q); reflexivity.
Qed.

Lemma lstat_remove_other (fs : disk) (p q : path) :
  q <> p -> lstat (remove_entry fs p) q = lstat fs q.
Proof.
  intros Hqp. unfold lstat. destruct q as [| c q]; [reflexivity |].
  rewrite entry_at_remove.
  assert (Hf : path_eqb p (c :: q) = false) by (apply path_eqb_neq; congruence).
  rewrite Hf. reflexivity.
Qed.

Lemma lstat_remove_same (fs : disk) (p : path) :
  p <> [] -> lstat (remove_entry fs p) p = None.
Proof.
  intros Hp. unfold lstat. destruct p as [| c p]; [congruence |].
  rewrite entry_at_remove, path_eqb_refl. reflexivity.
Qed.

Lemma lstat_put_other (fs : disk) (p q : path) (n : node) :
  q <> p -> lstat (put_entry fs p n) q = lstat fs q.
Proof.
  intros Hqp. unfold lstat. destruct q as [| c q]; [reflexivity |].
  rewrite entry_at_put.
  assert (Hf : path_eqb p (c :: q) = false) by (apply path_eqb_neq; congruence).
  rewrite Hf. reflexivity.
Qed.

Lemma lstat_put_same (fs : disk) (p : path) (n : node) :
  p <> [] -> lstat (put_entry fs p n) p = Some n.
Proof.
  intros Hp. unfold lstat. destruct p as [| c p]; [congruence |].
  rewrite entry_at_put, path_eqb_refl. reflexivity.
Qed.

Lemma path_exists_lstat (fs fs' : disk) (q : path) :
  lstat fs' q = lstat fs q -> path_exists fs' q = path_exists fs q.
Proof. unfold path_exists. intros ->. reflexivity. Qed.

Lemma path_exists_some (fs : disk) (q : path) :
  path_exists fs q = true -> lstat fs q <> None.
Proof. unfold path_exists. destruct (lstat fs q); [discriminate | discriminate]. Qed.

Lemma spares_refl (S : path -> Prop) (w : world) : spares S w w.
Proof. intros q _ _. reflexivity. Qed.

Lemma spares_trans (S : path -> Prop) (w1 w2 w3 : world) :
  spares S w1 w2 -> spares S w2 w3 -> spares S w1 w3.
Proof.
  intros H12 H23 q Hq Hs. rewrite <- (H12 q Hq Hs). apply H23; [| exact Hs].
  rewrite (H12 q Hq Hs). exact Hq.
Qed.

Lemma spares_weaken (S T : path -> Prop) (w w' : world) :
  (forall q, S q -> T q) -> spares S w w' -> spares T w w'.
Proof. intros Hst Hs q Hq Ht. apply Hs; [exact Hq |]. intros Hq'. apply Ht, Hst, Hq'. Qed.

Lemma spares_bind {A B : Type} (S : path -> Prop) (m : io A) (f : A -> io B) :
  (forall w, spares S w (snd (m w))) ->
  (forall a w, spares S w (snd (f a w))) ->
  forall w, spares S w (snd (io_bind m f w)).
Proof.
  intros Hm Hf w. unfold io_bind. specialize (Hm w).
  destruct (m w) as [[a | e] w1]; simpl in *.
  - eapply spares_trans; [exact Hm | apply Hf].
  - exact Hm.
Qed.

Lemma spares_for_each {A : Type} (S : path -> Prop) (body : A -> io unit)
  (xs : list A) :
  (forall x, In x xs -> forall w, spares S w (snd (body x w))) ->
  forall w, spares S w (snd (io_for_each body xs w)).
Proof.
  induction xs as [| x xs IH]; intros Hbody w; simpl.
  - apply spares_refl.
  - apply spares_bind.
    + apply Hbody. left. reflexivity.
    + intros _. apply IH. intros y Hy. apply Hbody. right. exact Hy.
Qed.

Lemma spares_unlink (file : path) (w : world) :
  spares (fun q => q = file) w (snd (unlink file w)).
Proof.
  unfold unlink. destruct (lstat (files w) file) as [[| | to] |];
    simpl; try apply spares_refl;
    intros q _ Hq; simpl; apply lstat_remove_other, Hq.
Qed.

(** [mkdir] creates and never replaces: no entry of the disk changes. *)
Lemma spares_mkdir_one (dir : path) (w : world) :
  spares (fun _ => False) w (snd (mkdir_one dir w)).
Proof.
  unfold mkdir_one. destruct (is_dir (files w) dir); [apply spares_refl |].
  destruct (lstat (files w) dir) as [n |] eqn:Hdir; [apply spares_refl |].
  intros q Hq _. simpl. apply lstat_put_other. intros ->. congruence.
Qed.

Lemma spares_mkdir_parents (dir : path) (w : world) :
  spares (fun _ => False) w (snd (mkdir_parents dir w)).
Proof.
  unfold mkdir_parents. apply spares_for_each.
  intros x _ w0. apply spares_mkdir_one.
Qed.

Lemma spares_move (src dst : path) (w : world) :
  spares (fun q => q = src \/ q = dst) w (snd (move src dst w)).
Proof.
  unfold move. destruct (lstat (files w) src) as [n |]; [| apply spares_refl].
  intros q _ Hq. simpl.
  rewrite lstat_put_other by tauto. apply lstat_remove_other. tauto.
Qed.

Lemma rename_if_exists_Ok (fs : disk) (file target : path) :
  rename_if_exists fs file = Ok target -> path_exists fs target = false.
Proof.
  intros Hr. destruct file as [| c file].
  - unfold rename_if_exists in Hr. simpl in Hr. discriminate.
  - destruct (rename_if_exists_returns fs (c :: file)) as [p [Hp Hfresh]];
      [discriminate |].
    rewrite Hr in Hp. injection Hp as <-. exact Hfresh.
Qed.

Lemma mkdir_parents_rows (dir : path) (w : world) :
  lookup_rows (snd (mkdir_parents dir w)) = lookup_rows w.
Proof.
  unfold mkdir_parents. generalize (prefixes dir) as ds. intros ds.
  revert w. induction ds as [| d ds IH]; intros w; [reflexivity |].
  simpl. unfold io_bind.
  assert (Hone : lookup_rows (snd (mkdir_one d w)) = lookup_rows w).
  { unfold mkdir_one. destruct (is_dir (files w) d); [reflexivity |].
    destruct (lstat (files w) d); reflexivity. }
  destruct (mkdir_one d w) as [[[] | e] w1]; simpl in *.
  - rewrite IH. exact Hone.
  - exact Hone.
Qed.

(** [move_file_to_trash], one call after the other. *)
Lemma move_file_to_trash_eq (file trash : path) (flag : bool) (w : world) :
  move_file_to_trash file trash flag w =
  match rename_if_exists (files w) (trash ++ file) with
  | Raise e => (Raise e, w)
  | Ok target =>
      match
        (if flag then unlink file w
         else
           match
             (if negb (is_dir (files w) (parent target))
              then mkdir_parents (parent target) w else (Ok tt, w))
           with
           | (Ok _, w1) => move file target w1
           | (Raise e, w1) => (Raise e, w1)
           end)
      with
      | (Ok _, w2) => (Ok file, w2)
      | (Raise e, w2) => (Raise e, w2)
      end
  end.
Proof.
  unfold move_file_to_trash, io_bind, reading, ret. simpl.
  destruct (rename_if_exists (files w) (trash ++ file)); [| reflexivity].
  destruct flag; reflexivity.
Qed.

Lemma move_file_to_trash_rows (file trash : path) (flag : bool) (w : world) :
  lookup_rows (snd (move_file_to_trash file trash flag w)) = lookup_rows w.
Proof.
  rewrite move_file_to_trash_eq.
  destruct (rename_if_exists (files w) (trash ++ file)) as [target | e];
    [| reflexivity].
  destruct flag.
  - unfold unlink.
    destruct (lstat (files w) file) as [[| | to] |]; reflexivity.
  - set (prep := if negb (is_dir (files w) (parent target))
                 then mkdir_parents (parent target) w else (Ok tt, w)).
    assert (Hrows : lookup_rows (snd prep) = lookup_rows w).
    { unfold prep. destruct (negb (is_dir (files w) (parent target))).
      - apply mkdir_parents_rows.
      - reflexivity. }
    destruct prep as [[[] | e] w1]; simpl in *; [| exact Hrows].
    unfold move. destruct (lstat (files w1) file) as [n |]; simpl;
      exact Hrows.
Qed.

Lemma is_relative_to_refl (p : path) : is_relative_to p p = true.
Proof.
  induction p as [| c p IH]; simpl; [reflexivity |].
  rewrite String.eqb_refl. exact IH.
Qed.

(** ** The loops of [delete] *)

Lemma concat_chunked_fuel {A : Type} (n : nat) (fuel : nat) :
  0 < n ->
  forall l : list A,
    List.length l <= fuel -> List.concat (chunked_fuel n l fuel) = l.
Proof.
  intros Hn. induction fuel as [| fuel IH]; intros l Hlen.
  - destruct l; simpl in *; [reflexivity | lia].
  - destruct l as [| a l]; [reflexivity |].
    change (chunked_fuel n (a :: l) (S fuel))
      with (firstn n (a :: l) :: chunked_fuel n (skipn n (a :: l)) fuel).
    change (List.concat (firstn n (a :: l)
                         :: chunked_fuel n (skipn n (a :: l)) fuel))
      with (firstn n (a :: l)
            ++ List.concat (chunked_fuel n (skipn n (a :: l)) fuel)).
    rewrite IH; [apply firstn_skipn |].
    rewrite length_skipn.
    change (List.length (a :: l)) with (S (List.length l)) in *. lia.
Qed.

Lemma concat_chunked {A : Type} (l : list A) (n : nat) :
  0 < n -> List.concat (chunked l n) = l.
Proof.
  intros Hn. unfold chunked. apply concat_chunked_fuel; [exact Hn | lia].
Qed.

Lemma delete_eq (self : Dupetable) (trash : path) (flag : bool) (w : world) :
  delete self trash flag w =
  if negb (Nat.ltb 0 (len (_deltable self)) || _deduped self)
  then (Ok tt, w)
  else
    match validate self (files w) with
    | Raise e => (Raise e, w)
    | Ok _ =>
        io_for_each
          (fun chunk =>
             with_db
               (io_for_each
                  (fun delfile =>
                     _ <~ move_file_to_trash delfile trash flag ;;
                     delete_file_lookup delfile)
                  chunk))
          (chunked (chain_values (_deltable self)) 20) w
    end.
Proof.
  unfold delete.
  destruct (negb (Nat.ltb 0 (len (_deltable self)) || _deduped self));
    [reflexivity |].
  unfold io_bind at 1, reading.
  destruct (validate self (files w)); reflexivity.
Qed.


(** ** The files that [validate] lets through *)

Lemma validate_Ok_regular (self : Dupetable) (fs : disk) :
  validate self fs = Ok tt ->
  forall p, In p (chain_values (_keeptable self) ++
                  chain_values (_deltable self)) -> regular fs p.
Proof.
  unfold validate. intros Hval. apply bind_Ok_inv in Hval.
  destruct Hval as [[] [_ Hfiles]].
  destruct (for_each_test (check_file fs)
              (chain_values (_keeptable self) ++ chain_values (_deltable self)))
    as [[_ Hall] | [before [q [after [e [_ [_ [_ Hrun]]]]]]]].
  - intros p Hp. apply check_file_regular, Hall, Hp.
  - rewrite Hrun in Hfiles. discriminate.
Qed.

Lemma lstat_fold_retired (xs : list path) (w : world) (q : path) :
  ~ In [] xs ->
  lstat (files (fold_left retired xs w)) q =
  if existsb (path_eqb q) xs then None else lstat (files w) q.
Proof.
  revert w. induction xs as [| x xs IH]; intros w Hnil; simpl;
    [reflexivity |].
  rewrite IH by (intros H; apply Hnil; right; exact H).
  assert (Hx : x <> []) by (intros ->; apply Hnil; left; reflexivity).
  destruct (path_eqb q x) eqn:Hqx; simpl.
  - apply path_eqb_eq in Hqx. subst q.
    rewrite (lstat_remove_same _ _ Hx).
    destruct (existsb (path_eqb x) xs); reflexivity.
  - apply path_eqb_neq in Hqx.
    rewrite (lstat_remove_other _ _ _ Hqx). reflexivity.
Qed.

Lemma regular_named (fs : disk) (p : path) : regular fs p -> p <> [].
Proof. intros Hreg ->. unfold regular in Hreg. simpl in Hreg. discriminate. Qed.

Lemma fold_retired_concat (chunks : list (list path)) (w : world) :
  fold_left (fun w' chunk => fold_left retired chunk w') chunks w
  = fold_left retired (List.concat chunks) w.
Proof.
  revert w. induction chunks as [| c chunks IH]; intros w; simpl;
    [reflexivity |].
  rewrite fold_left_app. apply IH.
Qed.

(** ** The helper [is_relative_to] before Python 3.9 *)

Lemma removelast_map {A B : Type} (f : A -> B) (l : list A) :
  removelast (map f l) = map f (removelast l).
Proof.
  induction l as [| a l IH]; [reflexivity |].
  destruct l as [| b l]; [reflexivity |].
  change (removelast (map f (a :: b :: l)))
    with (f a :: removelast (map f (b :: l))).
  rewrite IH. reflexivity.
Qed.

Lemma In_proper_prefixes (p x : path) :
  In x (removelast (prefixes p)) <->
  x <> [] /\ exists rest, rest <> [] /\ p = x ++ rest.
Proof.
  revert x. induction p as [| c p IH]; intros x.
  - simpl. split; [tauto |]. intros [Hx [rest [_ Hp]]].
    symmetry in Hp. apply app_eq_nil in Hp. tauto.
  - destruct p as [| d p].
    + simpl. split; [tauto |]. intros [Hx [rest [Hrest Hp]]].
      destruct x as [| c' x]; [congruence |]. simpl in Hp.
      injection Hp as _ Hp. symmetry in Hp. apply app_eq_nil in Hp. tauto.
    + change (removelast (prefixes (c :: d :: p)))
        with ([c] :: removelast (map (cons c) (prefixes (d :: p)))).
      rewrite removelast_map. split.
      * intros [<- | Hin].
        -- split; [discriminate |]. exists (d :: p).
           split; [discriminate | reflexivity].
        -- apply in_map_iff in Hin. destruct Hin as [y [<- Hy]].
           apply IH in Hy. destruct Hy as [_ [rest [Hrest Hp]]].
           split; [discriminate |]. exists rest. split; [exact Hrest |].
           simpl. rewrite Hp. reflexivity.
      * intros [Hx [rest [Hrest Hp]]].
        destruct x as [| c' x]; [congruence |]. simpl in Hp.
        injection Hp as <- Hp.
        destruct x as [| e x]; [left; reflexivity |].
        right. apply in_map_iff. exists (e :: x). split; [reflexivity |].
        apply IH. split; [discriminate |]. exists rest. split; assumption.
Qed.

Lemma In_parents (p x : path) :
  In x (parents p) <-> exists rest, rest <> [] /\ p = x ++ rest.
Proof.
  unfold parents. destruct p as [| c p].
  - simpl. split; [tauto |]. intros [rest [Hrest Hp]].
    symmetry in Hp. apply app_eq_nil in Hp. tauto.
  - rewrite in_app_iff, <- in_rev, In_proper_prefixes. simpl. split.
    + intros [[_ H] | [<- | []]]; [exact H |].
      exists (c :: p). split; [discriminate | reflexivity].
    + intros [rest [Hrest Hp]]. destruct x as [| c' x].
      * right. left. reflexivity.
      * left. split; [discriminate |]. exists rest. split; assumption.
Qed.

Lemma is_relative_to_prefix (f parent : path) :
  is_relative_to f parent = true <-> exists rest, f = parent ++ rest.
Proof.
  revert f. induction parent as [| c parent IH]; intros f.
  - destruct f; simpl; (split; [intros _; eexists; reflexivity | reflexivity]).
  - destruct f as [| d f]; simpl.
    + split; [discriminate |]. intros [rest Hrest]. discriminate.
    + rewrite Bool.andb_true_iff, String.eqb_eq, IH. split.
      * intros [-> [rest ->]]. exists rest. reflexivity.
      * intros [rest Hrest]. injection Hrest as -> ->.
        split; [reflexivity |]. exists rest. reflexivity.
Qed.

(** X22: where the interpreter does not pass the test
    [major >= 3 and minor >= 9] (any 3.x before 3.9, and also 4.0), the
    helper [is_relative_to(parent, testfile)] answers for the proper
    descendants of [parent] only: it agrees with [Path.is_relative_to]
    on every other pair, and says [False] for [testfile == parent], where
    [Path.is_relative_to] says [True]. *)
Theorem is_relative_to_compat_proper (major minor : nat)
  (parent testfile : path) :
  (Nat.leb 3 major && Nat.leb 9 minor)%bool = false ->
  is_relative_to_compat major minor parent testfile =
  (is_relative_to testfile parent && negb (path_eqb testfile parent))%bool.
Proof.
  intros Hold. unfold is_relative_to_compat. rewrite Hold.
  apply Bool.eq_iff_eq_true.
  rewrite Bool.andb_true_iff, Bool.negb_true_iff, path_eqb_neq,
    is_relative_to_prefix, existsb_exists.
  split.
  - intros [b [Hb ->]]. apply in_map_iff in Hb.
    destruct Hb as [x [Hxp Hx]]. apply path_eqb_eq in Hxp. subst x.
    apply In_parents in Hx. destruct Hx as [rest [Hrest Hp]].
    split; [exists rest; exact Hp |].
    intros Heq. rewrite Heq in Hp at 1.
    rewrite <- (app_nil_r parent) in Hp at 1.
    apply app_inv_head in Hp. congruence.
  - intros [[rest Hp] Hne]. exists true. split; [| reflexivity].
    apply in_map_iff. exists parent. split; [apply path_eqb_refl |].
    apply In_parents. exists rest. split; [| exact Hp].
    intros ->. rewrite app_nil_r in Hp. congruence.
Qed.

Lemma is_relative_to_compat_proper_witness :
  is_relative_to_compat 3 8 ["a"] ["a"] =
  (is_relative_to ["a"] ["a"] && negb (path_eqb ["a"] ["a"]))%bool.
Proof.
  apply (is_relative_to_compat_proper 3 8 ["a"] ["a"]). reflexivity.
Defined.

(** ** [get_dir_counter] *)

Lemma counter_get_update (c : Counter) (key : string) (n : nat) (k : string) :
  counter_get (counter_update c key n) k =
  if String.eqb key k then counter_get c k + n else counter_get c k.
Proof.
  induction c as [| [k0 m] c IH]; simpl.
  - destruct (String.eqb key k); reflexivity.
  - destruct (String.eqb k0 key) eqn:Hk0; simpl.
    + apply String.eqb_eq in Hk0. subst k0.
      destruct (String.eqb key k); reflexivity.
    + rewrite IH. destruct (String.eqb k0 k) eqn:Hk0k; [| reflexivity].
      apply String.eqb_eq in Hk0k. subst k0. rewrite String.eqb_sym, Hk0.
      reflexivity.
Qed.

(** X23: the counter that [get_dir_counter] returns gives, for every
    directory, the number of paths of the index (over all hashes, repeats
    counted) whose parent directory is written that way; a directory that
    holds none counts for zero. *)
Theorem get_dir_counter_counts (dupes : LuTable) (dir : string) :
  counter_get (get_dir_counter dupes) dir =
  List.length
    (filter (fun x => String.eqb (str_path (parent x)) dir)
       (chain_values dupes)).
Proof.
  unfold get_dir_counter.
  assert (Hgen : forall xs c,
             counter_get
               (fold_left (fun dir_counter x =>
                             counter_update dir_counter (str_path (parent x)) 1)
                  xs c) dir
             = counter_get c dir +
               List.length
                 (filter (fun x => String.eqb (str_path (parent x)) dir) xs)).
  { induction xs as [| x xs IH]; intros c; simpl; [lia |].
    rewrite IH, counter_get_update.
    destruct (String.eqb (str_path (parent x)) dir); simpl; lia. }
  rewrite Hgen. reflexivity.
Qed.

(** ** Moving to the trash *)

Lemma rename_if_exists_sibling (fs : disk) (file target : path) :
  file <> [] ->
  rename_if_exists fs file = Ok target ->
  parent target = parent file /\ path_exists fs target = false.
Proof.
  intros Hfile Hr. split; [| exact (rename_if_exists_Ok _ _ _ Hr)].
  unfold rename_if_exists in Hr.
  destruct (path_exists fs file) eqn:Hex.
  - set (st := fst (stem_suffix (name file))) in *.
    set (sf := snd (stem_suffix (name file))) in *.
    destruct (least_free fs file st sf (S (List.length fs)) 1
                (candidate_free fs file st sf)) as [n [Hn [Hfree Hbusy]]].
    cbv zeta in Hr. fold st sf in Hr.
    rewrite (rename_loop_least fs file st sf Hfile _ _ n Hn Hfree Hbusy) in Hr.
    injection Hr as <-. unfold parent, candidate. apply removelast_last.
  - injection Hr as <-. reflexivity.
Qed.

Lemma removelast_neq {A : Type} (l : list A) : l <> [] -> removelast l <> l.
Proof.
  induction l as [| a l IH]; [congruence |]. intros _.
  destruct l as [| b l]; [discriminate |].
  change (removelast (a :: b :: l)) with (a :: removelast (b :: l)).
  intros H. injection H as H. apply IH in H; [exact H | discriminate].
Qed.

Lemma prefixes_last (c : string) (p : path) :
  exists xs, prefixes (c :: p) = xs ++ [c :: p].
Proof.
  revert c. induction p as [| d p IH]; intros c.
  - exists []. reflexivity.
  - destruct (IH d) as [xs Hxs]. exists ([c] :: map (cons c) xs).
    change (prefixes (c :: d :: p))
      with ([c] :: map (cons c) (prefixes (d :: p))).
    rewrite Hxs, map_app. reflexivity.
Qed.

Lemma mkdir_one_is_dir (d : path) (w w1 : world) :
  mkdir_one d w = (Ok tt, w1) -> is_dir (files w1) d = true.
Proof.
  unfold mkdir_one. destruct (is_dir (files w) d) eqn:Hd.
  - intros H. injection H as <-. exact Hd.
  - destruct (lstat (files w) d) eqn:Hl; [discriminate |].
    unfold writing. intros H. injection H as <-. simpl.
    unfold is_dir. rewrite lstat_put_same; [reflexivity |].
    intros ->. simpl in Hl. discriminate.
Qed.

Lemma mkdir_all_is_dir (xs : list path) (d : path) (w w1 : world) :
  io_for_each mkdir_one (xs ++ [d]) w = (Ok tt, w1) ->
  is_dir (files w1) d = true.
Proof.
  revert w. induction xs as [| a xs IH]; intros w; simpl; unfold io_bind.
  - destruct (mkdir_one d w) as [[[] | e] w2] eqn:H; [| discriminate].
    unfold ret. intros H'. injection H' as <-.
    apply (mkdir_one_is_dir _ _ _ H).
  - destruct (mkdir_one a w) as [[[] | e] w2]; [| discriminate]. apply IH.
Qed.

Lemma mkdir_parents_is_dir (dir : path) (w w1 : world) :
  mkdir_parents dir w = (Ok tt, w1) -> is_dir (files w1) dir = true.
Proof.
  destruct dir as [| c p]; [intros _; reflexivity |].
  unfold mkdir_parents. destruct (prefixes_last c p) as [xs ->].
  apply mkdir_all_is_dir.
Qed.

(** X25: when [move_file_to_trash] with [delete=False] returns on a regular
    file, the file has arrived in the trash: its target is a path that did
    not exist, in the directory of the same relative path under [trash];
    afterwards the target is a regular file in a directory, and the file
    is gone from its place. *)
Theorem move_file_to_trash_arrives (file trash : path) (w w' : world)
  (r : path) :
  regular (files w) file ->
  move_file_to_trash file trash false w = (Ok r, w') ->
  r = file /\
  exists target,
    rename_if_exists (files w) (trash ++ file) = Ok target /\
    path_exists (files w) target = false /\
    parent target = trash ++ parent file /\
    regular (files w') target /\
    lstat (files w') file = None /\
    is_dir (files w') (parent target) = true.
Proof.
  intros Hreg Hrun. rewrite move_file_to_trash_eq in Hrun.
  pose proof (regular_named _ _ Hreg) as Hfile.
  assert (Hlong : trash ++ file <> []).
  { intros Happ. apply app_eq_nil in Happ. tauto. }
  destruct (rename_if_exists (files w) (trash ++ file)) as [target | e] eqn:Hr;
    [| discriminate].
  destruct (rename_if_exists_sibling _ _ _ Hlong Hr) as [Hparent Hfresh].
  assert (Hex : path_exists (files w) file = true).
  { unfold path_exists. unfold regular in Hreg. rewrite Hreg. reflexivity. }
  assert (Hft : file <> target) by (intros ->; congruence).
  assert (Htarget : target <> []).
  { intros ->. unfold path_exists in Hfresh. simpl in Hfresh. discriminate. }
  set (prep := if negb (is_dir (files w) (parent target))
               then mkdir_parents (parent target) w else (Ok tt, w)) in *.
  assert (Hprep : forall w1, prep = (Ok tt, w1) ->
                    is_dir (files w1) (parent target) = true /\
                    lstat (files w1) file = Some Regular).
  { unfold prep. intros w1.
    destruct (is_dir (files w) (parent target)) eqn:Hd; simpl.
    - intros H. injection H as <-. split; [exact Hd | exact Hreg].
    - intros H. split; [apply (mkdir_parents_is_dir _ _ _ H) |].
      pose proof (spares_mkdir_parents (parent target) w file) as Hsp.
      rewrite H in Hsp. simpl in Hsp. rewrite Hsp; [exact Hreg | | tauto].
      unfold regular in Hreg. congruence. }
  destruct prep as [[[] | e] w1]; [| discriminate].
  destruct (Hprep w1 eq_refl) as [Hdir Hfile1].
  unfold move in Hrun. rewrite Hfile1 in Hrun. simpl in Hrun.
  injection Hrun as <- <-. split; [reflexivity |].
  exists target. split; [reflexivity |]. split; [exact Hfresh |].
  split; [| split; [| split]].
  - rewrite Hparent. unfold parent. apply removelast_app, Hfile.
  - unfold regular. simpl. apply lstat_put_same, Htarget.
  - simpl. rewrite lstat_put_other by exact Hft.
    apply lstat_remove_same, Hfile.
  - assert (Hpt : parent target <> target).
    { unfold parent. apply removelast_neq, Htarget. }
    assert (Hpf : parent target <> file).
    { intros Heq. rewrite Heq in Hdir. unfold is_dir in Hdir.
      rewrite Hfile1 in Hdir. discriminate. }
    unfold is_dir in *. simpl.
    rewrite lstat_put_other by exact Hpt.
    rewrite lstat_remove_other by exact Hpf. exact Hdir.
Qed.

Lemma move_file_to_trash_arrives_witness :
  ["a"; "x"] = ["a"; "x"] /\
  exists target,
    rename_if_exists [(["a"; "x"], Regular); (["a"; "y"], Regular)]
      (["t"] ++ ["a"; "x"]) = Ok target /\
    path_exists [(["a"; "x"], Regular); (["a"; "y"], Regular)] target = false /\
    parent target = ["t"] ++ parent ["a"; "x"] /\
    regular
      (files
         {| files := [(["t"; "a"; "x"], Regular); (["t"; "a"], Directory);
                      (["t"], Directory); (["a"; "y"], Regular)];
            lookup_rows := [] |}) target /\
    lstat
      (files
         {| files := [(["t"; "a"; "x"], Regular); (["t"; "a"], Directory);
                      (["t"], Directory); (["a"; "y"], Regular)];
            lookup_rows := [] |}) ["a"; "x"] = None /\
    is_dir
      (files
         {| files := [(["t"; "a"; "x"], Regular); (["t"; "a"], Directory);
                      (["t"], Directory); (["a"; "y"], Regular)];
            lookup_rows := [] |}) (parent target) = true.
Proof.
  apply (move_file_to_trash_arrives ["a"; "x"] ["t"]
           {| files := [(["a"; "x"], Regular); (["a"; "y"], Regular)];
              lookup_rows := [] |}).
  - reflexivity.
  - reflexivity.
Defined.

(** ** What a deletion leaves alone *)

(** A path that [os.lstat] sees and [exists()] does not is a link to
    nothing. *)
Lemma lstat_dangling (fs : disk) (q : path) :
  lstat fs q <> None -> path_exists fs q = false ->
  lstat fs q = Some (SymLink Nothing).
Proof.
  unfold path_exists. destruct (lstat fs q) as [[| | []] |];
    congruence.
Qed.

Lemma move_file_to_trash_frame (file trash : path) (flag : bool) (w : world)
  (q : path) :
  lstat (files w) q <> None ->
  q <> file ->
  lstat (files (snd (move_file_to_trash file trash flag w))) q
  = lstat (files w) q \/
  (flag = false /\ lstat (files w) q = Some (SymLink Nothing) /\
   rename_if_exists (files w) (trash ++ file) = Ok q).
Proof.
  intros Hq Hne. rewrite move_file_to_trash_eq.
  destruct (rename_if_exists (files w) (trash ++ file)) as [target | e] eqn:Hr;
    [| left; reflexivity].
  pose proof (rename_if_exists_Ok _ _ _ Hr) as Hfresh.
  destruct flag.
  - left. unfold unlink.
    destruct (lstat (files w) file) as [[| | to] |]; simpl;
      try reflexivity; apply lstat_remove_other, Hne.
  - destruct (path_eq_dec q target) as [-> | Hqt].
    { right. split; [reflexivity |].
      split; [apply lstat_dangling; assumption | reflexivity]. }
    left.
    set (prep := if negb (is_dir (files w) (parent target))
                 then mkdir_parents (parent target) w else (Ok tt, w)).
    assert (Hq1 : lstat (files (snd prep)) q = lstat (files w) q).
    { unfold prep. destruct (negb (is_dir (files w) (parent target))).
      - apply spares_mkdir_parents; [exact Hq | tauto].
      - reflexivity. }
    destruct prep as [[[] | e] w1]; simpl in *; [| exact Hq1].
    unfold move. destruct (lstat (files w1) file) as [n |]; simpl;
      [| exact Hq1].
    rewrite lstat_put_other by exact Hqt.
    rewrite lstat_remove_other by exact Hne. exact Hq1.
Qed.

Lemma entry_of_lstat (fs fs' : disk) (q : path) :
  lstat fs' q = lstat fs q -> entry_of fs' q = entry_of fs q.
Proof. unfold entry_of. intros ->. reflexivity. Qed.

Lemma entry_of_some (fs : disk) (q : path) :
  entry_of fs q <> NoEntry -> lstat fs q <> None.
Proof. unfold entry_of. destruct (lstat fs q); congruence. Qed.

(** X20: when [move_file_to_trash] returns, in either mode, on a disk
    without link to a directory: every path that has an entry and that is
    neither the file nor below it has afterwards an entry of the same kind
    (a regular file, a directory, a link), with one exception, a symbolic
    link to nothing that sits at the target, which [exists()] does not see
    and the move replaces. The rows of the lookup table stay. *)
Theorem move_file_to_trash_spares (file trash : path) (flag : bool)
  (w w' : world) (r q : path) :
  no_linked_dir (files w) = true ->
  move_file_to_trash file trash flag w = (Ok r, w') ->
  entry_of (files w) q <> NoEntry ->
  is_relative_to q file = false ->
  (entry_of (files w') q = entry_of (files w) q \/
   (flag = false /\ lstat (files w) q = Some (SymLink Nothing) /\
    rename_if_exists (files w) (trash ++ file) = Ok q)) /\
  lookup_rows w' = lookup_rows w.
Proof.
  intros _ Hrun Hq Hrel. apply entry_of_some in Hq.
  assert (Hne : q <> file).
  { intros ->. rewrite is_relative_to_refl in Hrel. discriminate. }
  pose proof (move_file_to_trash_frame file trash flag w q Hq Hne) as Hframe.
  pose proof (move_file_to_trash_rows file trash flag w) as Hrows.
  rewrite Hrun in Hframe, Hrows. simpl in Hframe, Hrows.
  split; [| exact Hrows].
  destruct Hframe as [Hsame | Hdang]; [left | right; exact Hdang].
  apply entry_of_lstat, Hsame.
Qed.

Lemma move_file_to_trash_spares_witness :
  (entry_of [(["t"; "a"; "x"], Regular); (["t"; "a"], Directory);
             (["t"], Directory); (["a"; "y"], Regular)] ["a"; "y"]
   = entry_of [(["a"; "x"], Regular); (["a"; "y"], Regular)] ["a"; "y"] \/
   (false = false /\
    lstat [(["a"; "x"], Regular); (["a"; "y"], Regular)] ["a"; "y"]
    = Some (SymLink Nothing) /\
    rename_if_exists [(["a"; "x"], Regular); (["a"; "y"], Regular)]
      (["t"] ++ ["a"; "x"]) = Ok ["a"; "y"])) /\
  @nil path = [].
Proof.
  apply (move_file_to_trash_spares ["a"; "x"] ["t"] false
           {| files := [(["a"; "x"], Regular); (["a"; "y"], Regular)];
              lookup_rows := [] |}
           {| files := [(["t"; "a"; "x"], Regular); (["t"; "a"], Directory);
                        (["t"], Directory); (["a"; "y"], Regular)];
              lookup_rows := [] |}
           ["a"; "x"] ["a"; "y"]).
  - reflexivity.
  - reflexivity.
  - discriminate.
  - reflexivity.
Defined.





(** ** Deleting for good *)

Lemma io_for_each_fold {A : Type} (body : A -> io unit)
  (f : world -> A -> world) :
  (forall x w w1, body x w = (Ok tt, w1) -> w1 = f w x) ->
  forall xs w w', io_for_each body xs w = (Ok tt, w') ->
                  w' = fold_left f xs w.
Proof.
  intros Hstep. induction xs as [| x xs IH]; intros w w'; simpl.
  - unfold ret. intros H. injection H as <-. reflexivity.
  - unfold io_bind. destruct (body x w) as [[[] | e] w1] eqn:Hb;
      [| discriminate].
    rewrite <- (Hstep _ _ _ Hb). apply IH.
Qed.

Lemma unlink_step (file trash : path) (w w1 : world) :
  (_ <~ move_file_to_trash file trash true ;; delete_file_lookup file) w
  = (Ok tt, w1) ->
  w1 = retired w file.
Proof.
  unfold io_bind. rewrite move_file_to_trash_eq.
  destruct (rename_if_exists (files w) (trash ++ file)) as [t | e];
    [| discriminate].
  unfold unlink.
  destruct (lstat (files w) file) as [[| | to] |]; simpl;
    try discriminate; intros H; injection H as <-; reflexivity.
Qed.

Lemma with_db_Ok (block : io unit) (w w' : world) :
  with_db block w = (Ok tt, w') -> block w = (Ok tt, w').
Proof.
  unfold with_db. destruct (block w) as [[[] | e] w1]; [auto | discriminate].
Qed.

(** X19: when [delete] with [delete=True] returns, on a disk without link
    to a directory, every path of the delete table is gone from the disk,
    and every other path has an entry of the same kind as before, or none
    as before: nothing else is removed and nothing is created. *)
Theorem delete_unlinks (self : Dupetable) (trash : path) (w w' : world) :
  no_linked_dir (files w) = true ->
  delete self trash true w = (Ok tt, w') ->
  forall q,
    entry_of (files w') q =
    if existsb (path_eqb q) (chain_values (_deltable self))
    then NoEntry else entry_of (files w) q.
Proof.
  intros _ Hrun q. rewrite delete_eq in Hrun.
  destruct (negb (Nat.ltb 0 (len (_deltable self)) || _deduped self))
    eqn:Hguard.
  - injection Hrun as <-.
    apply Bool.negb_true_iff, Bool.orb_false_iff in Hguard.
    destruct Hguard as [Hlen _]. apply Nat.ltb_ge in Hlen.
    rewrite len_chain_values in Hlen.
    destruct (chain_values (_deltable self));
      [reflexivity | simpl in Hlen; lia].
  - destruct (validate self (files w)) as [[] | e] eqn:Hval;
      [| discriminate].
    assert (Hw' : w' = fold_left retired (chain_values (_deltable self)) w).
    { rewrite <- (concat_chunked (chain_values (_deltable self)) 20) by lia.
      rewrite <- fold_retired_concat.
      revert Hrun. apply io_for_each_fold.
      intros chunk w1 w2 Hchunk. apply with_db_Ok in Hchunk.
      revert Hchunk. apply io_for_each_fold.
      intros x w3 w4. apply unlink_step. }
    rewrite Hw'. unfold entry_of. rewrite lstat_fold_retired.
    + destruct (existsb (path_eqb q) (chain_values (_deltable self)));
        reflexivity.
    + intros Hnil. apply (regular_named (files w) []); [| reflexivity].
      apply (validate_Ok_regular _ _ Hval), in_or_app. right. exact Hnil.
Qed.

Lemma delete_unlinks_witness :
  entry_of [(["a"; "y"], Regular)] ["a"; "x"] =
  if existsb (path_eqb ["a"; "x"])
       (chain_values
          (_deltable
             {| _keeptable := [("H1", [["a"; "y"]])];
                _deltable := [("H1", [["a"; "x"]])];
                _deduped := true |}))
  then NoEntry
  else entry_of [(["a"; "x"], Regular); (["a"; "y"], Regular)] ["a"; "x"].
Proof.
  apply (delete_unlinks
           {| _keeptable := [("H1", [["a"; "y"]])];
              _deltable := [("H1", [["a"; "x"]])]; _deduped := true |}
           ["t"]
           {| files := [(["a"; "x"], Regular); (["a"; "y"], Regular)];
              lookup_rows := [["a"; "x"]; ["a"; "y"]] |}
           {| files := [(["a"; "y"], Regular)];
              lookup_rows := [["a"; "y"]] |}).
  - reflexivity.
  - reflexivity.
Defined.

End execution_laws.
